(** * Agent Comments: anchor resolution and offline synchronisation

    A shallow embedding of the anchor resolver and anchor index
    (src/storage/anchor.ts), the sidecar storage (src/storage/sidecar.ts),
    the thread model (src/models/thread.ts), the identifiers
    (src/utils/ids.ts), the validators of server messages
    (src/backend/protocol.ts) and the two sidecar-writing backends
    (src/backend/offline.ts, src/backend/local.ts), followed by the
    properties proved about them.

    Conventions of the embedding

    - A JavaScript string is the list of its UTF-16 code units ([list N]);
      [===] on strings is equality of these lists.
    - The first parts take the offsets of an anchor as integers ([Z]), as
      the editor produces them.  The validators check no offset, so the
      code can also meet an offset that is missing, infinite or beyond
      2^53: the resolver and the anchor index are modelled a second time on
      such numbers, in module [JS], and [JS_resolveAnchor_integerView]
      relates the two resolvers.  Indices produced by [indexOf] are
      naturals, [-1] is [None].
    - A thrown [Error] is a value of [Error]; a method that may throw
      returns the state reached when it stopped together with either the
      error or its result, so that mutations performed before a throw stay
      visible, as they do in JavaScript.
    - Thread objects live in a store and are referred to by location: the
      thread array of a backend and the thread map of its anchor index hold
      references to the same objects, so that a shift made through the index
      is seen through the thread array.  A thread owns its anchor and its
      messages (they are stored inside the thread object); an anchor or a
      message handed to a method, or queued in the outbox, is recorded as it
      is at the call.  In module [JS] the anchor index works on thread
      objects that refer to anchor objects, which two threads may share.
    - A method runs as one step of the event loop.  The exception is
      [reanchorAndAddThread], which [handleIncomingThread] starts without
      awaiting it: what follows its [await] is a step of its own.
    - Notices and console warnings are left out.  The interval tree is the
      list of its intervals; the order in which [search] answers is not
      modelled. *)

From Stdlib Require Import ZArith NArith Bool Lia Ascii String.
From stdpp Require Import base option list gmap.

Local Open Scope Z_scope.

(** ** JavaScript strings *)

Abbreviation jsstring := (list N).

(** A string literal, code unit by code unit. *)
Definition str (s : string) : jsstring :=
  List.map N_of_ascii (list_ascii_of_string s).

(** [hay.startsWith(needle)] at position 0. *)
Fixpoint startsWith (hay needle : jsstring) {struct needle} : bool :=
  match needle, hay with
  | [], _ => true
  | _ :: _, [] => false
  | c :: needle', d :: hay' => bool_decide (c = d) && startsWith hay' needle'
  end.

(** The scan of [String.prototype.indexOf]: the first position, counted from
    [pos], at which [needle] starts. *)
Fixpoint indexOf_scan (hay needle : jsstring) (pos : nat) : option nat :=
  if startsWith hay needle then Some pos
  else match hay with
       | [] => None
       | _ :: hay' => indexOf_scan hay' needle (S pos)
       end.

(** [hay.indexOf(needle, fromIndex)] for [fromIndex >= 0]; the start position
    is clamped to the length of [hay]. *)
Definition indexOf (hay needle : jsstring) (fromIndex : nat) : option nat :=
  let k := (fromIndex `min` length hay)%nat in
  indexOf_scan (drop k hay) needle k.

(** [hay.includes(needle)]. *)
Definition includes (hay needle : jsstring) : bool :=
  match indexOf hay needle 0 with Some _ => true | None => false end.

(** The position denoted by a relative index of [slice]: a negative index
    counts from the end, and the result is clamped to [0 .. len]. *)
Definition relIndex (len : nat) (i : Z) : nat :=
  if i <? 0 then Z.to_nat (Z.max 0 (Z.of_nat len + i))
  else Z.to_nat (Z.min i (Z.of_nat len)).

(** [s.slice(start, end)]. *)
Definition slice (s : jsstring) (start end_ : Z) : jsstring :=
  let from := relIndex (length s) start in
  let to := relIndex (length s) end_ in
  take (to - from) (drop from s).

(** [s.slice(start)]. *)
Definition sliceFrom (s : jsstring) (start : Z) : jsstring :=
  drop (relIndex (length s) start) s.

(** [needle] occurs in [hay] at offset [k]. *)
Definition occursAt (hay needle : jsstring) (k : nat) : Prop :=
  take (length needle) (drop k hay) = needle.

(** ** The thread model (src/models/thread.ts) *)

Inductive ThreadStatus := Open | Resolved.
Inductive SuggestionStatus := Pending | Accepted | Rejected.
Inductive AuthorType := Human | Agent.

Record TextAnchor := mkTextAnchor {
  anchorText : jsstring;
  startOffset : Z;
  endOffset : Z;
  sectionHeading : option jsstring
}.

Record Suggestion := mkSuggestion {
  originalText : jsstring;
  replacementText : jsstring;
  sg_status : SuggestionStatus
}.

Record ThreadMessage := mkThreadMessage {
  msg_id : jsstring;
  author : jsstring;
  authorType : AuthorType;
  content : jsstring;
  timestamp : jsstring;
  suggestion : option Suggestion;
  knowledgeRefs : option (list jsstring)
}.

Record CommentThread := mkCommentThread {
  id : jsstring;
  documentId : jsstring;
  anchor : TextAnchor;
  status : ThreadStatus;
  messages : list ThreadMessage;
  createdAt : jsstring;
  updatedAt : jsstring
}.

(** ** Anchor resolution (src/storage/anchor.ts) *)

Inductive ResolveMethod := Exact | TextSearch | HeadingFallback.

Record ResolvedAnchor := mkResolved {
  r_startOffset : Z;
  r_endOffset : Z;
  method : ResolveMethod
}.

(** [distance < bestDistance] for an integer distance; [Infinity], the
    initial [bestDistance], is [None].  For the other numbers see
    [JS.findClosestMatch_loop]. *)
Definition lessThan (distance : Z) (bestDistance : option Z) : bool :=
  match bestDistance with
  | None => true
  | Some b => distance <? b
  end.

(** The [while] loop of [findClosestMatch].  [fuel] bounds the number of
    iterations; [findClosestMatch] supplies more than the loop can use. *)
Fixpoint findClosestMatch_loop (fuel : nat) (needle haystack : jsstring)
    (preferredOffset : Z) (searchFrom : nat)
    (bestOffset : option nat) (bestDistance : option Z) : option nat :=
  match fuel with
  | O => bestOffset
  | S fuel' =>
    if Z.of_nat searchFrom <=? Z.of_nat (length haystack) - Z.of_nat (length needle)
    then
      match indexOf haystack needle searchFrom with
      | None => bestOffset
      | Some idx =>
        let distance := Z.abs (Z.of_nat idx - preferredOffset) in
        if lessThan distance bestDistance
        then findClosestMatch_loop fuel' needle haystack preferredOffset
               (idx + 1) (Some idx) (Some distance)
        else findClosestMatch_loop fuel' needle haystack preferredOffset
               (idx + 1) bestOffset bestDistance
      end
    else bestOffset
  end.

Definition findClosestMatch (needle haystack : jsstring) (preferredOffset : Z)
    : option nat :=
  if (length needle =? 0)%nat then None
  else findClosestMatch_loop (S (length haystack)) needle haystack
         preferredOffset 0 None None.

Definition HASH : N := 35.
Definition SPACE : N := 32.

(** A LineTerminator of the regular-expression grammar: LF, CR, LS, PS. *)
Definition isLineTerminator (c : N) : bool :=
  ((c =? 10) || (c =? 13) || (c =? 8232) || (c =? 8233))%N.

(** Length of the run of [#] a string starts with: what [/^#+/] matches. *)
Fixpoint countHashes (s : jsstring) : nat :=
  match s with
  | c :: s' => if (c =? HASH)%N then S (countHashes s') else O
  | [] => O
  end.

(** [sectionHeading.match(/^#+/)?.[0]?.length ?? 1]. *)
Definition headingLevel (sectionHeading : jsstring) : nat :=
  match countHashes sectionHeading with
  | O => 1%nat
  | n => n
  end.

(** [#{1,level} ] matches at the start of [s]: between one and [level]
    hashes followed by a space. *)
Definition matchesHeadingAt (level : nat) (s : jsstring) : bool :=
  let k := countHashes s in
  (1 <=? k)%nat && (k <=? level)%nat &&
  match s !! k with
  | Some c => (c =? SPACE)%N
  | None => false
  end.

(** [new RegExp("^#{1,level} ", "m").exec(s)?.index]: the first line start
    at which the pattern matches.  [pos] is the offset of [s] in the string
    searched and [lineStart] tells whether [s] begins a line. *)
Fixpoint execHeadingPattern (level : nat) (s : jsstring) (pos : nat)
    (lineStart : bool) : option nat :=
  match s with
  | [] => None
  | c :: s' =>
    if lineStart && matchesHeadingAt level s then Some pos
    else execHeadingPattern level s' (S pos) (isLineTerminator c)
  end.

Definition resolveViaHeading (anchorText documentContent sectionHeading : jsstring)
    : option nat :=
  match indexOf documentContent sectionHeading 0 with
  | None => None
  | Some headingIdx =>
    let level := headingLevel sectionHeading in
    let afterHeading :=
      sliceFrom documentContent (Z.of_nat (headingIdx + length sectionHeading)) in
    let sectionEnd :=
      match execHeadingPattern level afterHeading 0 true with
      | Some index => (headingIdx + length sectionHeading + index)%nat
      | None => length documentContent
      end in
    let sectionContent :=
      slice documentContent (Z.of_nat headingIdx) (Z.of_nat sectionEnd) in
    match indexOf sectionContent anchorText 0 with
    | None => None
    | Some localIdx => Some (headingIdx + localIdx)%nat
    end
  end.

(** The test of layer 1 of [resolveAnchor]. *)
Definition exactMatch (anchor : TextAnchor) (documentContent : jsstring) : bool :=
  (0 <=? startOffset anchor) &&
  (endOffset anchor <=? Z.of_nat (length documentContent)) &&
  (startOffset anchor <? endOffset anchor) &&
  bool_decide (slice documentContent (startOffset anchor) (endOffset anchor)
               = anchorText anchor).

(** [if (anchor.sectionHeading)]: defined and not the empty string. *)
Definition truthyHeading (h : option jsstring) : option jsstring :=
  match h with
  | Some (c :: h') => Some (c :: h')
  | _ => None
  end.

Definition resolveAnchor (anchor : TextAnchor) (documentContent : jsstring)
    : option ResolvedAnchor :=
  if (length documentContent =? 0)%nat then None
  else if exactMatch anchor documentContent
  then Some (mkResolved (startOffset anchor) (endOffset anchor) Exact)
  else
    match findClosestMatch (anchorText anchor) documentContent (startOffset anchor) with
    | Some textResult =>
      Some (mkResolved (Z.of_nat textResult)
              (Z.of_nat textResult + Z.of_nat (length (anchorText anchor)))
              TextSearch)
    | None =>
      match truthyHeading (sectionHeading anchor) with
      | Some heading =>
        match resolveViaHeading (anchorText anchor) documentContent heading with
        | Some headingResult =>
          Some (mkResolved (Z.of_nat headingResult)
                  (Z.of_nat headingResult + Z.of_nat (length (anchorText anchor)))
                  HeadingFallback)
        | None => None
        end
      | None => None
      end
    end.

(** ** The object store *)

(** The location of a thread object. *)
Definition loc := nat.

(** The thread objects allocated so far; a location is an index. *)
Abbreviation Store := (list CommentThread).

Definition setAnchor (a : TextAnchor) (t : CommentThread) : CommentThread :=
  mkCommentThread (id t) (documentId t) a (status t) (messages t)
    (createdAt t) (updatedAt t).

Definition setStatus (st : ThreadStatus) (t : CommentThread) : CommentThread :=
  mkCommentThread (id t) (documentId t) (anchor t) st (messages t)
    (createdAt t) (updatedAt t).

Definition setMessages (ms : list ThreadMessage) (t : CommentThread) : CommentThread :=
  mkCommentThread (id t) (documentId t) (anchor t) (status t) ms
    (createdAt t) (updatedAt t).

Definition setUpdatedAt (now : jsstring) (t : CommentThread) : CommentThread :=
  mkCommentThread (id t) (documentId t) (anchor t) (status t) (messages t)
    (createdAt t) now.

Definition setOffsets (s e : Z) (a : TextAnchor) : TextAnchor :=
  mkTextAnchor (anchorText a) s e (sectionHeading a).

Definition setSuggestionStatus (st : SuggestionStatus) (m : ThreadMessage)
    : ThreadMessage :=
  mkThreadMessage (msg_id m) (author m) (authorType m) (content m) (timestamp m)
    (match suggestion m with
     | Some sg => Some (mkSuggestion (originalText sg) (replacementText sg) st)
     | None => None
     end)
    (knowledgeRefs m).

(** ** The anchor index (class [AnchorIndex] of src/storage/anchor.ts) *)

(** [Map.prototype.set] on a map kept in insertion order: an existing key
    keeps its position and takes the new value. *)
Fixpoint mapSet {V} (m : list (jsstring * V)) (k : jsstring) (v : V)
    : list (jsstring * V) :=
  match m with
  | [] => [(k, v)]
  | (k', v') :: m' =>
    if decide (k' = k) then (k, v) :: m' else (k', v') :: mapSet m' k v
  end.

(** [tree] lists the intervals inserted in the interval tree, each with the
    thread id stored as its value; [threadMap] is the [Map] from thread id to
    thread object. *)
Record AnchorIndex := mkAnchorIndex {
  tree : list (Z * Z * jsstring);
  threadMap : list (jsstring * loc)
}.

Definition emptyIndex : AnchorIndex := mkAnchorIndex [] [].

(** One iteration of the loop of [build]. *)
Definition build_step (heap : Store) (idx : AnchorIndex) (l : loc) : AnchorIndex :=
  match heap !! l with
  | Some thread =>
    mkAnchorIndex
      (if startOffset (anchor thread) <? endOffset (anchor thread)
       then tree idx ++ [(startOffset (anchor thread), endOffset (anchor thread), id thread)]
       else tree idx)
      (mapSet (threadMap idx) (id thread) l)
  | None => idx
  end.

Definition build (heap : Store) (threads : list loc) : AnchorIndex :=
  fold_left (build_step heap) threads emptyIndex.

(** [Array.from(this.threadMap.values())]. *)
Definition indexed (idx : AnchorIndex) : list loc := (threadMap idx).*2.

(** The body of the loop of [applyOffsetShift] on one anchor. *)
Definition shiftAnchor (changeFrom changeTo delta : Z) (a : TextAnchor) : TextAnchor :=
  if startOffset a >=? changeTo
  then setOffsets (startOffset a + delta) (endOffset a + delta) a
  else if (startOffset a >=? changeFrom) && (endOffset a <=? changeTo)
  then a
  else if endOffset a >? changeFrom
  then setOffsets (startOffset a) (Z.max (startOffset a) (endOffset a + delta)) a
  else a.

(** One iteration of that loop on a thread object that owns its anchor;
    for anchor objects that threads share see [JS.shiftThread]. *)
Definition shiftThread (changeFrom changeTo delta : Z) (heap : Store) (l : loc) : Store :=
  match heap !! l with
  | Some thread =>
    <[l := setAnchor (shiftAnchor changeFrom changeTo delta (anchor thread)) thread]> heap
  | None => heap
  end.

Definition applyOffsetShift (heap : Store) (idx : AnchorIndex)
    (changeFrom changeTo insertLength : Z) : Store * AnchorIndex :=
  let delta := insertLength - (changeTo - changeFrom) in
  if delta =? 0 then (heap, idx)
  else
    let threads := indexed idx in
    let heap' := fold_left (shiftThread changeFrom changeTo delta) threads heap in
    (heap', build heap' threads).

(** ** The vault

    The vault is modelled on the double the repository ships in
    tests/__mocks__/obsidian.ts: a map from paths to file contents, whose
    [read] answers the empty string for a missing file and whose [modify]
    and [create] both store the data.  [getAbstractFileByPath] may also
    answer a folder, as its type says. *)

Record TFile := mkTFile {
  path : jsstring;
  extension : jsstring
}.

Inductive AbstractFile :=
| FileEntry (data : jsstring)
| FolderEntry.

Abbreviation Vault := (gmap jsstring AbstractFile).

Definition vaultRead (vault : Vault) (file : TFile) : jsstring :=
  match vault !! path file with
  | Some (FileEntry data) => data
  | _ => []
  end.

Definition vaultModify (vault : Vault) (filePath : jsstring) (data : jsstring) : Vault :=
  <[filePath := FileEntry data]> vault.

Definition vaultCreate (vault : Vault) (filePath : jsstring) (data : jsstring) : Vault :=
  <[filePath := FileEntry data]> vault.

(** ** Errors *)

(** The [Error]s thrown by the modelled code, one constructor per [throw]
    site (the source distinguishes them by message only). *)
Inductive Error :=
| NoActiveDocument      (* "No active document. Call setActiveDocument() first." *)
| ThreadNotFound        (* "Thread '...' not found" *)
| MessageNotFound       (* "Message '...' not found in thread '...'" *)
| NoSuggestion          (* "Message '...' has no suggestion" *)
| AlreadyDecided        (* "Suggestion in message '...' is already '...'" *)
| StaleSuggestion       (* "Original text not found at anchor position. ..." *)
| UnsupportedFile.      (* "Only .md files are supported, got: ..." *)

Inductive Result (A : Type) :=
| Ok (a : A)
| Throw (e : Error).
Arguments Ok {A} a.
Arguments Throw {A} e.

(** ** Parsed JSON and sidecar validation (src/models/thread.ts) *)

#[local] Unset Elimination Schemes.
Inductive JSON :=
| JNull
| JBool (b : bool)
| JNumber (n : Z)
| JString (s : jsstring)
| JArray (items : list JSON)
| JObject (props : list (jsstring * JSON)).
#[local] Set Elimination Schemes.

(** [typeof data === "object" && data !== null]. *)
Definition isObject (data : JSON) : bool :=
  match data with
  | JArray _ | JObject _ => true
  | _ => false
  end.

(** [obj[key]] for the keys read by the validators; [None] is [undefined]. *)
Fixpoint lookupProp (props : list (jsstring * JSON)) (key : jsstring) : option JSON :=
  match props with
  | [] => None
  | (k, v) :: props' => if decide (k = key) then Some v else lookupProp props' key
  end.

Definition getProp (data : JSON) (key : jsstring) : option JSON :=
  match data with
  | JObject props => lookupProp props key
  | _ => None
  end.

(** [key in obj]. *)
Definition hasProp (data : JSON) (key : jsstring) : bool :=
  match getProp data key with Some _ => true | None => false end.

(** JavaScript truthiness of a property value. *)
Definition truthy (v : option JSON) : bool :=
  match v with
  | None | Some JNull => false
  | Some (JBool b) => b
  | Some (JNumber n) => negb (n =? 0)
  | Some (JString s) => negb (bool_decide (s = []))
  | Some (JArray _) | Some (JObject _) => true
  end.

Definition isString (v : option JSON) : bool :=
  match v with Some (JString _) => true | _ => false end.

Definition isNumber (v : option JSON) : bool :=
  match v with Some (JNumber _) => true | _ => false end.

(** [typeof v === "string" && !valid.has(v)]. *)
Definition invalidEnum (valid : list jsstring) (v : option JSON) : bool :=
  match v with
  | Some (JString s) => negb (bool_decide (s ∈ valid))
  | _ => false
  end.

Definition VALID_THREAD_STATUSES : list jsstring := [str "open"; str "resolved"].
Definition VALID_SUGGESTION_STATUSES : list jsstring :=
  [str "pending"; str "accepted"; str "rejected"].
Definition VALID_AUTHOR_TYPES : list jsstring := [str "human"; str "agent"].
Definition CURRENT_SCHEMA_VERSION : Z := 1.

(** The [error] strings of a failed validation, by kind. *)
Inductive ValidationError :=
| NotAnObject | BadVersionField | UnsupportedVersion | BadThreadsArray
| ThreadNotObject | ThreadMissingId | ThreadMissingAnchor | ThreadBadStatus
| ThreadMissingMessages
| MessageNotObject | MessageMissingId | MessageBadAuthorType
| SuggestionBadStatus.

Inductive ValidationResult :=
| Valid
| Invalid (error : ValidationError).

Definition valid (r : ValidationResult) : bool :=
  match r with Valid => true | Invalid _ => false end.

(** A [for] loop that returns the first failing result. *)
Fixpoint validateAll (validate : JSON -> ValidationResult) (items : list JSON)
    : ValidationResult :=
  match items with
  | [] => Valid
  | x :: items' =>
    match validate x with
    | Valid => validateAll validate items'
    | Invalid e => Invalid e
    end
  end.

Definition validateMessage (data : JSON) : ValidationResult :=
  if negb (isObject data) then Invalid MessageNotObject
  else if negb (truthy (getProp data (str "id"))) || negb (isString (getProp data (str "id")))
  then Invalid MessageMissingId
  else if invalidEnum VALID_AUTHOR_TYPES (getProp data (str "authorType"))
  then Invalid MessageBadAuthorType
  else if truthy (getProp data (str "suggestion")) &&
          invalidEnum VALID_SUGGESTION_STATUSES
            (match getProp data (str "suggestion") with
             | Some suggestion => getProp suggestion (str "status")
             | None => None
             end)
  then Invalid SuggestionBadStatus
  else Valid.

Definition validateThread (data : JSON) : ValidationResult :=
  if negb (isObject data) then Invalid ThreadNotObject
  else if negb (truthy (getProp data (str "id"))) || negb (isString (getProp data (str "id")))
  then Invalid ThreadMissingId
  else if negb (truthy (getProp data (str "anchor"))) ||
          negb (match getProp data (str "anchor") with
                | Some a => isObject a
                | None => false
                end)
  then Invalid ThreadMissingAnchor
  else if invalidEnum VALID_THREAD_STATUSES (getProp data (str "status"))
  then Invalid ThreadBadStatus
  else
    match getProp data (str "messages") with
    | Some (JArray messages) => validateAll validateMessage messages
    | _ => Invalid ThreadMissingMessages
    end.

Definition validateSidecarFile (data : JSON) : ValidationResult :=
  if negb (isObject data) then Invalid NotAnObject
  else if negb (hasProp data (str "version")) || negb (isNumber (getProp data (str "version")))
  then Invalid BadVersionField
  else if negb (match getProp data (str "version") with
                | Some (JNumber n) => n =? CURRENT_SCHEMA_VERSION
                | _ => false
                end)
  then Invalid UnsupportedVersion
  else
    match getProp data (str "threads") with
    | Some (JArray threads) => validateAll validateThread threads
    | _ => Invalid BadThreadsArray
    end.

Record SidecarFile := mkSidecarFile {
  version : Z;
  sf_documentId : jsstring;
  sf_threads : list CommentThread
}.

(** ** The host environment

    What the code takes from the JavaScript runtime: the JSON codec, the
    view of a validated JSON value as a thread (the cast [as SidecarFile]
    checks nothing), and the successive results of [generateId()] and
    [nowISO()] (src/utils/ids.ts). *)
Class Host := {
  JSON_parse : jsstring -> option JSON;   (* [None]: a SyntaxError is thrown *)
  JSON_stringify : SidecarFile -> jsstring;
  asThread : JSON -> CommentThread;
  generateId : nat -> jsstring;
  nowISO : nat -> jsstring
}.

(** ** Sidecar storage (src/storage/sidecar.ts)

    The functions of the storage as the backends use them: only
    [saveImmediate] writes are issued by the backends.  The storage object
    with the debounce timers of [save] is [SidecarStorage] below. *)

Definition SIDECAR_EXTENSION : jsstring := str ".agent-comments.json".
Definition SCHEMA_VERSION : Z := 1.

Definition getPath (documentFile : TFile) : Result jsstring :=
  if negb (bool_decide (extension documentFile = str "md"))
  then Throw UnsupportedFile
  else Ok (slice (path documentFile) 0 (-3) ++ SIDECAR_EXTENSION).

(** [(data as SidecarFile).threads] of a validated value. *)
Definition threadsOf `{Host} (data : JSON) : list CommentThread :=
  match getProp data (str "threads") with
  | Some (JArray threads) => asThread <$> threads
  | _ => []
  end.

(** The [try] block of [load]; everything it throws is caught by [load]. *)
Definition load_try `{Host} (vault : Vault) (sidecarPath : jsstring)
    : Result (list CommentThread) :=
  match vault !! sidecarPath with
  | Some (FileEntry content) =>
    match JSON_parse content with
    | None => Ok []                        (* catch: SyntaxError *)
    | Some data =>
      if negb (valid (validateSidecarFile data)) then Ok []
      else Ok (threadsOf data)
    end
  | _ => Ok []                             (* no such file, or not a TFile *)
  end.

Definition load `{Host} (vault : Vault) (documentFile : TFile)
    : Result (list CommentThread) :=
  match getPath documentFile with
  | Throw e => Throw e
  | Ok sidecarPath => load_try vault sidecarPath
  end.

Definition writeFile `{Host} (vault : Vault) (sidecarPath documentPath : jsstring)
    (threads : list CommentThread) : Vault :=
  let content := JSON_stringify (mkSidecarFile SCHEMA_VERSION documentPath threads) in
  match vault !! sidecarPath with
  | Some (FileEntry _) => vaultModify vault sidecarPath content
  | _ => vaultCreate vault sidecarPath content
  end.

Definition saveImmediate `{Host} (vault : Vault) (documentFile : TFile)
    (threads : list CommentThread) : Result Vault :=
  match getPath documentFile with
  | Throw e => Throw e
  | Ok sidecarPath => Ok (writeFile vault sidecarPath (path documentFile) threads)
  end.

(** ** Local notifications *)

(** An invocation of one of the callbacks registered with [onNewThread],
    [onNewMessage] and [onSuggestion]. *)
Inductive Notification :=
| NewThreadNotification (thread : CommentThread)
| NewMessageNotification (threadId : jsstring) (message : ThreadMessage)
| SuggestionNotification (threadId : jsstring) (message : ThreadMessage).

(** ** The local backend (class [LocalBackend], src/backend/local.ts)

    [t] holds the fields of the class, which are also the fields that
    [OfflineAwareBackend] declares for its sidecar-first half.  The vault is
    the one shared with the storage.  A callback field records whether a
    callback is registered; [notified] lists the invocations made so far.
    [idsDrawn] and [clockReads] count the calls to [generateId()] and
    [nowISO()]. *)
Module LocalBackend.

Record t := mk {
  vault : Vault;
  store : Store;
  activeFile : option TFile;
  threads : list loc;
  anchorIndex : AnchorIndex;
  onNewThreadCallback : bool;
  onNewMessageCallback : bool;
  onSuggestionCallback : bool;
  notified : list Notification;
  idsDrawn : nat;
  clockReads : nat
}.

Definition set_vault (v : _) (b : t) : t :=
  mk v (store b) (activeFile b) (threads b) (anchorIndex b)
    (onNewThreadCallback b) (onNewMessageCallback b) (onSuggestionCallback b)
    (notified b) (idsDrawn b) (clockReads b).

Definition set_store (v : _) (b : t) : t :=
  mk (vault b) v (activeFile b) (threads b) (anchorIndex b)
    (onNewThreadCallback b) (onNewMessageCallback b) (onSuggestionCallback b)
    (notified b) (idsDrawn b) (clockReads b).

Definition set_activeFile (v : _) (b : t) : t :=
  mk (vault b) (store b) v (threads b) (anchorIndex b) (onNewThreadCallback b)
    (onNewMessageCallback b) (onSuggestionCallback b) (notified b)
    (idsDrawn b) (clockReads b).

Definition set_threads (v : _) (b : t) : t :=
  mk (vault b) (store b) (activeFile b) v (anchorIndex b)
    (onNewThreadCallback b) (onNewMessageCallback b) (onSuggestionCallback b)
    (notified b) (idsDrawn b) (clockReads b).

Definition set_anchorIndex (v : _) (b : t) : t :=
  mk (vault b) (store b) (activeFile b) (threads b) v (onNewThreadCallback b)
    (onNewMessageCallback b) (onSuggestionCallback b) (notified b)
    (idsDrawn b) (clockReads b).

Definition set_onNewThreadCallback (v : _) (b : t) : t :=
  mk (vault b) (store b) (activeFile b) (threads b) (anchorIndex b) v
    (onNewMessageCallback b) (onSuggestionCallback b) (notified b)
    (idsDrawn b) (clockReads b).

Definition set_onNewMessageCallback (v : _) (b : t) : t :=
  mk (vault b) (store b) (activeFile b) (threads b) (anchorIndex b)
    (onNewThreadCallback b) v (onSuggestionCallback b) (notified b)
    (idsDrawn b) (clockReads b).

Definition set_onSuggestionCallback (v : _) (b : t) : t :=
  mk (vault b) (store b) (activeFile b) (threads b) (anchorIndex b)
    (onNewThreadCallback b) (onNewMessageCallback b) v (notified b)
    (idsDrawn b) (clockReads b).

Definition set_notified (v : _) (b : t) : t :=
  mk (vault b) (store b) (activeFile b) (threads b) (anchorIndex b)
    (onNewThreadCallback b) (onNewMessageCallback b) (onSuggestionCallback b)
    v (idsDrawn b) (clockReads b).

Definition set_idsDrawn (v : _) (b : t) : t :=
  mk (vault b) (store b) (activeFile b) (threads b) (anchorIndex b)
    (onNewThreadCallback b) (onNewMessageCallback b) (onSuggestionCallback b)
    (notified b) v (clockReads b).

Definition set_clockReads (v : _) (b : t) : t :=
  mk (vault b) (store b) (activeFile b) (threads b) (anchorIndex b)
    (onNewThreadCallback b) (onNewMessageCallback b) (onSuggestionCallback b)
    (notified b) (idsDrawn b) v.

(** A method: the state it leaves and its result or the error it throws. *)
Definition M (A : Type) := t -> t * Result A.

(** [getThreads()]: the thread objects of [this.threads]. *)
Definition getThreads (b : t) : list CommentThread :=
  omap (fun l => store b !! l) (threads b).

(** [threads.find((t) => t.id === threadId)] over references. *)
Fixpoint findIn (heap : Store) (ls : list loc) (threadId : jsstring)
    : option (loc * CommentThread) :=
  match ls with
  | [] => None
  | l :: ls' =>
    match heap !! l with
    | Some thread =>
      if decide (id thread = threadId) then Some (l, thread)
      else findIn heap ls' threadId
    | None => findIn heap ls' threadId
    end
  end.

Definition findThread (b : t) (threadId : jsstring) : option (loc * CommentThread) :=
  findIn (store b) (threads b) threadId.

(** [thread.messages.find((m) => m.id === messageId)], with the position of
    the message found. *)
Definition findMessage (thread : CommentThread) (messageId : jsstring)
    : option (nat * ThreadMessage) :=
  list_find (fun m => msg_id m = messageId) (messages thread).

(** [nowISO()]. *)
Definition now `{Host} (b : t) : jsstring * t :=
  (nowISO (clockReads b), set_clockReads (S (clockReads b)) b).

(** [createThread] of src/models/thread.ts. *)
Definition createThreadModel `{Host} (documentId : jsstring) (anchor : TextAnchor)
    (firstMessage : option ThreadMessage) (b : t) : CommentThread * t :=
  let '(stamp, b1) := now b in
  let newId := generateId (idsDrawn b1) in
  (mkCommentThread newId documentId anchor Open
     (match firstMessage with Some m => [m] | None => [] end) stamp stamp,
   set_idsDrawn (S (idsDrawn b1)) b1).

(** [this.threads.push(thread)] for a new thread object. *)
Definition pushThread (thread : CommentThread) (b : t) : t :=
  set_threads (threads b ++ [length (store b)]) (set_store (store b ++ [thread]) b).

(** [this.anchorIndex.build(this.threads)]. *)
Definition rebuildIndex (b : t) : t :=
  set_anchorIndex (build (store b) (threads b)) b.

(** [await this.storage.saveImmediate(this.activeFile!, this.threads)]. *)
Definition persist `{Host} (file : TFile) (b : t) : t * Result unit :=
  match saveImmediate (vault b) file (getThreads b) with
  | Throw e => (b, Throw e)
  | Ok v => (set_vault v b, Ok tt)
  end.

Definition notify (registered : bool) (n : Notification) (b : t) : t :=
  if registered then set_notified (notified b ++ [n]) b else b.

(** An assignment to fields of the thread object at [l]. *)
Definition updateThread (l : loc) (f : CommentThread -> CommentThread) (b : t) : t :=
  match store b !! l with
  | Some thread => set_store (<[l := f thread]> (store b)) b
  | None => b
  end.

(** [thread.updatedAt = nowISO()]. *)
Definition touch `{Host} (l : loc) (b : t) : t :=
  let '(stamp, b1) := now b in updateThread l (setUpdatedAt stamp) b1.

Definition setActiveDocument `{Host} (file : TFile) : M unit := fun b =>
  let b1 := set_activeFile (Some file) b in
  match load (vault b1) file with
  | Throw e => (b1, Throw e)
  | Ok loaded =>
    let b2 := set_threads (seq (length (store b1)) (length loaded))
                (set_store (store b1 ++ loaded) b1) in
    (rebuildIndex b2, Ok tt)
  end.

Definition createThread `{Host} (anchor : TextAnchor)
    (firstMessage : option ThreadMessage) : M CommentThread := fun b =>
  match activeFile b with
  | None => (b, Throw NoActiveDocument)
  | Some file =>
    let '(thread, b1) := createThreadModel (path file) anchor firstMessage b in
    let b2 := rebuildIndex (pushThread thread b1) in
    match persist file b2 with
    | (b3, Throw e) => (b3, Throw e)
    | (b3, Ok _) =>
      (notify (onNewThreadCallback b3) (NewThreadNotification thread) b3, Ok thread)
    end
  end.

Definition addMessage `{Host} (threadId : jsstring) (message : ThreadMessage)
    : M ThreadMessage := fun b =>
  match activeFile b with
  | None => (b, Throw NoActiveDocument)
  | Some file =>
    match findThread b threadId with
    | None => (b, Throw ThreadNotFound)
    | Some (l, thread) =>
      let b1 := updateThread l (fun t => setMessages (messages t ++ [message]) t) b in
      let b2 := touch l b1 in
      match persist file b2 with
      | (b3, Throw e) => (b3, Throw e)
      | (b3, Ok _) =>
        (notify (onNewMessageCallback b3) (NewMessageNotification threadId message) b3,
         Ok message)
      end
    end
  end.

(** [resolveThread] and [reopenThread]. *)
Definition setThreadStatus `{Host} (newStatus : ThreadStatus) (threadId : jsstring)
    : M unit := fun b =>
  match activeFile b with
  | None => (b, Throw NoActiveDocument)
  | Some file =>
    match findThread b threadId with
    | None => (b, Throw ThreadNotFound)
    | Some (l, thread) =>
      let b1 := updateThread l (setStatus newStatus) b in
      let b2 := touch l b1 in
      persist file b2
    end
  end.

Definition resolveThread `{Host} : jsstring -> M unit := setThreadStatus Resolved.
Definition reopenThread `{Host} : jsstring -> M unit := setThreadStatus Open.

Definition isPending (sg : Suggestion) : bool :=
  match sg_status sg with Pending => true | _ => false end.

(** [message.suggestion.status = newStatus] for the message at position [i]
    of the thread at [l]. *)
Definition decideSuggestion (l : loc) (i : nat) (newStatus : SuggestionStatus)
    (b : t) : t :=
  updateThread l
    (fun t => setMessages (alter (setSuggestionStatus newStatus) i (messages t)) t) b.

(** [currentText.indexOf(originalText)] as a number. *)
Definition indexOfZ (hay needle : jsstring) : Z :=
  match indexOf hay needle 0 with
  | Some i => Z.of_nat i
  | None => -1
  end.

Definition acceptSuggestion `{Host} (threadId messageId : jsstring) : M unit := fun b =>
  match activeFile b with
  | None => (b, Throw NoActiveDocument)
  | Some file =>
    match findThread b threadId with
    | None => (b, Throw ThreadNotFound)
    | Some (l, thread) =>
      match findMessage thread messageId with
      | None => (b, Throw MessageNotFound)
      | Some (i, message) =>
        match suggestion message with
        | None => (b, Throw NoSuggestion)
        | Some sg =>
          if negb (isPending sg) then (b, Throw AlreadyDecided)
          else
            (* Step 1: read current document content *)
            let content := vaultRead (vault b) file in
            (* Step 2: validate originalText within the anchor range *)
            let currentText :=
              slice content (startOffset (anchor thread)) (endOffset (anchor thread)) in
            if negb (includes currentText (originalText sg))
            then (b, Throw StaleSuggestion)
            else
              let localIdx := indexOfZ currentText (originalText sg) in
              let replaceStart := startOffset (anchor thread) + localIdx in
              let replaceEnd := replaceStart + Z.of_nat (length (originalText sg)) in
              (* Step 3: apply replacement *)
              let newContent :=
                slice content 0 replaceStart ++ replacementText sg
                  ++ sliceFrom content replaceEnd in
              let b1 := set_vault (vaultModify (vault b) (path file) newContent) b in
              (* Step 4: re-anchor all other threads *)
              let delta := Z.of_nat (length (replacementText sg))
                           - Z.of_nat (length (originalText sg)) in
              let b2 :=
                if negb (delta =? 0)
                then
                  let '(heap, idx) :=
                    applyOffsetShift (store b1) (anchorIndex b1) replaceStart replaceEnd
                      (Z.of_nat (length (replacementText sg))) in
                  set_anchorIndex idx (set_store heap b1)
                else b1 in
              (* Step 5: set suggestion status *)
              let b3 := touch l (decideSuggestion l i Accepted b2) in
              (* Step 6: save sidecar *)
              persist file b3
        end
      end
    end
  end.

Definition rejectSuggestion `{Host} (threadId messageId : jsstring) : M unit := fun b =>
  match activeFile b with
  | None => (b, Throw NoActiveDocument)
  | Some file =>
    match findThread b threadId with
    | None => (b, Throw ThreadNotFound)
    | Some (l, thread) =>
      match findMessage thread messageId with
      | None => (b, Throw MessageNotFound)
      | Some (i, message) =>
        match suggestion message with
        | None => (b, Throw NoSuggestion)
        | Some sg =>
          if negb (isPending sg) then (b, Throw AlreadyDecided)
          else
            let b1 := touch l (decideSuggestion l i Rejected b) in
            persist file b1
        end
      end
    end
  end.

End LocalBackend.

(** ** The backend protocol (src/models/backend.ts) *)

Inductive BackendConnectionStatus :=
| Disconnected | Connecting | Connected | Offline | ErrorStatus.

(** The six calls of the protocol. *)
Inductive RemoteMethod :=
| CreateThread | AddMessage | ResolveThread | ReopenThread
| AcceptSuggestion | RejectSuggestion.

(** The payloads queued in the outbox (the payload interfaces of
    src/backend/protocol.ts). *)
Inductive Payload :=
| CreateThreadPayload (anchor : TextAnchor) (firstMessage : option ThreadMessage)
| AddMessagePayload (threadId : jsstring) (message : ThreadMessage)
| ThreadIdPayload (threadId : jsstring)
| SuggestionPayload (threadId messageId : jsstring).

(** A remote adapter, as the offline wrapper sees it: its connection status,
    the outcome of a call ([true]: the promise resolves, [false]: it
    rejects) and of [connect()], each with the state the adapter is left in.
    Push events are delivered through the handlers of the wrapper. *)
Class AgentCommentsBackend (R : Type) := {
  connectionStatus : R -> BackendConnectionStatus;
  call : RemoteMethod -> Payload -> R -> R * bool;
  connect : R -> R * bool
}.

(** ** The offline-first wrapper (class [OfflineAwareBackend],
       src/backend/offline.ts) *)

Definition MAX_RETRY_COUNT : Z := 3.

Record OutboxEntry := mkOutboxEntry {
  entry_type : jsstring;
  payload : Payload;
  entry_timestamp : jsstring;
  retryCount : Z
}.

Module OfflineAwareBackend.

(** [core] holds the fields shared with [LocalBackend].  [sent] logs the
    calls issued to the wrapped backend with their outcome.  [suspended]
    holds the [reanchorAndAddThread] tasks started by [handleIncomingThread]
    and not yet resumed: each stopped at [await this.vault.read(...)], with
    the thread it was given and the content read. *)
Record t (R : Type) := mk {
  wrapped : R;
  core : LocalBackend.t;
  outbox : list OutboxEntry;
  draining : bool;
  sent : list (RemoteMethod * Payload * bool);
  suspended : list (CommentThread * jsstring)
}.
Arguments wrapped {R} _.
Arguments core {R} _.
Arguments outbox {R} _.
Arguments draining {R} _.
Arguments sent {R} _.
Arguments suspended {R} _.

Definition set_wrapped {R} (v : _) (s : t R) : t R :=
  mk R v (core s) (outbox s) (draining s) (sent s) (suspended s).

Definition set_core {R} (v : _) (s : t R) : t R :=
  mk R (wrapped s) v (outbox s) (draining s) (sent s) (suspended s).

Definition set_outbox {R} (v : _) (s : t R) : t R :=
  mk R (wrapped s) (core s) v (draining s) (sent s) (suspended s).

Definition set_draining {R} (v : _) (s : t R) : t R :=
  mk R (wrapped s) (core s) (outbox s) v (sent s) (suspended s).

Definition set_sent {R} (v : _) (s : t R) : t R :=
  mk R (wrapped s) (core s) (outbox s) (draining s) v (suspended s).

Definition set_suspended {R} (v : _) (s : t R) : t R :=
  mk R (wrapped s) (core s) (outbox s) (draining s) (sent s) v.

Section Methods.
Context {R : Type} `{AgentCommentsBackend R} `{Host}.

Definition getThreads (s : t R) : list CommentThread :=
  LocalBackend.getThreads (core s).

Definition getOutbox (s : t R) : list OutboxEntry := outbox s.

Definition clearOutbox (s : t R) : t R := set_outbox [] s.

Definition isConnected (s : t R) : bool :=
  match connectionStatus (wrapped s) with
  | Connected => true
  | _ => false
  end.

Definition enqueue (type : jsstring) (p : Payload) (s : t R) : t R :=
  let '(stamp, c) := LocalBackend.now (core s) in
  set_outbox (outbox s ++ [mkOutboxEntry type p stamp 0]) (set_core c s).

(** [await this.wrapped.m(...)]: the call is logged with its outcome. *)
Definition callWrapped (m : RemoteMethod) (p : Payload) (s : t R) : t R * bool :=
  let '(w, ok) := call m p (wrapped s) in
  (set_sent (sent s ++ [(m, p, ok)]) (set_wrapped w s), ok).

(** The tail of every mutating method: forward to the backend, or queue. *)
Definition forwardOrQueue (type : jsstring) (m : RemoteMethod) (p : Payload)
    (s : t R) : t R :=
  if isConnected s then
    let '(s1, ok) := callWrapped m p s in
    if ok then s1 else enqueue type p s1
  else enqueue type p s.

(** A mutating method of the wrapper: its statements up to the forwarding
    are, one for one, those of the method of the same name of
    [LocalBackend], run on the fields the two classes share; a throw among
    them leaves the method, otherwise the call is forwarded or queued. *)
Definition sidecarFirst {A} (local : LocalBackend.M A) (type : jsstring)
    (m : RemoteMethod) (p : Payload) (s : t R) : t R * Result A :=
  match local (core s) with
  | (c, Throw e) => (set_core c s, Throw e)
  | (c, Ok a) => (forwardOrQueue type m p (set_core c s), Ok a)
  end.

Definition setActiveDocument (file : TFile) (s : t R) : t R * Result unit :=
  match LocalBackend.setActiveDocument file (core s) with
  | (c, r) => (set_core c s, r)
  end.

Definition createThread (anchor : TextAnchor) (firstMessage : option ThreadMessage)
    : t R -> t R * Result CommentThread :=
  sidecarFirst (LocalBackend.createThread anchor firstMessage)
    (str "createThread") CreateThread (CreateThreadPayload anchor firstMessage).

Definition addMessage (threadId : jsstring) (message : ThreadMessage)
    : t R -> t R * Result ThreadMessage :=
  sidecarFirst (LocalBackend.addMessage threadId message)
    (str "addMessage") AddMessage (AddMessagePayload threadId message).

Definition resolveThread (threadId : jsstring) : t R -> t R * Result unit :=
  sidecarFirst (LocalBackend.resolveThread threadId)
    (str "resolveThread") ResolveThread (ThreadIdPayload threadId).

Definition reopenThread (threadId : jsstring) : t R -> t R * Result unit :=
  sidecarFirst (LocalBackend.reopenThread threadId)
    (str "reopenThread") ReopenThread (ThreadIdPayload threadId).

Definition acceptSuggestion (threadId messageId : jsstring)
    : t R -> t R * Result unit :=
  sidecarFirst (LocalBackend.acceptSuggestion threadId messageId)
    (str "acceptSuggestion") AcceptSuggestion (SuggestionPayload threadId messageId).

Definition rejectSuggestion (threadId messageId : jsstring)
    : t R -> t R * Result unit :=
  sidecarFirst (LocalBackend.rejectSuggestion threadId messageId)
    (str "rejectSuggestion") RejectSuggestion (SuggestionPayload threadId messageId).

(** *** Push event handlers *)

(** [void this.storage.saveImmediate(...)]: a failure is not observed. *)
Definition saveUnobserved (c : LocalBackend.t) : LocalBackend.t :=
  match LocalBackend.activeFile c with
  | Some file =>
    match LocalBackend.persist file c with
    | (c', _) => c'
    end
  | None => c
  end.

Definition addIncoming (thread : CommentThread) (c : LocalBackend.t) : LocalBackend.t :=
  LocalBackend.rebuildIndex (LocalBackend.pushThread thread c).

Definition handleIncomingThread (thread : CommentThread) (s : t R) : t R :=
  if existsb (fun t => bool_decide (id t = id thread)) (getThreads s) then s
  else
    match LocalBackend.activeFile (core s) with
    | Some file =>
      (* void this.reanchorAndAddThread(thread), up to its first await *)
      set_suspended
        (suspended s ++ [(thread, vaultRead (LocalBackend.vault (core s)) file)]) s
    | None =>
      let c := addIncoming thread (core s) in
      set_core (LocalBackend.notify (LocalBackend.onNewThreadCallback c)
                  (NewThreadNotification thread) c) s
    end.

(** The rest of [reanchorAndAddThread], run when the read has completed. *)
Definition reanchorAndAddThread_resume (s : t R) : t R :=
  match suspended s with
  | [] => s
  | (thread, content) :: rest =>
    let thread' :=
      match resolveAnchor (anchor thread) content with
      | Some resolved =>
        setAnchor (setOffsets (r_startOffset resolved) (r_endOffset resolved)
                     (anchor thread)) thread
      | None => thread
      end in
    let c := saveUnobserved (addIncoming thread' (core s)) in
    set_suspended rest
      (set_core (LocalBackend.notify (LocalBackend.onNewThreadCallback c)
                   (NewThreadNotification thread') c) s)
  end.

Definition handleIncomingMessage (threadId : jsstring) (message : ThreadMessage)
    (s : t R) : t R :=
  match LocalBackend.findThread (core s) threadId with
  | None => s
  | Some (l, thread) =>
    if existsb (fun m => bool_decide (msg_id m = msg_id message)) (messages thread)
    then s
    else
      let c1 := LocalBackend.updateThread l
                  (fun t => setMessages (messages t ++ [message]) t) (core s) in
      let c2 := saveUnobserved (LocalBackend.touch l c1) in
      set_core (LocalBackend.notify (LocalBackend.onNewMessageCallback c2)
                  (NewMessageNotification threadId message) c2) s
  end.


(** *** Outbox *)

(** The [switch] of [forwardToBackend]. *)
Definition methodOf (type : jsstring) : option RemoteMethod :=
  if decide (type = str "createThread") then Some CreateThread
  else if decide (type = str "addMessage") then Some AddMessage
  else if decide (type = str "resolveThread") then Some ResolveThread
  else if decide (type = str "reopenThread") then Some ReopenThread
  else if decide (type = str "acceptSuggestion") then Some AcceptSuggestion
  else if decide (type = str "rejectSuggestion") then Some RejectSuggestion
  else None.

Definition forwardToBackend (entry : OutboxEntry) (s : t R) : t R * bool :=
  match methodOf (entry_type entry) with
  | Some m => callWrapped m (payload entry) s
  | None => (s, true)            (* default: a warning, nothing is thrown *)
  end.

(** [entry.retryCount++]. *)
Definition bumpRetry (entry : OutboxEntry) : OutboxEntry :=
  mkOutboxEntry (entry_type entry) (payload entry) (entry_timestamp entry)
    (retryCount entry + 1).

(** The [while] loop of [drainOutbox]; [queue] is [this.outbox], which every
    iteration that goes on shortens by its head. *)
Fixpoint drainLoop (queue : list OutboxEntry) (s : t R) : t R :=
  match queue with
  | [] => s
  | entry :: rest =>
    if isConnected s then
      let '(s1, ok) := forwardToBackend entry s in
      if ok then drainLoop rest (set_outbox rest s1)
      else if bool_decide (retryCount (bumpRetry entry) >= MAX_RETRY_COUNT)
      then drainLoop rest (set_outbox rest s1)
      else set_outbox (bumpRetry entry :: rest) s1
    else s
  end.

Definition drainOutbox (s : t R) : t R :=
  if draining s || (length (outbox s) =? 0)%nat then s
  else
    let s1 := set_draining true s in
    set_draining false (drainLoop (outbox s1) s1).

(** [connect()]: drains the outbox when the wrapped backend connects. *)
Definition connectBackend (s : t R) : t R :=
  let '(w, ok) := connect (wrapped s) in
  if ok then drainOutbox (set_wrapped w s) else set_wrapped w s.

End Methods.

End OfflineAwareBackend.

(** ** Test doubles

    [MockBackend] is the mock backend of tests/backend/offline.test.ts: a
    settable status, [failNextCall] and [alwaysFail]; its [reopenThread],
    [acceptSuggestion] and [rejectSuggestion] are stubs that never fail.
    [sampleHost] is a small host: a parser that knows two documents, a
    serialiser that lists the thread ids, and counters for ids and times. *)

Record MockBackend := mkMock {
  mock_status : BackendConnectionStatus;
  failNextCall : bool;
  alwaysFail : bool
}.

Definition mockCall (m : RemoteMethod) (p : Payload) (w : MockBackend)
    : MockBackend * bool :=
  match m with
  | CreateThread | AddMessage | ResolveThread =>
    if failNextCall w || alwaysFail w
    then (mkMock (mock_status w) false (alwaysFail w), false)
    else (w, true)
  | _ => (w, true)
  end.

Definition mockBackend : AgentCommentsBackend MockBackend :=
  {| connectionStatus := mock_status;
     call := mockCall;
     connect := fun w => (w, true) |}.

Definition sampleHost : Host :=
  {| JSON_parse := fun s =>
       if decide (s = str "[]") then Some (JArray [])
       else if decide (s = str "{}") then Some (JObject [])
       else None;
     JSON_stringify := fun sf =>
       sf_documentId sf ++ concat ((fun t => str ";" ++ id t) <$> sf_threads sf);
     asThread := fun _ =>
       mkCommentThread [] [] (mkTextAnchor [] 0 0 None) Open [] [] [];
     generateId := fun n => str "id-" ++ [N.of_nat (48 + n)];
     nowISO := fun n => str "T" ++ [N.of_nat (48 + n)] |}.

Definition emptyBackend : LocalBackend.t :=
  LocalBackend.mk ∅ [] None [] emptyIndex false false false [] 0 0.

Definition testFile : TFile := mkTFile (str "test.md") (str "md").

Definition textFile : TFile := mkTFile (str "notes.txt") (str "txt").

(** A document in which [foo] occurs on both sides of the anchored [bar],
    and a thread on [bar] whose first message suggests replacing [foo]. *)
Definition sampleDocument : jsstring := str "foo bar foo".

Definition sampleSuggestion (st : SuggestionStatus) : Suggestion :=
  mkSuggestion (str "foo") (str "quux") st.

Definition sampleMessage (st : SuggestionStatus) : ThreadMessage :=
  mkThreadMessage (str "m1") (str "ResearchAgent") Agent (str "Reword this")
    (str "2026-02-27T10:00:00Z") (Some (sampleSuggestion st)) None.

Definition sampleThread (st : SuggestionStatus) : CommentThread :=
  mkCommentThread (str "t1") (str "test.md") (mkTextAnchor (str "bar") 4 7 None)
    Open [sampleMessage st] (str "2026-02-27T10:00:00Z") (str "2026-02-27T10:00:00Z").

(** A backend with [test.md] active, holding [sampleThread], with all three
    callbacks registered. *)
Definition sampleBackend (st : SuggestionStatus) : LocalBackend.t :=
  LocalBackend.mk {[ str "test.md" := FileEntry sampleDocument ]}
    [sampleThread st] (Some testFile) [0%nat] (build [sampleThread st] [0%nat])
    true true true [] 1 1.

Definition sampleOffline (w : MockBackend) (b : LocalBackend.t)
    (queue : list OutboxEntry) : OfflineAwareBackend.t MockBackend :=
  OfflineAwareBackend.mk MockBackend w b queue false [] [].

Definition sampleAnchor : TextAnchor := mkTextAnchor (str "foo") 0 3 None.

(** A thread pushed by an agent. *)
Definition agentThread : CommentThread :=
  mkCommentThread (str "agent-thread-1") (str "test.md")
    (mkTextAnchor (str "foo") 8 11 None) Open [] (str "2026-02-27T10:00:00Z")
    (str "2026-02-27T10:00:00Z").

(** Two queued operations: a [createThread] that has failed twice and an
    [addMessage]. *)
Definition queuedCreate : OutboxEntry :=
  mkOutboxEntry (str "createThread") (CreateThreadPayload sampleAnchor None)
    (str "T0") 2.

Definition queuedMessage : OutboxEntry :=
  mkOutboxEntry (str "addMessage")
    (AddMessagePayload (str "t1") (sampleMessage Pending)) (str "T1") 0.

(** ** Specification vocabulary for the resolver *)

(** [r] is the outcome of searching [needle] among the offsets below [bound]
    with preference [p]: no offset at all when there is no occurrence,
    otherwise the occurrence closest to [p], and the leftmost of the closest
    ones. *)
Definition leftmostClosest (hay needle : jsstring) (p : Z) (bound : nat)
    (r : option nat) : Prop :=
  match r with
  | None => forall k, (k < bound)%nat -> ~ occursAt hay needle k
  | Some b =>
    (b < bound)%nat /\ occursAt hay needle b /\
    forall k, (k < bound)%nat -> occursAt hay needle k ->
      Z.abs (Z.of_nat b - p) < Z.abs (Z.of_nat k - p) \/
      (Z.abs (Z.of_nat b - p) = Z.abs (Z.of_nat k - p) /\ (b <= k)%nat)
  end.

(** [needle] is a substring of [hay]. *)
Definition isSubstring (needle hay : jsstring) : Prop :=
  exists k, occursAt hay needle k.

(** ** Specification vocabulary for the anchor index *)

(** The thread map of a built index has one entry per thread id, and the
    entry of an id refers to a thread object that carries this id. *)
Definition indexInv (heap : Store) (m : list (jsstring * loc)) : Prop :=
  NoDup m.*1 /\
  forall k l, (k, l) ∈ m -> exists thread, heap !! l = Some thread /\ id thread = k.

(** Thread objects that differ in their anchors at most. *)
Definition sameButAnchor_holds (heap heap' : Store) : Prop :=
  forall l : loc,
    match heap !! l, heap' !! l with
    | Some t, Some t' => exists a, t' = setAnchor a t
    | None, None => True
    | _, _ => False
    end.

(** ** Specification vocabulary for the outbox *)

(** Every queued entry has one of the six types [enqueue] is called with. *)
Definition knownTypes (queue : list OutboxEntry) : bool :=
  forallb (fun e => match OfflineAwareBackend.methodOf (entry_type e) with
                    | Some _ => true
                    | None => false
                    end) queue.

(** One drain cycle, entry by entry from the head of the queue.
    [Drained w queue log w' queue'] : starting with the adapter in state [w]
    and the outbox [queue], the cycle issues the calls [log], in that order,
    and leaves the adapter in [w'] and the outbox [queue'].
    - nothing is sent when the queue is empty or the adapter not connected;
    - an entry whose call succeeds is removed and the cycle goes on;
    - an entry whose call fails has its [retryCount] incremented; below
      [MAX_RETRY_COUNT] it stays at the head and the cycle stops; at
      [MAX_RETRY_COUNT] it is discarded and the cycle goes on. *)
Inductive Drained {R} `{AgentCommentsBackend R}
  : R -> list OutboxEntry -> list (RemoteMethod * Payload * bool) ->
    R -> list OutboxEntry -> Prop :=
| drained_empty w :
    Drained w [] [] w []
| drained_not_connected w queue :
    connectionStatus w <> Connected ->
    Drained w queue [] w queue
| drained_success w entry rest m w1 log w' queue' :
    connectionStatus w = Connected ->
    OfflineAwareBackend.methodOf (entry_type entry) = Some m ->
    call m (payload entry) w = (w1, true) ->
    Drained w1 rest log w' queue' ->
    Drained w (entry :: rest) ((m, payload entry, true) :: log) w' queue'
| drained_retry_later w entry rest m w1 :
    connectionStatus w = Connected ->
    OfflineAwareBackend.methodOf (entry_type entry) = Some m ->
    call m (payload entry) w = (w1, false) ->
    retryCount entry + 1 < MAX_RETRY_COUNT ->
    Drained w (entry :: rest) [(m, payload entry, false)] w1
      (OfflineAwareBackend.bumpRetry entry :: rest)
| drained_discard w entry rest m w1 log w' queue' :
    connectionStatus w = Connected ->
    OfflineAwareBackend.methodOf (entry_type entry) = Some m ->
    call m (payload entry) w = (w1, false) ->
    retryCount entry + 1 >= MAX_RETRY_COUNT ->
    Drained w1 rest log w' queue' ->
    Drained w (entry :: rest) ((m, payload entry, false) :: log) w' queue'.

(** The call an outbox entry stands for. *)
Definition requestOf (entry : OutboxEntry) : option (RemoteMethod * Payload) :=
  match OfflineAwareBackend.methodOf (entry_type entry) with
  | Some m => Some (m, payload entry)
  | None => None
  end.

(** ** Re-anchoring a thread list ([updateAnchors] of src/storage/anchor.ts) *)

(** The body of the loop of [updateAnchors] for the thread object at [l]:
    a resolved anchor has its two offsets overwritten in place and the
    thread is pushed on [updated]; otherwise the thread is pushed on
    [orphaned] and left as it is. *)
Definition updateAnchors_step (newContent : jsstring)
    (acc : Store * list loc * list loc) (l : loc) : Store * list loc * list loc :=
  let '(heap, updated, orphaned) := acc in
  match heap !! l with
  | Some thread =>
    match resolveAnchor (anchor thread) newContent with
    | Some resolved =>
      (<[l := setAnchor (setOffsets (r_startOffset resolved) (r_endOffset resolved)
                           (anchor thread)) thread]> heap,
       updated ++ [l], orphaned)
    | None => (heap, updated, orphaned ++ [l])
    end
  | None => acc
  end.

(** [updateAnchors(threads, _oldContent, newContent)]: the store it leaves,
    and the arrays [updated] and [orphaned]. *)
Definition updateAnchors (heap : Store) (threads : list loc)
    (_oldContent newContent : jsstring) : Store * list loc * list loc :=
  fold_left (updateAnchors_step newContent) threads (heap, [], []).

(** ** Section headings ([extractSectionHeading] of src/storage/anchor.ts) *)

(** The code units of [s] up to its first LineTerminator: what [.+] can
    match from the start of [s]. *)
Fixpoint takeLine (s : jsstring) : jsstring :=
  match s with
  | c :: s' => if isLineTerminator c then [] else c :: takeLine s'
  | [] => []
  end.

(** [/^(#{1,6} .+)$/m] tried at a line start [s]: one to six [#], a space and
    at least one more character up to the end of the line; group 1 is the
    whole line. *)
Definition headingLineAt (s : jsstring) : option jsstring :=
  let line := takeLine s in
  if matchesHeadingAt 6 line && (countHashes line + 1 <? length line)%nat
  then Some line
  else None.

(** The loop [while ((match = headingRegex.exec(contentBefore)) !== null)]:
    [s] is the content not yet searched, [lineStart] tells whether it begins
    a line (where [^] matches), [lastMatch] is the variable of that name.
    A match ends at the end of its line, so the search that follows it
    meets no line start inside the matched text. *)
Fixpoint lastHeadingLine (s : jsstring) (lineStart : bool)
    (lastMatch : option jsstring) : option jsstring :=
  match s with
  | [] => lastMatch
  | c :: s' =>
    lastHeadingLine s' (isLineTerminator c)
      (if lineStart
       then match headingLineAt s with
            | Some heading => Some heading
            | None => lastMatch
            end
       else lastMatch)
  end.

Definition extractSectionHeading (documentContent : jsstring) (offset : Z)
    : option jsstring :=
  let contentBefore := slice documentContent 0 offset in
  lastHeadingLine contentBefore true None.

(** ** Range queries (method [query] of [AnchorIndex])

    [search] stands for [IntervalTree.search] of @flatten-js/interval-tree:
    the values stored under the intervals that intersect the interval
    searched, the ends of both included.  The library lists them in the
    order of its tree; they are listed here in the order of insertion, and
    the properties of [query] speak of membership only. *)

(** [Interval.intersect]: not ([high < other.low] or [other.high < low]). *)
Definition intersects (low high otherLow otherHigh : Z) : bool :=
  negb ((high <? otherLow) || (otherHigh <? low)).

Definition search (items : list (Z * Z * jsstring)) (low high : Z) : list jsstring :=
  (fun item => item.2) <$>
    filter (fun item => intersects item.1.1 item.1.2 low high = true) items.

(** [Map.prototype.get]. *)
Fixpoint mapGet {V} (m : list (jsstring * V)) (k : jsstring) : option V :=
  match m with
  | [] => None
  | (k', v) :: m' => if decide (k' = k) then Some v else mapGet m' k
  end.

(** [query(offset)]: the thread objects of the ids found. *)
Definition query (idx : AnchorIndex) (offset : Z) : list loc :=
  omap (mapGet (threadMap idx)) (search (tree idx) offset offset).

(** ** Specification vocabulary for section headings *)

(** The lines of a string: the pieces between its LineTerminators. *)
Fixpoint splitLines (s : jsstring) : list jsstring :=
  match s with
  | [] => [[]]
  | c :: s' =>
    if isLineTerminator c then [] :: splitLines s'
    else match splitLines s' with
         | line :: rest => (c :: line) :: rest
         | [] => [[c]]
         end
  end.

(** A markdown heading line with a title: one to six [#], a space, and at
    least one more character. *)
Definition isHeadingLine (line : jsstring) : bool :=
  matchesHeadingAt 6 line && (countHashes line + 1 <? length line)%nat.

(** The thread object at [l] after [updateAnchors]: its anchor re-resolved
    against [content], or the object as it was when no layer resolves it. *)
Definition reanchored (content : jsstring) (thread : CommentThread) : CommentThread :=
  match resolveAnchor (anchor thread) content with
  | Some resolved =>
    setAnchor (setOffsets (r_startOffset resolved) (r_endOffset resolved)
                 (anchor thread)) thread
  | None => thread
  end.

(** The thread object at [l] is one that a layer of [resolveAnchor] locates
    in [content]; or one that none does. *)
Definition resolvesIn (content : jsstring) (heap : Store) (l : loc) : bool :=
  match heap !! l with
  | Some thread =>
    match resolveAnchor (anchor thread) content with
    | Some _ => true
    | None => false
    end
  | None => false
  end.

Definition orphanedIn (content : jsstring) (heap : Store) (l : loc) : bool :=
  match heap !! l with
  | Some thread =>
    match resolveAnchor (anchor thread) content with
    | Some _ => false
    | None => true
    end
  | None => false
  end.

(** ** Specification vocabulary for range queries *)

(** No two thread objects of the list carry the same id. *)
Definition distinctIds (heap : Store) (threads : list loc) : Prop :=
  forall (l l' : loc) t t',
    l ∈ threads -> l' ∈ threads ->
    heap !! l = Some t -> heap !! l' = Some t' -> id t = id t' -> l = l'.

(** ** The timers of the sidecar storage (class [SidecarStorage])

    [save] writes after a delay of [SAVE_DEBOUNCE_MS]: it sets a timer whose
    callback writes the file and resolves the promise [save] returned.
    [saveTimers] is the map of the class, from sidecar paths to timers; an
    entry is a timer that has been set and neither fired nor cleared.  The
    callback holds the thread array it was given, not a copy: the array is
    read when the timer fires. *)

(** A thread array handed to [save]. *)
Definition arrayRef := nat.

Module SidecarStorage.

(** What the callback of a timer holds: [documentFile.path], the thread
    array, and the promise to resolve. *)
Record PendingSave := mkPendingSave {
  documentPath : jsstring;
  threadsRef : arrayRef;
  promise : nat
}.

(** [promises] counts the promises [save] has returned; [resolved] lists
    those that have been resolved. *)
Record t := mk {
  vault : Vault;
  saveTimers : gmap jsstring PendingSave;
  promises : nat;
  resolved : list nat
}.

Section Methods.
Context `{Host}.

(** [save(documentFile, threads)]: clears the timer pending for the path, if
    any, and sets a new one; returns the new promise. *)
Definition save (documentFile : TFile) (threads : arrayRef) (st : t) : t * Result nat :=
  match getPath documentFile with
  | Throw e => (st, Throw e)
  | Ok sidecarPath =>
    (mk (vault st)
        (<[sidecarPath := mkPendingSave (path documentFile) threads (promises st)]>
           (saveTimers st))
        (S (promises st)) (resolved st),
     Ok (promises st))
  end.

(** The timer set for [sidecarPath] fires: its callback removes the entry,
    writes the file and resolves the promise.  [arrays] gives the contents
    of the thread arrays at that time.  A timer that was cleared does not
    fire. *)
Definition timerFires (arrays : arrayRef -> list CommentThread) (sidecarPath : jsstring)
    (st : t) : t :=
  match saveTimers st !! sidecarPath with
  | Some pending =>
    mk (writeFile (vault st) sidecarPath (documentPath pending)
          (arrays (threadsRef pending)))
       (base.delete sidecarPath (saveTimers st))
       (promises st) (resolved st ++ [promise pending])
  | None => st
  end.

(** [saveImmediate(documentFile, threads)]: clears the pending timer and
    writes at once. *)
Definition saveImmediate (documentFile : TFile) (threads : list CommentThread) (st : t)
    : t * Result unit :=
  match getPath documentFile with
  | Throw e => (st, Throw e)
  | Ok sidecarPath =>
    (mk (writeFile (vault st) sidecarPath (path documentFile) threads)
        (base.delete sidecarPath (saveTimers st))
        (promises st) (resolved st),
     Ok tt)
  end.

(** [exists(documentFile)]. *)
Definition exists_ (documentFile : TFile) (st : t) : Result bool :=
  match getPath documentFile with
  | Throw e => Throw e
  | Ok sidecarPath => Ok (bool_decide (is_Some (vault st !! sidecarPath)))
  end.

(** [delete(documentFile)]: only a file is deleted. *)
Definition delete_ (documentFile : TFile) (st : t) : t * Result unit :=
  match getPath documentFile with
  | Throw e => (st, Throw e)
  | Ok sidecarPath =>
    match vault st !! sidecarPath with
    | Some (FileEntry _) =>
      (mk (base.delete sidecarPath (vault st)) (saveTimers st) (promises st) (resolved st),
       Ok tt)
    | _ => (st, Ok tt)
    end
  end.

(** [destroy()]: clears every timer. *)
Definition destroy (st : t) : t :=
  mk (vault st) ∅ (promises st) (resolved st).

End Methods.

End SidecarStorage.

(** ** The JSON form of a sidecar file

    The value [JSON.parse] gives back for the text [JSON.stringify] makes of
    a sidecar file built from typed values: one property per field of the
    interfaces of src/models/thread.ts, a field that is [undefined] left
    out. *)

Definition threadStatusToJSON (st : ThreadStatus) : JSON :=
  JString (match st with Open => str "open" | Resolved => str "resolved" end).

Definition suggestionStatusToJSON (st : SuggestionStatus) : JSON :=
  JString (match st with
           | Pending => str "pending"
           | Accepted => str "accepted"
           | Rejected => str "rejected"
           end).

Definition authorTypeToJSON (a : AuthorType) : JSON :=
  JString (match a with Human => str "human" | Agent => str "agent" end).

Definition suggestionToJSON (sg : Suggestion) : JSON :=
  JObject [(str "originalText", JString (originalText sg));
           (str "replacementText", JString (replacementText sg));
           (str "status", suggestionStatusToJSON (sg_status sg))].

Definition messageToJSON (m : ThreadMessage) : JSON :=
  JObject ([(str "id", JString (msg_id m));
            (str "author", JString (author m));
            (str "authorType", authorTypeToJSON (authorType m));
            (str "content", JString (content m));
            (str "timestamp", JString (timestamp m))]
           ++ match suggestion m with
              | Some sg => [(str "suggestion", suggestionToJSON sg)]
              | None => []
              end
           ++ match knowledgeRefs m with
              | Some refs => [(str "knowledgeRefs", JArray (JString <$> refs))]
              | None => []
              end).

Definition anchorToJSON (a : TextAnchor) : JSON :=
  JObject ([(str "anchorText", JString (anchorText a));
            (str "startOffset", JNumber (startOffset a));
            (str "endOffset", JNumber (endOffset a))]
           ++ match sectionHeading a with
              | Some heading => [(str "sectionHeading", JString heading)]
              | None => []
              end).

Definition threadToJSON (t : CommentThread) : JSON :=
  JObject [(str "id", JString (id t));
           (str "documentId", JString (documentId t));
           (str "anchor", anchorToJSON (anchor t));
           (str "status", threadStatusToJSON (status t));
           (str "messages", JArray (messageToJSON <$> messages t));
           (str "createdAt", JString (createdAt t));
           (str "updatedAt", JString (updatedAt t))].

Definition sidecarToJSON (sf : SidecarFile) : JSON :=
  JObject [(str "version", JNumber (version sf));
           (str "documentId", JString (sf_documentId sf));
           (str "threads", JArray (threadToJSON <$> sf_threads sf))].

(** Every id of the file is a non-empty string: the threads' and their
    messages'. *)
Definition idsNonEmpty (threads : list CommentThread) : bool :=
  forallb (fun t => negb (bool_decide (id t = [])) &&
                    forallb (fun m => negb (bool_decide (msg_id m = []))) (messages t))
    threads.

(** ** Server messages (src/backend/protocol.ts)

    [data] is what [JSON.parse] returned: no property of it is
    [undefined]. *)

Definition VALID_SERVER_TYPES : list jsstring :=
  [str "threadCreated"; str "messageAdded"; str "threadResolved"; str "threadReopened";
   str "suggestionAccepted"; str "suggestionRejected"; str "newThread"; str "newMessage";
   str "suggestion"; str "error"].

Definition validateServerMessage (data : JSON) : bool :=
  if negb (isObject data) then false
  else if negb (isString (getProp data (str "type"))) then false
  else if negb (match getProp data (str "type") with
                | Some (JString type) => bool_decide (type ∈ VALID_SERVER_TYPES)
                | _ => false
                end) then false
  else if hasProp data (str "requestId") && negb (isString (getProp data (str "requestId")))
  then false
  else if negb (hasProp data (str "payload")) then false
  else true.

(** [payload !== null && typeof payload === "object"]. *)
Definition isObjectValue (v : option JSON) : bool :=
  match v with
  | Some x => isObject x
  | None => false
  end.

(** [key in payload] and [payload[key]] for a payload that is an object. *)
Definition payloadProp (payload : option JSON) (key : jsstring) : option JSON :=
  match payload with
  | Some x => getProp x key
  | None => None
  end.

Definition validateServerPayload (msg : JSON) : bool :=
  let payload := getProp msg (str "payload") in
  match getProp msg (str "type") with
  | Some (JString type) =>
    if bool_decide (type ∈ [str "newThread"; str "threadCreated"])
    then isObjectValue payload &&
         match payloadProp payload (str "thread") with Some _ => true | None => false end
    else if bool_decide (type ∈ [str "newMessage"; str "messageAdded"; str "suggestion"])
    then
      if negb (isObjectValue payload) then false
      else isString (payloadProp payload (str "threadId")) &&
           match payloadProp payload (str "message") with Some _ => true | None => false end
    else if bool_decide (type = str "error")
    then
      if negb (isObjectValue payload) then false
      else isString (payloadProp payload (str "message"))
    else if bool_decide (type ∈ [str "threadResolved"; str "threadReopened";
                                 str "suggestionAccepted"; str "suggestionRejected"])
    then isObjectValue payload
    else true
  | _ => true
  end.

(** ** Identifiers (src/utils/ids.ts)

    [fallbackUUID] on the sixteen bytes [crypto.getRandomValues] wrote. *)

Definition ZERO : N := 48.
Definition DASH : N := 45.

(** A digit of [Number.prototype.toString(16)]. *)
Definition hexDigit (d : Z) : N :=
  if d <? 10 then Z.to_N (48 + d) else Z.to_N (87 + d).

(** [b.toString(16)] for a byte. *)
Definition toString16 (b : Z) : jsstring :=
  if b <? 16 then [hexDigit b] else [hexDigit (b / 16); hexDigit (b mod 16)].

(** [s.padStart(2, "0")]. *)
Definition padStart2 (s : jsstring) : jsstring :=
  replicate (2 - length s) ZERO ++ s.

Definition fallbackUUID (random : list Z) : jsstring :=
  let bytes := random in
  (* Set version (4) and variant (10xx) bits per RFC 4122 *)
  let bytes :=
    match bytes !! 6%nat with
    | Some b => <[6%nat := Z.lor (Z.land b 15) 64]> bytes
    | None => bytes
    end in
  let bytes :=
    match bytes !! 8%nat with
    | Some b => <[8%nat := Z.lor (Z.land b 63) 128]> bytes
    | None => bytes
    end in
  let hex := concat ((fun b => padStart2 (toString16 b)) <$> bytes) in
  slice hex 0 8 ++ [DASH] ++ slice hex 8 12 ++ [DASH] ++ slice hex 12 16 ++ [DASH]
    ++ slice hex 16 20 ++ [DASH] ++ slice hex 20 32.

(** ** Specification vocabulary for identifiers *)

(** A lower-case hexadecimal digit. *)
Definition isHexDigit (c : N) : bool :=
  ((48 <=? c) && (c <=? 57) || (97 <=? c) && (c <=? 102))%N.

(** The shape [xxxxxxxx-xxxx-4xxx-yxxx-xxxxxxxxxxxx] of a version 4 UUID:
    [x] a hexadecimal digit, [y] one of 8, 9, a, b. *)
Definition isUUIDv4 (s : jsstring) : bool :=
  (length s =? 36)%nat &&
  forallb (fun '(i, c) =>
             if bool_decide (i ∈ [8; 13; 18; 23]%nat) then (c =? DASH)%N
             else if (i =? 14)%nat then (c =? 52)%N
             else if (i =? 19)%nat
                  then ((c =? 56) || (c =? 57) || (c =? 97) || (c =? 98))%N
                  else isHexDigit c)
    (imap (fun i c => (i, c)) s).

(** ** A host that reads back one sidecar

    [threadOfJSON] views a JSON object as a thread, field by field.
    [sidecarHost sf] serialises as [sampleHost] does, and its parser knows
    one text: the one its serialiser makes of [sf]. *)

Definition stringOfJSON (v : option JSON) : jsstring :=
  match v with Some (JString s) => s | _ => [] end.

Definition numberOfJSON (v : option JSON) : Z :=
  match v with Some (JNumber n) => n | _ => 0 end.

Definition anchorOfJSON (v : option JSON) : TextAnchor :=
  mkTextAnchor (stringOfJSON (payloadProp v (str "anchorText")))
    (numberOfJSON (payloadProp v (str "startOffset")))
    (numberOfJSON (payloadProp v (str "endOffset")))
    (match payloadProp v (str "sectionHeading") with
     | Some (JString heading) => Some heading
     | _ => None
     end).

Definition suggestionOfJSON (v : JSON) : Suggestion :=
  mkSuggestion (stringOfJSON (getProp v (str "originalText")))
    (stringOfJSON (getProp v (str "replacementText")))
    (if decide (stringOfJSON (getProp v (str "status")) = str "accepted") then Accepted
     else if decide (stringOfJSON (getProp v (str "status")) = str "rejected") then Rejected
     else Pending).

Definition messageOfJSON (v : JSON) : ThreadMessage :=
  mkThreadMessage (stringOfJSON (getProp v (str "id")))
    (stringOfJSON (getProp v (str "author")))
    (if decide (stringOfJSON (getProp v (str "authorType")) = str "agent")
     then Agent else Human)
    (stringOfJSON (getProp v (str "content")))
    (stringOfJSON (getProp v (str "timestamp")))
    (suggestionOfJSON <$> getProp v (str "suggestion"))
    (match getProp v (str "knowledgeRefs") with
     | Some (JArray refs) => Some ((fun r => stringOfJSON (Some r)) <$> refs)
     | _ => None
     end).

Definition threadOfJSON (v : JSON) : CommentThread :=
  mkCommentThread (stringOfJSON (getProp v (str "id")))
    (stringOfJSON (getProp v (str "documentId")))
    (anchorOfJSON (getProp v (str "anchor")))
    (if decide (stringOfJSON (getProp v (str "status")) = str "resolved")
     then Resolved else Open)
    (match getProp v (str "messages") with
     | Some (JArray ms) => messageOfJSON <$> ms
     | _ => []
     end)
    (stringOfJSON (getProp v (str "createdAt")))
    (stringOfJSON (getProp v (str "updatedAt"))).

Definition sidecarHost (sf : SidecarFile) : Host :=
  {| JSON_parse := fun s =>
       if decide (s = @JSON_stringify sampleHost sf) then Some (sidecarToJSON sf) else None;
     JSON_stringify := @JSON_stringify sampleHost;
     asThread := threadOfJSON;
     generateId := @generateId sampleHost;
     nowISO := @nowISO sampleHost |}.

(** ** Specification vocabulary for the wrapper *)

(** No queued entry has failed [MAX_RETRY_COUNT] times. *)
Definition retriesBelowCap (queue : list OutboxEntry) : bool :=
  forallb (fun e => (0 <=? retryCount e) && (retryCount e <? MAX_RETRY_COUNT)) queue.

(** What became, on the remote side, of an operation whose local write
    succeeded, between the states [s] and [s'] of the wrapper: either the
    call was issued and succeeded, and the outbox is as it was; or the
    operation is the new last entry of the outbox, with no failure counted,
    after a call that failed or, when the wrapped backend was not
    connected, without a call. *)
Definition forwardedOrQueued {R} `{AgentCommentsBackend R} (type : jsstring)
    (m : RemoteMethod) (p : Payload) (s s' : OfflineAwareBackend.t R) : Prop :=
  (OfflineAwareBackend.isConnected s = true /\
   OfflineAwareBackend.sent s' = OfflineAwareBackend.sent s ++ [(m, p, true)] /\
   OfflineAwareBackend.outbox s' = OfflineAwareBackend.outbox s) \/
  (exists stamp,
     OfflineAwareBackend.outbox s' =
       OfflineAwareBackend.outbox s ++ [mkOutboxEntry type p stamp 0] /\
     ((OfflineAwareBackend.isConnected s = false /\
       OfflineAwareBackend.sent s' = OfflineAwareBackend.sent s) \/
      (OfflineAwareBackend.isConnected s = true /\
       OfflineAwareBackend.sent s' = OfflineAwareBackend.sent s ++ [(m, p, false)]))).

(** What a method left on the remote side: nothing when it threw, and the
    operation forwarded or queued when it returned. *)
Definition remoteOutcome {R A} `{AgentCommentsBackend R} (type : jsstring)
    (m : RemoteMethod) (p : Payload) (s : OfflineAwareBackend.t R)
    (r : OfflineAwareBackend.t R * Result A) : Prop :=
  match r.2 with
  | Throw _ =>
    OfflineAwareBackend.sent r.1 = OfflineAwareBackend.sent s /\
    OfflineAwareBackend.outbox r.1 = OfflineAwareBackend.outbox s /\
    OfflineAwareBackend.wrapped r.1 = OfflineAwareBackend.wrapped s
  | Ok _ => forwardedOrQueued type m p s r.1
  end.

(** ** A document under review

    [reviewBackend] holds [test.md] with two threads: one on [foo bar] at the
    start of the document, whose message suggests replacing [foo] by [quux],
    and [agentThread] on the [foo] at the end. *)

Definition reviewThread : CommentThread :=
  mkCommentThread (str "t1") (str "test.md") (mkTextAnchor (str "foo bar") 0 7 None)
    Open [sampleMessage Pending] (str "2026-02-27T10:00:00Z") (str "2026-02-27T10:00:00Z").

Definition reviewBackend : LocalBackend.t :=
  LocalBackend.mk {[ str "test.md" := FileEntry sampleDocument ]}
    [reviewThread; agentThread] (Some testFile) [0; 1]%nat
    (build [reviewThread; agentThread] [0; 1]%nat)
    true true true [] 2 1.

(* ================================================================== *)
(** * Anchors as the code receives them

    The definitions above take the offsets of an anchor as integers and let
    every thread object own its anchor.  The code takes neither for granted:
    the validators of sidecars and of server messages check that a thread
    has an [anchor] object and nothing of its fields, so that an anchor
    read from a sidecar or pushed by the service may carry any JSON number
    as an offset, or none; and [createThread] stores the anchor object it
    is handed, so that two thread objects may hold the same anchor object.
    Module [JS] models the anchor resolver on anchors whose offsets are any
    numbers, and the anchor index on thread objects that refer to their
    anchor objects. *)
(* ================================================================== *)

(** ** JavaScript numbers

    [Integer z] is the double whose value is the integer [z]: every integer
    up to 2^53 in absolute value is a double, and beyond that the integers
    that [roundToDouble] answers.  [NaN] is also what arithmetic and
    comparisons make of [undefined], the value of a missing field.  Numbers
    with a fractional part and the sign of zero are not modelled. *)

Inductive number :=
| Integer (z : Z)
| NaN
| Infinity
| NegInfinity.

(** The double nearest to an integer, ties going to the even significand;
    integers from 2^1024 - 2^970 on overflow to infinity. *)
Definition roundToDouble (n : Z) : number :=
  if Z.abs n <=? 2 ^ 53 then Integer n
  else
    let ulp := 2 ^ (Z.log2 (Z.abs n) - 52) in
    let q := Z.abs n / ulp in
    let r := Z.abs n mod ulp in
    let q' := if (ulp <? 2 * r) || ((2 * r =? ulp) && Z.odd q) then q + 1 else q in
    if 2 ^ 1024 <=? q' * ulp then (if n <? 0 then NegInfinity else Infinity)
    else Integer (Z.sgn n * (q' * ulp)).

(** [x + y]. *)
Definition num_add (x y : number) : number :=
  match x, y with
  | Integer a, Integer b => roundToDouble (a + b)
  | NaN, _ | _, NaN => NaN
  | Infinity, NegInfinity | NegInfinity, Infinity => NaN
  | Infinity, _ | _, Infinity => Infinity
  | NegInfinity, _ | _, NegInfinity => NegInfinity
  end.

(** [-x]. *)
Definition num_neg (x : number) : number :=
  match x with
  | Integer a => Integer (- a)
  | NaN => NaN
  | Infinity => NegInfinity
  | NegInfinity => Infinity
  end.

(** [x - y]. *)
Definition num_sub (x y : number) : number := num_add x (num_neg y).

(** [Math.abs(x)]. *)
Definition Math_abs (x : number) : number :=
  match x with
  | Integer a => Integer (Z.abs a)
  | NaN => NaN
  | Infinity | NegInfinity => Infinity
  end.

(** [x < y]: false when either is [NaN]. *)
Definition num_lt (x y : number) : bool :=
  match x, y with
  | Integer a, Integer b => a <? b
  | Integer _, Infinity => true
  | NegInfinity, Integer _ => true
  | NegInfinity, Infinity => true
  | _, _ => false
  end.

(** [x === y]. *)
Definition num_eq (x y : number) : bool :=
  match x, y with
  | Integer a, Integer b => a =? b
  | Infinity, Infinity => true
  | NegInfinity, NegInfinity => true
  | _, _ => false
  end.

(** [x <= y], [x > y] and [x >= y]. *)
Definition num_le (x y : number) : bool := num_lt x y || num_eq x y.
Definition num_gt (x y : number) : bool := num_lt y x.
Definition num_ge (x y : number) : bool := num_le y x.

(** [Math.max(x, y)]. *)
Definition Math_max (x y : number) : number :=
  match x, y with
  | NaN, _ | _, NaN => NaN
  | _, _ => if num_lt x y then y else x
  end.

(** The position [slice] makes of an index: [ToIntegerOrInfinity] turns
    [NaN] into 0, then a negative index counts from the end and the result
    is clamped to [0 .. len]. *)
Definition sliceIndex (len : nat) (i : number) : nat :=
  match i with
  | Integer z => relIndex len z
  | Infinity => len
  | NaN | NegInfinity => 0%nat
  end.

(** [s.slice(start, end)] on numbers. *)
Definition sliceNumber (s : jsstring) (start end_ : number) : jsstring :=
  let from := sliceIndex (length s) start in
  let to := sliceIndex (length s) end_ in
  take (to - from) (drop from s).

(** The integers on which the arithmetic of doubles is the arithmetic of
    integers. *)
Definition exactInteger (z : Z) : Prop := Z.abs z <= 2 ^ 53.

(** The location of an anchor object. *)
Definition aloc := nat.

Module JS.

(** ** The thread model, by reference *)

Record TextAnchor := mkTextAnchor {
  anchorText : jsstring;
  startOffset : number;
  endOffset : number;
  sectionHeading : option jsstring
}.

(** A thread object; [anchor] is a reference to an anchor object. *)
Record CommentThread := mkCommentThread {
  id : jsstring;
  documentId : jsstring;
  anchor : aloc;
  status : ThreadStatus;
  messages : list ThreadMessage;
  createdAt : jsstring;
  updatedAt : jsstring
}.

(** The thread objects and the anchor objects allocated so far. *)
Record Heap := mkHeap {
  threadObjects : list CommentThread;
  anchorObjects : list TextAnchor
}.

Definition setOffsets (s e : number) (a : TextAnchor) : TextAnchor :=
  mkTextAnchor (anchorText a) s e (sectionHeading a).

(** ** Anchor resolution (src/storage/anchor.ts) *)

Record ResolvedAnchor := mkResolved {
  r_startOffset : number;
  r_endOffset : number;
  method : ResolveMethod
}.

(** The [while] loop of [findClosestMatch]; [bestDistance] starts at
    [Infinity].  [fuel] bounds the number of iterations. *)
Fixpoint findClosestMatch_loop (fuel : nat) (needle haystack : jsstring)
    (preferredOffset : number) (searchFrom : nat)
    (bestOffset : option nat) (bestDistance : number) : option nat :=
  match fuel with
  | O => bestOffset
  | S fuel' =>
    if Z.of_nat searchFrom <=? Z.of_nat (length haystack) - Z.of_nat (length needle)
    then
      match indexOf haystack needle searchFrom with
      | None => bestOffset
      | Some idx =>
        let distance := Math_abs (num_sub (Integer (Z.of_nat idx)) preferredOffset) in
        if num_lt distance bestDistance
        then findClosestMatch_loop fuel' needle haystack preferredOffset
               (idx + 1) (Some idx) distance
        else findClosestMatch_loop fuel' needle haystack preferredOffset
               (idx + 1) bestOffset bestDistance
      end
    else bestOffset
  end.

Definition findClosestMatch (needle haystack : jsstring) (preferredOffset : number)
    : option nat :=
  if (length needle =? 0)%nat then None
  else findClosestMatch_loop (S (length haystack)) needle haystack
         preferredOffset 0 None Infinity.

(** The test of layer 1 of [resolveAnchor]. *)
Definition exactMatch (anchor : TextAnchor) (documentContent : jsstring) : bool :=
  num_ge (startOffset anchor) (Integer 0) &&
  num_le (endOffset anchor) (Integer (Z.of_nat (length documentContent))) &&
  num_lt (startOffset anchor) (endOffset anchor) &&
  bool_decide (sliceNumber documentContent (startOffset anchor) (endOffset anchor)
               = anchorText anchor).

Definition resolveAnchor (anchor : TextAnchor) (documentContent : jsstring)
    : option ResolvedAnchor :=
  if (length documentContent =? 0)%nat then None
  else if exactMatch anchor documentContent
  then Some (mkResolved (startOffset anchor) (endOffset anchor) Exact)
  else
    match findClosestMatch (anchorText anchor) documentContent (startOffset anchor) with
    | Some textResult =>
      Some (mkResolved (Integer (Z.of_nat textResult))
              (num_add (Integer (Z.of_nat textResult))
                 (Integer (Z.of_nat (length (anchorText anchor)))))
              TextSearch)
    | None =>
      match truthyHeading (sectionHeading anchor) with
      | Some heading =>
        match resolveViaHeading (anchorText anchor) documentContent heading with
        | Some headingResult =>
          Some (mkResolved (Integer (Z.of_nat headingResult))
                  (num_add (Integer (Z.of_nat headingResult))
                     (Integer (Z.of_nat (length (anchorText anchor)))))
                  HeadingFallback)
        | None => None
        end
      | None => None
      end
    end.

(** ** The anchor index (class [AnchorIndex] of src/storage/anchor.ts) *)

(** [tree] lists the intervals inserted in the interval tree, each with the
    thread id stored as its value; [threadMap] is the [Map] from thread id to
    thread object. *)
Record AnchorIndex := mkAnchorIndex {
  tree : list (number * number * jsstring);
  threadMap : list (jsstring * loc)
}.

Definition emptyIndex : AnchorIndex := mkAnchorIndex [] [].

(** One iteration of the loop of [build]. *)
Definition build_step (heap : Heap) (idx : AnchorIndex) (l : loc) : AnchorIndex :=
  match threadObjects heap !! l with
  | Some thread =>
    match anchorObjects heap !! anchor thread with
    | Some a =>
      mkAnchorIndex
        (if num_lt (startOffset a) (endOffset a)
         then tree idx ++ [(startOffset a, endOffset a, id thread)]
         else tree idx)
        (mapSet (threadMap idx) (id thread) l)
    | None => idx
    end
  | None => idx
  end.

Definition build (heap : Heap) (threads : list loc) : AnchorIndex :=
  fold_left (build_step heap) threads emptyIndex.

(** [Array.from(this.threadMap.values())]. *)
Definition indexed (idx : AnchorIndex) : list loc := (threadMap idx).*2.

(** The body of the loop of [applyOffsetShift] on one anchor object. *)
Definition shiftAnchor (changeFrom changeTo delta : number) (a : TextAnchor)
    : TextAnchor :=
  if num_ge (startOffset a) changeTo
  then setOffsets (num_add (startOffset a) delta) (num_add (endOffset a) delta) a
  else if num_ge (startOffset a) changeFrom && num_le (endOffset a) changeTo
  then a
  else if num_gt (endOffset a) changeFrom
  then setOffsets (startOffset a)
         (Math_max (startOffset a) (num_add (endOffset a) delta)) a
  else a.

(** One iteration of that loop: the anchor object of the thread at [l] is
    updated in place. *)
Definition shiftThread (changeFrom changeTo delta : number) (heap : Heap) (l : loc)
    : Heap :=
  match threadObjects heap !! l with
  | Some thread =>
    match anchorObjects heap !! anchor thread with
    | Some a =>
      mkHeap (threadObjects heap)
        (<[anchor thread := shiftAnchor changeFrom changeTo delta a]>
           (anchorObjects heap))
    | None => heap
    end
  | None => heap
  end.

Definition applyOffsetShift (heap : Heap) (idx : AnchorIndex)
    (changeFrom changeTo insertLength : number) : Heap * AnchorIndex :=
  let delta := num_sub insertLength (num_sub changeTo changeFrom) in
  if num_eq delta (Integer 0) then (heap, idx)
  else
    let threads := indexed idx in
    let heap' := fold_left (shiftThread changeFrom changeTo delta) threads heap in
    (heap', build heap' threads).

End JS.

(** ** Integer anchors among the others *)

(** The anchor with integer offsets as the code holds it. *)
Definition anchorOfIntegers (a : TextAnchor) : JS.TextAnchor :=
  JS.mkTextAnchor (anchorText a) (Integer (startOffset a)) (Integer (endOffset a))
    (sectionHeading a).

Definition resolvedOfIntegers (r : ResolvedAnchor) : JS.ResolvedAnchor :=
  JS.mkResolved (Integer (r_startOffset r)) (Integer (r_endOffset r)) (method r).

(** An anchor whose recorded [startOffset] is the integer [s], with integer
    offsets: an [endOffset] that is no integer fails the exact layer, as does
    an [endOffset] equal to [startOffset]. *)
Definition integerView (s : Z) (a : JS.TextAnchor) : TextAnchor :=
  mkTextAnchor (JS.anchorText a) s
    (match JS.endOffset a with Integer e => e | _ => s end)
    (JS.sectionHeading a).

(** ** Specification vocabulary for anchors by reference *)

(** [bestDistance] of the loop of [findClosestMatch] when no candidate or
    the candidate at distance [d] has been kept. *)
Definition bestDistanceOf (bestDistance : option Z) : number :=
  match bestDistance with
  | Some d => Integer d
  | None => Infinity
  end.

(** The thread map of a built index has one entry per thread id, and the
    entry of an id refers to a thread object that carries this id. *)
Definition heapIndexInv (heap : JS.Heap) (m : list (jsstring * loc)) : Prop :=
  NoDup m.*1 /\
  forall k l, (k, l) ∈ m ->
    exists thread, JS.threadObjects heap !! l = Some thread /\ JS.id thread = k.

(** ** Test anchors: an offset that overflowed, and an anchor object held
    by two threads *)

(** [{"anchorText": "ab", "startOffset": 1e999, "endOffset": 2}] as
    [JSON.parse] reads it. *)
Definition overflownAnchor : JS.TextAnchor :=
  JS.mkTextAnchor (str "ab") Infinity (Integer 2) None.

Definition targetAnchor : JS.TextAnchor :=
  JS.mkTextAnchor (str "target") (Integer 20) (Integer 26) None.

Definition threadOn (threadId : string) (a : aloc) : JS.CommentThread :=
  JS.mkCommentThread (str threadId) (str "test.md") a Open [] [] [].

(** Two threads created on the same anchor object. *)
Definition sharedHeap : JS.Heap :=
  JS.mkHeap [threadOn "t1" 0%nat; threadOn "t2" 0%nat] [targetAnchor].

(** Two threads, each with an anchor object of its own. *)
Definition ownHeap : JS.Heap :=
  JS.mkHeap [threadOn "t1" 0%nat; threadOn "t2" 1%nat] [targetAnchor; targetAnchor].

(** Two thread objects with one id, as two deliveries of one pushed thread
    leave them. *)
Definition twinHeap : JS.Heap :=
  JS.mkHeap [threadOn "t1" 0%nat; threadOn "t1" 1%nat] [targetAnchor; targetAnchor].

(** ** Tactics *)

(** Reduction of the field updates of the backend records. *)
Ltac unfold_updates :=
  cbn [LocalBackend.pushThread LocalBackend.rebuildIndex LocalBackend.notify
       LocalBackend.set_vault LocalBackend.set_store LocalBackend.set_activeFile
       LocalBackend.set_threads LocalBackend.set_anchorIndex
       LocalBackend.set_onNewThreadCallback LocalBackend.set_onNewMessageCallback
       LocalBackend.set_onSuggestionCallback LocalBackend.set_notified
       LocalBackend.set_idsDrawn LocalBackend.set_clockReads
       OfflineAwareBackend.set_wrapped OfflineAwareBackend.set_core
       OfflineAwareBackend.set_outbox OfflineAwareBackend.set_draining
       OfflineAwareBackend.set_sent OfflineAwareBackend.set_suspended
       LocalBackend.vault LocalBackend.store LocalBackend.activeFile
       LocalBackend.threads LocalBackend.anchorIndex
       LocalBackend.onNewThreadCallback LocalBackend.onNewMessageCallback
       LocalBackend.onSuggestionCallback LocalBackend.notified
       LocalBackend.idsDrawn LocalBackend.clockReads
       OfflineAwareBackend.wrapped OfflineAwareBackend.core
       OfflineAwareBackend.outbox OfflineAwareBackend.draining
       OfflineAwareBackend.sent OfflineAwareBackend.suspended] in *.

(* ================================================================== *)
(** * Properties *)
(* ================================================================== *)

Example spec_scenario_exact :
  resolveAnchor (mkTextAnchor (str "test") 17 21 None)
    (str "Hello, this is a test document.")
  = Some (mkResolved 17 21 Exact).
Proof. vm_compute. reflexivity. Qed.

Example spec_scenario_text_search :
  resolveAnchor (mkTextAnchor (str "test") 17 21 None)
    (str "Hello world, this is a test document.")
  = Some (mkResolved 23 27 TextSearch).
Proof. vm_compute. reflexivity. Qed.

(** ** Strings *)

Lemma startsWith_spec hay needle :
  startsWith hay needle = true <-> take (length needle) hay = needle.
Proof.
  revert hay. induction needle as [|c needle IH]; intros hay; simpl.
  - split; [intros _; by rewrite take_0 | done].
  - destruct hay as [|d hay]; simpl; [split; done|].
    rewrite andb_true_iff, bool_decide_eq_true, IH.
    split; [intros [-> ->]; done | intros [= ? ?]; split; congruence].
Qed.

Lemma startsWith_occursAt hay needle k :
  startsWith (drop k hay) needle = true <-> occursAt hay needle k.
Proof. apply startsWith_spec. Qed.

Lemma occursAt_bound hay needle k :
  needle <> [] -> occursAt hay needle k ->
  (k + length needle <= length hay)%nat /\ (k < length hay)%nat.
Proof.
  intros Hne Hocc. unfold occursAt in Hocc.
  assert (Hlen : length (take (length needle) (drop k hay)) = length needle)
    by (by rewrite Hocc).
  rewrite length_take, length_drop in Hlen.
  assert (0 < length needle)%nat by (destruct needle; simpl; [done | lia]).
  lia.
Qed.

Lemma indexOf_scan_Some hay needle pos i :
  indexOf_scan hay needle pos = Some i ->
  exists j, i = (pos + j)%nat /\ startsWith (drop j hay) needle = true /\
    forall j', (j' < j)%nat -> startsWith (drop j' hay) needle = false.
Proof.
  revert pos. induction hay as [|d hay IH]; intros pos; simpl.
  - destruct (startsWith [] needle) eqn:E; [|done].
    intros [= <-]. exists 0%nat. split; [lia|]. split; [done|]. intros; lia.
  - destruct (startsWith (d :: hay) needle) eqn:E.
    + intros [= <-]. exists 0%nat. split; [lia|]. split; [done|]. intros; lia.
    + intros H. apply IH in H as (j & -> & Hj & Hmin).
      exists (S j). split; [lia|]. split; [done|].
      intros [|j'] Hlt; [done|]. simpl. apply Hmin. lia.
Qed.

Lemma indexOf_scan_None hay needle pos :
  indexOf_scan hay needle pos = None ->
  forall j, startsWith (drop j hay) needle = false.
Proof.
  revert pos. induction hay as [|d hay IH]; intros pos; simpl.
  - destruct (startsWith [] needle) eqn:E; [done|].
    intros _ j. by rewrite drop_nil.
  - destruct (startsWith (d :: hay) needle) eqn:E; [done|].
    intros H [|j]; [done|]. simpl. by eapply IH.
Qed.

Lemma indexOf_Some hay needle from i :
  (from <= length hay)%nat -> indexOf hay needle from = Some i ->
  (from <= i)%nat /\ occursAt hay needle i /\
  forall k, (from <= k < i)%nat -> ~ occursAt hay needle k.
Proof.
  intros Hfrom. unfold indexOf. rewrite Nat.min_l by done.
  intros H. apply indexOf_scan_Some in H as (j & -> & Hj & Hmin).
  rewrite drop_drop in Hj. split; [lia|]. split.
  - by apply startsWith_occursAt.
  - intros k Hk Hocc. apply startsWith_occursAt in Hocc.
    specialize (Hmin (k - from)%nat ltac:(lia)).
    rewrite drop_drop in Hmin.
    replace (from + (k - from))%nat with k in Hmin by lia. congruence.
Qed.

Lemma indexOf_None hay needle from :
  (from <= length hay)%nat -> indexOf hay needle from = None ->
  forall k, (from <= k)%nat -> ~ occursAt hay needle k.
Proof.
  intros Hfrom. unfold indexOf. rewrite Nat.min_l by done.
  intros H k Hk Hocc. apply startsWith_occursAt in Hocc.
  pose proof (indexOf_scan_None _ _ _ H (k - from)%nat) as Hn.
  rewrite drop_drop in Hn.
  replace (from + (k - from))%nat with k in Hn by lia. congruence.
Qed.

(** ** The text-search layer *)

Lemma leftmostClosest_complete hay needle p bound r :
  needle <> [] ->
  (forall k, (bound <= k)%nat -> ~ occursAt hay needle k) ->
  leftmostClosest hay needle p bound r ->
  leftmostClosest hay needle p (S (length hay)) r.
Proof.
  intros Hne Hgap. destruct r as [b|]; simpl.
  - intros (Hb & Hocc & Hmin). split; [|split; [done|]].
    + apply (occursAt_bound _ _ _ Hne) in Hocc. lia.
    + intros k _ Hk. apply Hmin; [|done].
      destruct (decide (k < bound)%nat); [done|].
      exfalso. apply (Hgap k); [lia|done].
  - intros Hnone k _ Hk.
    destruct (decide (k < bound)%nat) as [Hlt|Hge].
    + by apply (Hnone k).
    + apply (Hgap k); [lia|done].
Qed.

Lemma findClosestMatch_loop_spec fuel needle hay p from bo :
  needle <> [] ->
  (length hay < fuel + from)%nat ->
  leftmostClosest hay needle p from bo ->
  leftmostClosest hay needle p (S (length hay))
    (findClosestMatch_loop fuel needle hay p from bo
       ((fun b => Z.abs (Z.of_nat b - p)) <$> bo)).
Proof.
  intros Hne. revert from bo.
  induction fuel as [|fuel IH]; intros from bo Hfuel Hinv; simpl.
  - apply (leftmostClosest_complete _ _ _ from); [done| |done].
    intros k Hk Hocc. apply (occursAt_bound _ _ _ Hne) in Hocc. lia.
  - destruct (Z.leb_spec (Z.of_nat from)
                (Z.of_nat (length hay) - Z.of_nat (length needle))) as [Hle|Hgt].
    + destruct (indexOf hay needle from) as [idx|] eqn:Hidx.
      * apply indexOf_Some in Hidx as (Hfrom & Hocc & Hfirst); [|lia].
        destruct (lessThan _ _) eqn:Hless.
        -- apply (IH (idx + 1)%nat (Some idx)); [lia|].
           simpl. split; [lia|]. split; [done|].
           intros k Hk Hk_occ.
           destruct (decide (k = idx)) as [->|Hneq]; [right; split; [done|lia]|].
           destruct (decide (k < from)%nat) as [Hlt|Hge];
             [|exfalso; apply (Hfirst k); [lia|done]].
           destruct bo as [b|]; simpl in *.
           ++ destruct Hinv as (_ & _ & Hmin).
              apply Z.ltb_lt in Hless.
              destruct (Hmin k Hlt Hk_occ) as [?|[? ?]]; left; lia.
           ++ exfalso. by apply (Hinv k).
        -- destruct bo as [b|]; simpl in Hless; [|done].
           apply Z.ltb_ge in Hless.
           apply (IH (idx + 1)%nat (Some b)); [lia|].
           simpl in *. destruct Hinv as (Hb & Hb_occ & Hmin).
           split; [lia|]. split; [done|].
           intros k Hk Hk_occ.
           destruct (decide (k = idx)) as [->|Hneq].
           { destruct (decide (Z.abs (Z.of_nat b - p) = Z.abs (Z.of_nat idx - p)));
               [right; split; [done|lia] | left; lia]. }
           destruct (decide (k < from)%nat) as [Hlt|Hge];
             [by apply Hmin | exfalso; apply (Hfirst k); [lia|done]].
      * apply (leftmostClosest_complete _ _ _ from); [done| |done].
        apply indexOf_None; [lia|done].
    + apply (leftmostClosest_complete _ _ _ from); [done| |done].
      intros k Hk Hocc. apply (occursAt_bound _ _ _ Hne) in Hocc. lia.
Qed.

Lemma findClosestMatch_spec needle hay p :
  needle <> [] ->
  leftmostClosest hay needle p (S (length hay)) (findClosestMatch needle hay p).
Proof.
  intros Hne. unfold findClosestMatch.
  destruct needle as [|c needle]; [done|]. simpl Nat.eqb. cbv iota.
  apply (findClosestMatch_loop_spec (S (length hay)) (c :: needle) hay p 0%nat None);
    [done|lia|].
  intros k Hk. lia.
Qed.

Lemma findClosestMatch_empty hay p : findClosestMatch [] hay p = None.
Proof. reflexivity. Qed.

(** Layer 2 of [resolveAnchor]: when the exact layer fails and the anchor
    text occurs in the document, the answer is tagged [TextSearch] and its
    start is the leftmost of the closest occurrences. *)
Lemma resolveAnchor_text_search anchor doc :
  anchorText anchor <> [] ->
  exactMatch anchor doc = false ->
  (exists k, occursAt doc (anchorText anchor) k) ->
  exists r,
    resolveAnchor anchor doc =
      Some (mkResolved (Z.of_nat r)
              (Z.of_nat r + Z.of_nat (length (anchorText anchor))) TextSearch) /\
    leftmostClosest doc (anchorText anchor) (startOffset anchor)
      (S (length doc)) (Some r).
Proof.
  intros Hne Hexact [k Hk].
  pose proof (occursAt_bound _ _ _ Hne Hk) as [_ Hlen].
  pose proof (findClosestMatch_spec _ doc (startOffset anchor) Hne) as Hspec.
  unfold resolveAnchor. rewrite Hexact.
  destruct doc as [|d doc]; [simpl in Hlen; lia|]. simpl Nat.eqb. cbv iota.
  destruct (findClosestMatch _ _ _) as [r|].
  - by exists r.
  - exfalso. apply (Hspec k); [lia|done].
Qed.

(** ** Slices *)

Lemma relIndex_in_range len i :
  0 <= i <= Z.of_nat len -> relIndex len i = Z.to_nat i.
Proof.
  intros Hi. unfold relIndex.
  destruct (Z.ltb_spec i 0); lia.
Qed.

Lemma slice_in_range s a b :
  0 <= a -> a <= b -> b <= Z.of_nat (length s) ->
  slice s a b = take (Z.to_nat b - Z.to_nat a) (drop (Z.to_nat a) s).
Proof.
  intros Ha Hab Hb. unfold slice.
  by rewrite !relIndex_in_range by lia.
Qed.

Lemma length_slice_in_range s a b :
  0 <= a -> a <= b -> b <= Z.of_nat (length s) ->
  Z.of_nat (length (slice s a b)) = b - a.
Proof.
  intros Ha Hab Hb. rewrite slice_in_range by done.
  rewrite length_take, length_drop. lia.
Qed.

Lemma indexOf_bound hay needle k :
  indexOf hay needle 0 = Some k ->
  occursAt hay needle k /\ (k + length needle <= length hay)%nat.
Proof.
  intros Hidx. pose proof Hidx as Hidx'.
  apply indexOf_Some in Hidx as (_ & Hocc & Hfirst); [|lia].
  split; [done|].
  destruct needle as [|c needle].
  - destruct k as [|k]; [simpl; lia|].
    exfalso. apply (Hfirst 0%nat); [lia|]. unfold occursAt. by rewrite take_0.
  - apply occursAt_bound in Hocc as [Hle _]; done.
Qed.

Lemma occursAt_in_slice (doc needle : jsstring) (s n k : nat) :
  occursAt (take n (drop s doc)) needle k ->
  (k + length needle <= n)%nat ->
  occursAt doc needle (s + k).
Proof.
  unfold occursAt. intros Hocc Hle.
  rewrite <- drop_drop.
  rewrite skipn_firstn_comm, take_take in Hocc.
  by replace (length needle `min` (n - k))%nat with (length needle) in Hocc by lia.
Qed.

Lemma relIndex_of_nat len (a : nat) : relIndex len (Z.of_nat a) = (a `min` len)%nat.
Proof. unfold relIndex. destruct (Z.ltb_spec (Z.of_nat a) 0); lia. Qed.

(** An occurrence inside a slice is an occurrence in the string. *)
Lemma occursAt_slice (doc needle : jsstring) (a b k : nat) :
  needle <> [] ->
  occursAt (slice doc (Z.of_nat a) (Z.of_nat b)) needle k ->
  occursAt doc needle (a + k).
Proof.
  intros Hne Hocc. unfold slice in Hocc. rewrite !relIndex_of_nat in Hocc.
  pose proof (occursAt_bound _ _ _ Hne Hocc) as [Hbound _].
  rewrite length_take, length_drop in Hbound.
  assert (0 < length needle)%nat by (destruct needle; [done|simpl; lia]).
  replace (a `min` length doc)%nat with a in Hocc by lia.
  eapply occursAt_in_slice; [done|lia].
Qed.

(** ** The exact layer and empty anchor text *)

Lemma exactMatch_nonempty anchor doc :
  exactMatch anchor doc = true -> anchorText anchor <> [].
Proof.
  unfold exactMatch. rewrite !andb_true_iff, bool_decide_eq_true.
  intros [[[Hs He] Hlt] Heq] Hnil.
  apply Z.leb_le in Hs, He. apply Z.ltb_lt in Hlt.
  pose proof (length_slice_in_range doc (startOffset anchor) (endOffset anchor)
                Hs ltac:(lia) He) as Hlen.
  rewrite Heq, Hnil in Hlen. simpl in Hlen. lia.
Qed.

Lemma indexOf_empty_needle hay : indexOf hay [] 0 = Some 0%nat.
Proof. unfold indexOf. simpl. by destruct hay. Qed.

(** What [resolveAnchor] does with an empty anchor text: layers 1 and 2
    never match, and layer 3 answers with the offset of the recorded heading
    whenever that heading occurs in the document. *)
Lemma resolveAnchor_empty_anchorText anchor doc :
  anchorText anchor = [] -> doc <> [] ->
  resolveAnchor anchor doc =
    match truthyHeading (sectionHeading anchor) with
    | Some heading =>
      match indexOf doc heading 0 with
      | Some headingIdx =>
        Some (mkResolved (Z.of_nat headingIdx) (Z.of_nat headingIdx + 0)
                HeadingFallback)
      | None => None
      end
    | None => None
    end.
Proof.
  intros Hnil Hdoc. unfold resolveAnchor.
  destruct doc as [|d doc]; [done|]. simpl Nat.eqb. cbv iota.
  destruct (exactMatch anchor (d :: doc)) eqn:Hexact;
    [by apply exactMatch_nonempty in Hexact|].
  rewrite Hnil, findClosestMatch_empty.
  destruct (truthyHeading _) as [heading|]; [|done].
  unfold resolveViaHeading.
  destruct (indexOf (d :: doc) heading 0) as [headingIdx|]; [|done].
  rewrite indexOf_empty_needle. simpl length.
  by rewrite Nat.add_0_r.
Qed.

Lemma resolveAnchor_empty_anchorText_no_heading anchor doc :
  anchorText anchor = [] -> truthyHeading (sectionHeading anchor) = None ->
  resolveAnchor anchor doc = None.
Proof.
  intros Hnil Hh. destruct doc as [|d doc]; [done|].
  rewrite resolveAnchor_empty_anchorText by done. by rewrite Hh.
Qed.

(** On integer offsets the heading layer never adds to the text search for
    an anchor text that is not empty: an occurrence inside the section is an
    occurrence in the document, which layer 2 has found. *)
Lemma heading_fallback_only_for_empty_anchorText_integers anchor doc r :
  resolveAnchor anchor doc = Some r -> method r = HeadingFallback ->
  anchorText anchor = [].
Proof.
  unfold resolveAnchor. destruct (length doc =? 0)%nat; [done|].
  destruct (exactMatch anchor doc); [by intros [= <-]|].
  destruct (findClosestMatch _ _ _) as [k|] eqn:Hfind; [by intros [= <-]|].
  destruct (truthyHeading _) as [heading|]; [|done].
  destruct (resolveViaHeading _ _ _) as [h|] eqn:Hvia; [|done].
  intros _ _. destruct (decide (anchorText anchor = [])) as [|Hne]; [done|].
  exfalso. unfold resolveViaHeading in Hvia.
  destruct (indexOf doc heading 0) as [headingIdx|]; [|done].
  destruct (indexOf (slice doc _ _) (anchorText anchor) 0) as [localIdx|] eqn:Hidx;
    [|done].
  apply indexOf_bound in Hidx as [Hocc _].
  apply occursAt_slice in Hocc; [|done].
  pose proof (findClosestMatch_spec _ doc (startOffset anchor) Hne) as Hspec.
  rewrite Hfind in Hspec. simpl in Hspec.
  pose proof (occursAt_bound _ _ _ Hne Hocc) as [_ Hlt].
  apply (Hspec (headingIdx + localIdx)%nat); [lia|done].
Qed.

(** The resolver on documents of tests/storage/anchor.test.ts. *)
Example test_anchor_text_in_two_sections :
  let doc := str "# Introduction" ++ [10%N] ++ str "This has a test word." ++ [10%N]
             ++ [10%N] ++ str "## Results" ++ [10%N] ++ str "This also has a test word." in
  indexOf doc (str "## Results") 0 = Some 38%nat /\
  resolveAnchor (mkTextAnchor (str "test") 999 1003 (Some (str "## Results"))) doc
    = Some (mkResolved 65 69 TextSearch) /\
  resolveViaHeading (str "test") doc (str "## Results") = Some 65%nat /\
  resolveViaHeading (str "test") doc (str "# Introduction") = Some 26%nat.
Proof. vm_compute. repeat split; reflexivity. Qed.

Example test_orphaned_and_empty_document :
  resolveAnchor (mkTextAnchor (str "unique_text_not_found") 0 21 None)
    (str "Hello, this is a document.") = None /\
  resolveAnchor (mkTextAnchor (str "anything") 0 8 None) [] = None.
Proof. vm_compute. split; reflexivity. Qed.

(** ** The anchor index *)

Lemma mapSet_keys {V} (m : list (jsstring * V)) k v k' :
  k' ∈ (mapSet m k v).*1 -> k' = k \/ k' ∈ m.*1.
Proof.
  induction m as [|[k0 v0] m IH]; simpl.
  - rewrite list_elem_of_singleton. auto.
  - destruct (decide (k0 = k)) as [->|Hne]; simpl; rewrite !elem_of_cons.
    + intros [?|?]; auto.
    + intros [?|Hin]; [auto|]. destruct (IH Hin); auto.
Qed.

Lemma mapSet_elem_of {V} (m : list (jsstring * V)) k v k' v' :
  (k', v') ∈ mapSet m k v -> (k', v') = (k, v) \/ (k', v') ∈ m.
Proof.
  induction m as [|[k0 v0] m IH]; simpl.
  - rewrite list_elem_of_singleton. auto.
  - destruct (decide (k0 = k)) as [->|Hne]; rewrite !elem_of_cons.
    + intros [?|?]; auto.
    + intros [?|Hin]; [auto|]. destruct (IH Hin); auto.
Qed.

Lemma mapSet_inv heap m k l thread :
  indexInv heap m -> heap !! l = Some thread -> id thread = k ->
  indexInv heap (mapSet m k l).
Proof.
  intros [Hnd Hel] Hl Hid. split.
  - clear Hel. induction m as [|[k0 l0] m IH]; simpl.
    + apply NoDup_singleton.
    + apply NoDup_cons in Hnd as [Hk0 Hnd].
      destruct (decide (k0 = k)) as [->|Hne]; simpl.
      * by apply NoDup_cons.
      * apply NoDup_cons. split; [|by apply IH].
        intros Hin. apply mapSet_keys in Hin as [?|?]; [congruence|done].
  - intros k' l' Hin. apply mapSet_elem_of in Hin as [[= -> ->]|Hin]; eauto.
Qed.

Lemma indexInv_NoDup_values heap m : indexInv heap m -> NoDup m.*2.
Proof.
  induction m as [|[k l] m IH]; intros [Hnd Hel]; simpl; [apply NoDup_nil_2|].
  apply NoDup_cons in Hnd as [Hk Hnd]. apply NoDup_cons. split.
  - intros Hin. apply list_elem_of_fmap in Hin as ([k' l'] & Heq & Hin).
    simpl in Heq. subst l'.
    destruct (Hel k l ltac:(left)) as (t1 & Ht1 & Hid1).
    destruct (Hel k' l ltac:(by right)) as (t2 & Ht2 & Hid2).
    assert (k' = k) as -> by congruence.
    apply Hk. apply list_elem_of_fmap. by exists (k, l).
  - apply IH. split; [done|]. intros k' l' Hin. apply Hel. by right.
Qed.

Lemma build_step_inv heap idx l :
  indexInv heap (threadMap idx) -> indexInv heap (threadMap (build_step heap idx l)).
Proof.
  intros Hinv. unfold build_step.
  destruct (heap !! l) as [thread|] eqn:Hl; simpl; [|done].
  by eapply mapSet_inv.
Qed.

Lemma build_inv heap threads : indexInv heap (threadMap (build heap threads)).
Proof.
  unfold build.
  assert (Hinit : indexInv heap (threadMap emptyIndex)).
  { split; [apply NoDup_nil_2|]. intros k l Hin. by apply elem_of_nil in Hin. }
  revert Hinit. generalize emptyIndex.
  induction threads as [|l threads IH]; intros idx Hinv; simpl; [done|].
  apply IH. by apply build_step_inv.
Qed.

(** No thread object is held twice by an index. *)
Lemma build_NoDup heap threads : NoDup (indexed (build heap threads)).
Proof. eapply indexInv_NoDup_values, build_inv. Qed.

Lemma shiftAnchor_after changeFrom changeTo delta a :
  startOffset a >= changeTo ->
  shiftAnchor changeFrom changeTo delta a =
    setOffsets (startOffset a + delta) (endOffset a + delta) a.
Proof.
  intros Hs. unfold shiftAnchor.
  destruct (Z.geb_spec (startOffset a) changeTo); [done|lia].
Qed.

Lemma shiftThread_lookup_ne changeFrom changeTo delta (heap : Store) (l l' : loc) :
  l <> l' -> shiftThread changeFrom changeTo delta heap l' !! l = heap !! l.
Proof.
  intros Hne. unfold shiftThread. destruct (heap !! l'); [|done].
  by apply list_lookup_insert_ne.
Qed.

Lemma shiftThread_lookup_eq changeFrom changeTo delta (heap : Store) (l : loc) thread :
  heap !! l = Some thread ->
  shiftThread changeFrom changeTo delta heap l !! l =
    Some (setAnchor (shiftAnchor changeFrom changeTo delta (anchor thread)) thread).
Proof.
  intros Hl. unfold shiftThread. rewrite Hl.
  apply list_lookup_insert_eq. by eapply lookup_lt_Some.
Qed.

Lemma shift_all_lookup_notin changeFrom changeTo delta (ls : list loc) (heap : Store)
    (l : loc) :
  l ∉ ls ->
  fold_left (shiftThread changeFrom changeTo delta) ls heap !! l = heap !! l.
Proof.
  revert heap. induction ls as [|a ls IH]; intros heap Hnin; simpl; [done|].
  apply not_elem_of_cons in Hnin as [Hne Hnin].
  rewrite IH by done. by apply shiftThread_lookup_ne.
Qed.

(** Each indexed thread object is visited once by the loop of
    [applyOffsetShift]. *)
Lemma shift_all_lookup_in changeFrom changeTo delta (ls : list loc) (heap : Store)
    (l : loc) thread :
  NoDup ls -> l ∈ ls -> heap !! l = Some thread ->
  fold_left (shiftThread changeFrom changeTo delta) ls heap !! l =
    Some (setAnchor (shiftAnchor changeFrom changeTo delta (anchor thread)) thread).
Proof.
  revert heap. induction ls as [|a ls IH]; intros heap Hnd Hin Hl; simpl.
  - by apply elem_of_nil in Hin.
  - apply NoDup_cons in Hnd as [Ha Hnd].
    apply elem_of_cons in Hin as [->|Hin].
    + rewrite shift_all_lookup_notin by done. by apply shiftThread_lookup_eq.
    + apply IH; [done|done|].
      rewrite shiftThread_lookup_ne; [done|]. intros ->. done.
Qed.

(** The interval tree that [applyOffsetShift] rebuilds holds the shifted
    interval of every indexed thread whose anchor starts at or after the
    change and is not empty. *)
Lemma build_step_tree_mono (heap : Store) idx (l : loc) x :
  x ∈ tree idx -> x ∈ tree (build_step heap idx l).
Proof.
  intros Hx. unfold build_step. destruct (heap !! l) as [t|]; [|done]. simpl.
  destruct (_ <? _); [|done]. apply elem_of_app. by left.
Qed.

Lemma fold_build_tree_mono (heap : Store) (threads : list loc) idx x :
  x ∈ tree idx -> x ∈ tree (fold_left (build_step heap) threads idx).
Proof.
  revert idx. induction threads as [|a threads IH]; intros idx Hx; simpl; [done|].
  by apply IH, build_step_tree_mono.
Qed.

Lemma build_tree_elem_of (heap : Store) (threads : list loc) (l : loc) thread :
  l ∈ threads -> heap !! l = Some thread ->
  startOffset (anchor thread) < endOffset (anchor thread) ->
  (startOffset (anchor thread), endOffset (anchor thread), id thread)
    ∈ tree (build heap threads).
Proof.
  intros Hin Hl Hlt. unfold build. generalize emptyIndex.
  induction threads as [|a threads IH]; intros idx; simpl.
  - by apply elem_of_nil in Hin.
  - apply elem_of_cons in Hin as [<-|Hin]; [|by apply IH].
    apply fold_build_tree_mono. unfold build_step. rewrite Hl. simpl.
    apply Z.ltb_lt in Hlt. rewrite Hlt. apply elem_of_app. right.
    by apply list_elem_of_singleton.
Qed.

Lemma applyOffsetShift_rebuilds_tree (heap0 : Store) (threads : list loc) (heap : Store)
    (changeFrom changeTo insertLength : Z) (l : loc) (thread : CommentThread) :
  let delta := insertLength - (changeTo - changeFrom) in
  delta <> 0 ->
  l ∈ indexed (build heap0 threads) ->
  heap !! l = Some thread ->
  startOffset (anchor thread) >= changeTo ->
  startOffset (anchor thread) < endOffset (anchor thread) ->
  (startOffset (anchor thread) + delta, endOffset (anchor thread) + delta, id thread)
    ∈ tree (applyOffsetShift heap (build heap0 threads) changeFrom changeTo insertLength).2.
Proof.
  intros delta Hnz Hin Hl Hs Hlt. unfold applyOffsetShift. fold delta.
  destruct (Z.eqb_spec delta 0) as [?|_]; [done|]. simpl.
  pose proof (shift_all_lookup_in changeFrom changeTo delta _ heap l thread
                (build_NoDup heap0 threads) Hin Hl) as Hshifted.
  rewrite shiftAnchor_after in Hshifted by done.
  apply (build_tree_elem_of _ _ l _ Hin) in Hshifted; [done|]. simpl. lia.
Qed.

(** The two occurrences of the witness are at the same distance from the
    recorded offset, and the answer is the left one. *)
Example text_search_tie :
  resolveAnchor (mkTextAnchor (str "ab") 2 4 None) (str "ab  ab")
    = Some (mkResolved 0 2 TextSearch) /\
  occursAt (str "ab  ab") (str "ab") 0 /\
  occursAt (str "ab  ab") (str "ab") 4 /\
  Z.abs (0 - 2) = Z.abs (4 - 2).
Proof. repeat split; vm_compute; reflexivity. Qed.

(** C8 (empty anchor text).  The code at the failing input: an anchor with
    empty [anchorText] and a recorded section heading that occurs in the
    document is resolved, by the heading layer, to the empty range at the
    heading; the answer is not [None]. *)
Theorem resolveAnchor_empty_anchorText_heading_fallback :
  resolveAnchor (mkTextAnchor [] 0 0 (Some (str "# Title")))
    (str "# Title" ++ [10%N] ++ str "body")
  = Some (mkResolved 0 0 HeadingFallback).
Proof. vm_compute. reflexivity. Qed.

(** ** Substrings *)

Lemma includes_spec hay needle :
  includes hay needle = true <-> isSubstring needle hay.
Proof.
  unfold includes, isSubstring.
  destruct (indexOf hay needle 0) as [i|] eqn:Hidx.
  - apply indexOf_Some in Hidx as (_ & Hocc & _); [|lia].
    split; [by exists i|done].
  - split; [done|]. intros [k Hk]. exfalso.
    apply (indexOf_None hay needle 0%nat) with (k := k) in Hidx; [done|lia|lia].
Qed.

Lemma includes_false hay needle :
  includes hay needle = false <-> ~ isSubstring needle hay.
Proof.
  rewrite <- includes_spec. destruct (includes hay needle); split; done.
Qed.

(** ** Suggestions *)

Section SuggestionProperties.
Context {R : Type} `{AgentCommentsBackend R} `{Host}.

Lemma set_core_same (s : OfflineAwareBackend.t R) :
  OfflineAwareBackend.set_core (OfflineAwareBackend.core s) s = s.
Proof. by destruct s. Qed.

(** A method of the wrapper that fails in its sidecar-first half fails in
    the same way, forwards nothing and queues nothing. *)
Lemma sidecarFirst_throw {A} (local : LocalBackend.M A) type m p
    (s : OfflineAwareBackend.t R) e :
  local (OfflineAwareBackend.core s) = (OfflineAwareBackend.core s, Throw e) ->
  OfflineAwareBackend.sidecarFirst local type m p s = (s, Throw e).
Proof.
  intros Hl. unfold OfflineAwareBackend.sidecarFirst. rewrite Hl.
  by rewrite set_core_same.
Qed.

Lemma local_acceptSuggestion_stale (b : LocalBackend.t) threadId messageId
    file l thread i message sg :
  LocalBackend.activeFile b = Some file ->
  LocalBackend.findThread b threadId = Some (l, thread) ->
  LocalBackend.findMessage thread messageId = Some (i, message) ->
  suggestion message = Some sg ->
  sg_status sg = Pending ->
  ~ isSubstring (originalText sg)
      (slice (vaultRead (LocalBackend.vault b) file)
         (startOffset (anchor thread)) (endOffset (anchor thread))) ->
  LocalBackend.acceptSuggestion threadId messageId b = (b, Throw StaleSuggestion).
Proof.
  intros Hfile Hthread Hmsg Hsg Hpending Hstale.
  apply includes_false in Hstale.
  unfold LocalBackend.acceptSuggestion.
  rewrite Hfile, Hthread, Hmsg, Hsg.
  unfold LocalBackend.isPending. rewrite Hpending. simpl.
  by rewrite Hstale.
Qed.

Lemma local_suggestion_already_decided (b : LocalBackend.t) threadId messageId
    file l thread i message sg :
  LocalBackend.activeFile b = Some file ->
  LocalBackend.findThread b threadId = Some (l, thread) ->
  LocalBackend.findMessage thread messageId = Some (i, message) ->
  suggestion message = Some sg ->
  sg_status sg <> Pending ->
  LocalBackend.acceptSuggestion threadId messageId b = (b, Throw AlreadyDecided) /\
  LocalBackend.rejectSuggestion threadId messageId b = (b, Throw AlreadyDecided).
Proof.
  intros Hfile Hthread Hmsg Hsg Hdecided.
  unfold LocalBackend.acceptSuggestion, LocalBackend.rejectSuggestion.
  rewrite Hfile, Hthread, Hmsg, Hsg.
  unfold LocalBackend.isPending. by destruct (sg_status sg).
Qed.

(** C1 (accept-suggestion anchor isolation).  With an active document, for a
    thread and message found by their ids whose suggestion is pending: when
    [originalText] is not a substring of the document text sliced to the
    anchor range of the thread, [acceptSuggestion] throws the
    stale-suggestion error and leaves the whole state as it was, the
    document and the suggestion status included; for the offline wrapper
    the outbox and the calls sent are as they were too.  Nothing is assumed
    of the text outside the range, so an occurrence of [originalText] there
    is of no use. *)
Theorem acceptSuggestion_stale_outside_anchor (b : LocalBackend.t)
    threadId messageId file l thread i message sg :
  LocalBackend.activeFile b = Some file ->
  LocalBackend.findThread b threadId = Some (l, thread) ->
  LocalBackend.findMessage thread messageId = Some (i, message) ->
  suggestion message = Some sg ->
  sg_status sg = Pending ->
  ~ isSubstring (originalText sg)
      (slice (vaultRead (LocalBackend.vault b) file)
         (startOffset (anchor thread)) (endOffset (anchor thread))) ->
  LocalBackend.acceptSuggestion threadId messageId b = (b, Throw StaleSuggestion) /\
  forall s : OfflineAwareBackend.t R,
    OfflineAwareBackend.core s = b ->
    OfflineAwareBackend.acceptSuggestion threadId messageId s
    = (s, Throw StaleSuggestion).
Proof.
  intros Hfile Hthread Hmsg Hsg Hpending Hstale.
  assert (Hlocal : LocalBackend.acceptSuggestion threadId messageId b
                   = (b, Throw StaleSuggestion))
    by by eapply local_acceptSuggestion_stale.
  split; [done|].
  intros s <-. by apply sidecarFirst_throw.
Qed.

(** C2 (suggestion terminality), as amended.  With an active document, for
    a thread and message found by their ids whose suggestion is accepted or
    rejected: [acceptSuggestion] and [rejectSuggestion] of the offline
    wrapper both throw the already-decided error and leave the whole state
    as it was, and so do those of the local backend. *)
Theorem decided_suggestion_is_terminal (s : OfflineAwareBackend.t R)
    threadId messageId file l thread i message sg :
  let b := OfflineAwareBackend.core s in
  LocalBackend.activeFile b = Some file ->
  LocalBackend.findThread b threadId = Some (l, thread) ->
  LocalBackend.findMessage thread messageId = Some (i, message) ->
  suggestion message = Some sg ->
  sg_status sg = Accepted \/ sg_status sg = Rejected ->
  OfflineAwareBackend.acceptSuggestion threadId messageId s = (s, Throw AlreadyDecided) /\
  OfflineAwareBackend.rejectSuggestion threadId messageId s = (s, Throw AlreadyDecided) /\
  LocalBackend.acceptSuggestion threadId messageId b = (b, Throw AlreadyDecided) /\
  LocalBackend.rejectSuggestion threadId messageId b = (b, Throw AlreadyDecided).
Proof.
  intros b Hfile Hthread Hmsg Hsg Hdecided.
  assert (Hne : sg_status sg <> Pending) by (destruct Hdecided; congruence).
  destruct (local_suggestion_already_decided b threadId messageId
              file l thread i message sg Hfile Hthread Hmsg Hsg Hne) as [Ha Hr].
  repeat split; try done; by apply sidecarFirst_throw.
Qed.

End SuggestionProperties.

Section SuggestionWitnesses.
#[local] Existing Instance mockBackend.
#[local] Existing Instance sampleHost.

Lemma acceptSuggestion_stale_outside_anchor_witness :
  let b := sampleBackend Pending in
  let s := sampleOffline (mkMock Disconnected false false) b [] in
  isSubstring (str "foo") sampleDocument /\
  LocalBackend.acceptSuggestion (str "t1") (str "m1") b = (b, Throw StaleSuggestion) /\
  OfflineAwareBackend.acceptSuggestion (str "t1") (str "m1") s
    = (s, Throw StaleSuggestion).
Proof.
  intros b s. split; [exists 0%nat; vm_compute; reflexivity|].
  destruct (acceptSuggestion_stale_outside_anchor (R := MockBackend) b
              (str "t1") (str "m1") testFile
              0%nat (sampleThread Pending) 0%nat (sampleMessage Pending)
              (sampleSuggestion Pending)) as [Hlocal Hoffline].
  - reflexivity.
  - vm_compute. reflexivity.
  - vm_compute. reflexivity.
  - reflexivity.
  - reflexivity.
  - intros Hsub. apply includes_spec in Hsub. vm_compute in Hsub. discriminate.
  - split; [exact Hlocal|]. apply Hoffline. reflexivity.
Defined.

Lemma decided_suggestion_is_terminal_witness :
  let s := sampleOffline (mkMock Connected false false) (sampleBackend Accepted) [] in
  OfflineAwareBackend.acceptSuggestion (str "t1") (str "m1") s
    = (s, Throw AlreadyDecided) /\
  OfflineAwareBackend.rejectSuggestion (str "t1") (str "m1") s
    = (s, Throw AlreadyDecided).
Proof.
  intros s.
  destruct (decided_suggestion_is_terminal s (str "t1") (str "m1") testFile
              0%nat (sampleThread Accepted) 0%nat (sampleMessage Accepted)
              (sampleSuggestion Accepted)) as (Ha & Hr & _ & _).
  - reflexivity.
  - vm_compute. reflexivity.
  - vm_compute. reflexivity.
  - reflexivity.
  - left. reflexivity.
  - split; [exact Ha|exact Hr].
Defined.

End SuggestionWitnesses.

(** ** Sidecar storage *)

(** The validator on the shapes exercised by tests/storage/sidecar.test.ts. *)
Example validate_empty_sidecar :
  validateSidecarFile
    (JObject [(str "version", JNumber 1); (str "documentId", JString (str "test.md"));
              (str "threads", JArray [])]) = Valid.
Proof. vm_compute. reflexivity. Qed.

Example validate_wrong_version :
  validateSidecarFile
    (JObject [(str "version", JNumber 2); (str "documentId", JString (str "test.md"));
              (str "threads", JArray [])]) = Invalid UnsupportedVersion.
Proof. vm_compute. reflexivity. Qed.

Example validate_thread_without_id :
  validateSidecarFile
    (JObject [(str "version", JNumber 1);
              (str "threads", JArray [JObject [(str "anchor", JObject [])]])])
  = Invalid ThreadMissingId.
Proof. vm_compute. reflexivity. Qed.

Section StorageProperties.
Context {HO : Host}.

Lemma getPath_markdown (file : TFile) :
  extension file = str "md" ->
  getPath file = Ok (slice (path file) 0 (-3) ++ SIDECAR_EXTENSION).
Proof. intros Hext. unfold getPath. by rewrite Hext. Qed.

Lemma getPath_other (file : TFile) :
  extension file <> str "md" -> getPath file = Throw UnsupportedFile.
Proof.
  intros Hext. unfold getPath. by rewrite bool_decide_eq_false_2.
Qed.

Lemma load_try_total (vault : Vault) (sidecarPath : jsstring) :
  exists threads, load_try vault sidecarPath = Ok threads.
Proof.
  unfold load_try.
  destruct (vault !! sidecarPath) as [[content|]|]; eauto.
  destruct (JSON_parse content) as [data|]; eauto.
  destruct (negb (valid (validateSidecarFile data))); eauto.
Qed.

(** [load] rejects every file that is not a markdown file. *)
Lemma load_other_throws (vault : Vault) (file : TFile) :
  extension file <> str "md" -> load vault file = Throw UnsupportedFile.
Proof. intros Hext. unfold load. by rewrite getPath_other. Qed.

(** C9 (load never throws), for markdown documents.  For a document file
    with extension [md], [load] returns a list of threads; it returns the
    empty list when there is no sidecar file at the sidecar path, when the
    content of the sidecar file is not JSON, and when the parsed content
    fails [validateSidecarFile]. *)
Theorem load_markdown_returns (vault : Vault) (file : TFile) :
  extension file = str "md" ->
  (exists threads, load vault file = Ok threads) /\
  ((forall content,
      vault !! (slice (path file) 0 (-3) ++ SIDECAR_EXTENSION) <> Some (FileEntry content)) ->
   load vault file = Ok []) /\
  (forall content,
     vault !! (slice (path file) 0 (-3) ++ SIDECAR_EXTENSION) = Some (FileEntry content) ->
     JSON_parse content = None ->
     load vault file = Ok []) /\
  (forall content data,
     vault !! (slice (path file) 0 (-3) ++ SIDECAR_EXTENSION) = Some (FileEntry content) ->
     JSON_parse content = Some data ->
     valid (validateSidecarFile data) = false ->
     load vault file = Ok []).
Proof.
  intros Hext. unfold load. rewrite (getPath_markdown _ Hext).
  split; [apply load_try_total|]. unfold load_try. repeat split.
  - intros Habsent.
    destruct (vault !! _) as [[content|]|]; [|done|done].
    by destruct (Habsent content).
  - intros content -> ->. done.
  - intros content data -> -> ->. done.
Qed.

End StorageProperties.

Section StorageWitnesses.
#[local] Existing Instance sampleHost.

Lemma load_markdown_returns_witness :
  load (∅ : Vault) testFile = Ok [] /\
  load ({[ str "test.agent-comments.json" := FileEntry (str "{ not json") ]} : Vault)
    testFile = Ok [] /\
  load ({[ str "test.agent-comments.json" := FileEntry (str "{}") ]} : Vault)
    testFile = Ok [].
Proof.
  split; [|split].
  - apply (proj1 (proj2 (load_markdown_returns ∅ testFile eq_refl))).
    intros content. vm_compute. discriminate.
  - apply (proj1 (proj2 (proj2 (load_markdown_returns _ testFile eq_refl)))
             (str "{ not json")); vm_compute; reflexivity.
  - apply (proj2 (proj2 (proj2 (load_markdown_returns _ testFile eq_refl)))
             (str "{}") (JObject [])); vm_compute; reflexivity.
Defined.

(** C9, the claim as stated, fails for a document that is not a markdown
    file: [getPath] throws before the [try] block of [load] is entered. *)
Lemma load_throws_for_text_file :
  load (∅ : Vault) textFile = Throw UnsupportedFile.
Proof. vm_compute. reflexivity. Qed.

End StorageWitnesses.

(** ** Local writes *)

Section CreateThreadProperties.
Context {R : Type} {RB : AgentCommentsBackend R} {HO : Host}.

Lemma pushThread_elem_of thread (b : LocalBackend.t) :
  thread ∈ LocalBackend.getThreads (LocalBackend.pushThread thread b).
Proof.
  unfold LocalBackend.getThreads, LocalBackend.pushThread. simpl.
  apply list_elem_of_omap. exists (length (LocalBackend.store b)). split.
  - apply elem_of_app. right. by apply list_elem_of_singleton.
  - by rewrite lookup_app_r, Nat.sub_diag.
Qed.

Lemma writeFile_lookup (vault : Vault) sidecarPath documentPath threads :
  writeFile vault sidecarPath documentPath threads !! sidecarPath
  = Some (FileEntry (JSON_stringify (mkSidecarFile SCHEMA_VERSION documentPath threads))).
Proof.
  unfold writeFile, vaultModify, vaultCreate.
  destruct (vault !! sidecarPath) as [[?|]|]; apply lookup_insert_eq.
Qed.

(** C5 (local-write durability), for a markdown document.  With an active
    document of extension [md] and a wrapped backend that is not connected,
    [createThread] returns the new thread; afterwards the thread is among
    [getThreads()], the sidecar file holds the serialised thread set, the
    outbox has grown by exactly one entry, of type [createThread] and with
    the arguments of the call, and nothing has been sent. *)
Theorem createThread_while_disconnected (s : OfflineAwareBackend.t R)
    (anchor0 : TextAnchor) (firstMessage : option ThreadMessage) (file : TFile) :
  LocalBackend.activeFile (OfflineAwareBackend.core s) = Some file ->
  extension file = str "md" ->
  OfflineAwareBackend.isConnected s = false ->
  exists thread s',
    OfflineAwareBackend.createThread anchor0 firstMessage s = (s', Ok thread) /\
    anchor thread = anchor0 /\
    messages thread = match firstMessage with Some m => [m] | None => [] end /\
    documentId thread = path file /\
    status thread = Open /\
    thread ∈ OfflineAwareBackend.getThreads s' /\
    LocalBackend.vault (OfflineAwareBackend.core s')
      !! (slice (path file) 0 (-3) ++ SIDECAR_EXTENSION)
    = Some (FileEntry (JSON_stringify
              (mkSidecarFile SCHEMA_VERSION (path file)
                 (OfflineAwareBackend.getThreads s')))) /\
    (exists stamp,
       OfflineAwareBackend.outbox s' =
         OfflineAwareBackend.outbox s ++
           [mkOutboxEntry (str "createThread")
              (CreateThreadPayload anchor0 firstMessage) stamp 0]) /\
    OfflineAwareBackend.sent s' = OfflineAwareBackend.sent s.
Proof.
  intros Hfile Hext Hconn.
  unfold OfflineAwareBackend.createThread, OfflineAwareBackend.sidecarFirst,
    LocalBackend.createThread.
  rewrite Hfile.
  unfold LocalBackend.createThreadModel, LocalBackend.now, LocalBackend.persist,
    saveImmediate.
  rewrite (getPath_markdown _ Hext). cbn beta iota zeta.
  unfold OfflineAwareBackend.forwardOrQueue.
  replace (OfflineAwareBackend.isConnected _) with false by (symmetry; exact Hconn).
  unfold OfflineAwareBackend.enqueue, LocalBackend.now. cbn beta iota zeta.
  eexists _, _. split; [reflexivity|].
  repeat split.
  - unfold OfflineAwareBackend.getThreads, LocalBackend.getThreads.
    destruct (LocalBackend.onNewThreadCallback _); unfold_updates;
      apply list_elem_of_omap;
      exists (length (LocalBackend.store (OfflineAwareBackend.core s)));
      (split; [apply elem_of_app; right; by apply list_elem_of_singleton
              | by rewrite lookup_app_r, Nat.sub_diag]).
  - unfold OfflineAwareBackend.getThreads, LocalBackend.getThreads.
    destruct (LocalBackend.onNewThreadCallback _); unfold_updates;
      apply writeFile_lookup.
  - eexists. unfold_updates. reflexivity.
Qed.

End CreateThreadProperties.

Section CreateThreadWitnesses.
#[local] Existing Instance mockBackend.
#[local] Existing Instance sampleHost.

Lemma createThread_while_disconnected_witness :
  let s := sampleOffline (mkMock Disconnected false false) (sampleBackend Pending) [] in
  exists thread s',
    OfflineAwareBackend.createThread sampleAnchor None s = (s', Ok thread) /\
    thread ∈ OfflineAwareBackend.getThreads s' /\
    (exists stamp,
       OfflineAwareBackend.outbox s' =
         [mkOutboxEntry (str "createThread") (CreateThreadPayload sampleAnchor None)
            stamp 0]) /\
    OfflineAwareBackend.sent s' = [].
Proof.
  intros s.
  destruct (createThread_while_disconnected s sampleAnchor None testFile)
    as (thread & s' & Hrun & _ & _ & _ & _ & Hin & _ & Hout & Hsent).
  - reflexivity.
  - reflexivity.
  - reflexivity.
  - exists thread, s'. repeat split; done.
Defined.

(** C5, the claim as stated, fails when the active document is not a
    markdown file.  [setActiveDocument] records such a file as the active
    document before [load] rejects it; [createThread] then adds the thread
    in memory and throws when it saves, so that nothing is persisted and
    nothing is queued. *)
Lemma createThread_throws_for_text_file :
  let s0 := sampleOffline (mkMock Disconnected false false) emptyBackend [] in
  let r1 := OfflineAwareBackend.setActiveDocument textFile s0 in
  let r2 := OfflineAwareBackend.createThread sampleAnchor None r1.1 in
  r1.2 = Throw UnsupportedFile /\
  LocalBackend.activeFile (OfflineAwareBackend.core r1.1) = Some textFile /\
  OfflineAwareBackend.isConnected r1.1 = false /\
  r2.2 = Throw UnsupportedFile /\
  LocalBackend.vault (OfflineAwareBackend.core r2.1) = ∅ /\
  OfflineAwareBackend.outbox r2.1 = [].
Proof. vm_compute. repeat split; reflexivity. Qed.

End CreateThreadWitnesses.

(** ** Outbox draining *)

Section DrainProperties.
Context {R : Type} {RB : AgentCommentsBackend R} {HO : Host}.

Lemma knownTypes_cons entry rest :
  knownTypes (entry :: rest) = true ->
  (exists m, OfflineAwareBackend.methodOf (entry_type entry) = Some m) /\
  knownTypes rest = true.
Proof.
  unfold knownTypes. simpl. rewrite andb_true_iff. intros [Hm Hrest].
  split; [|done]. destruct (OfflineAwareBackend.methodOf _); [eauto|done].
Qed.

(** The loop of [drainOutbox] against the cycle described by [Drained]. *)
Lemma drainLoop_spec (queue : list OutboxEntry) (s : OfflineAwareBackend.t R) :
  OfflineAwareBackend.outbox s = queue ->
  knownTypes queue = true ->
  let s' := OfflineAwareBackend.drainLoop queue s in
  OfflineAwareBackend.core s' = OfflineAwareBackend.core s /\
  OfflineAwareBackend.suspended s' = OfflineAwareBackend.suspended s /\
  OfflineAwareBackend.draining s' = OfflineAwareBackend.draining s /\
  exists log,
    OfflineAwareBackend.sent s' = OfflineAwareBackend.sent s ++ log /\
    Drained (OfflineAwareBackend.wrapped s) queue log
      (OfflineAwareBackend.wrapped s') (OfflineAwareBackend.outbox s').
Proof.
  revert s. induction queue as [|entry rest IH]; intros s Hq Hknown; simpl.
  - repeat split. exists []. rewrite app_nil_r, Hq. split; [done|constructor].
  - assert (Hstop : OfflineAwareBackend.isConnected s = false ->
              connectionStatus (OfflineAwareBackend.wrapped s) <> Connected).
    { unfold OfflineAwareBackend.isConnected.
      by destruct (connectionStatus (OfflineAwareBackend.wrapped s)). }
    destruct (OfflineAwareBackend.isConnected s) eqn:Hconn.
    2:{ repeat split. exists []. rewrite app_nil_r, Hq.
        split; [done|]. by apply drained_not_connected, Hstop. }
    assert (Hc : connectionStatus (OfflineAwareBackend.wrapped s) = Connected).
    { unfold OfflineAwareBackend.isConnected in Hconn.
      by destruct (connectionStatus (OfflineAwareBackend.wrapped s)). }
    apply knownTypes_cons in Hknown as [[m Hm] Hrest].
    unfold OfflineAwareBackend.forwardToBackend, OfflineAwareBackend.callWrapped.
    rewrite Hm.
    destruct (call m (payload entry) (OfflineAwareBackend.wrapped s))
      as [w1 ok] eqn:Hcall.
    destruct ok.
    + edestruct (IH (OfflineAwareBackend.set_outbox rest
                       (OfflineAwareBackend.set_sent
                          (OfflineAwareBackend.sent s ++ [(m, payload entry, true)])
                          (OfflineAwareBackend.set_wrapped w1 s))))
        as (Hcore & Hsusp & Hdr & log & Hsent & Hdrained); [done|done|].
      unfold_updates.
      repeat split; [done|done|done|].
      exists ((m, payload entry, true) :: log). split.
      * by rewrite Hsent, <- app_assoc.
      * by eapply drained_success.
    + case_bool_decide as Hcap; simpl in Hcap.
      * edestruct (IH (OfflineAwareBackend.set_outbox rest
                         (OfflineAwareBackend.set_sent
                            (OfflineAwareBackend.sent s ++ [(m, payload entry, false)])
                            (OfflineAwareBackend.set_wrapped w1 s))))
          as (Hcore & Hsusp & Hdr & log & Hsent & Hdrained); [done|done|].
        unfold_updates.
        repeat split; [done|done|done|].
        exists ((m, payload entry, false) :: log). split.
        -- by rewrite Hsent, <- app_assoc.
        -- by eapply drained_discard.
      * unfold_updates. repeat split.
        exists [(m, payload entry, false)]. split; [done|].
        eapply drained_retry_later; [done|done|done|lia].
Qed.

(** A drain cycle sends the calls of a prefix of the queue, in queue order,
    and leaves the rest of the queue, behind the failed entry when it
    stopped on a failure. *)
Lemma Drained_fifo (w : R) queue log w' queue' :
  Drained w queue log w' queue' ->
  exists n : nat,
    log.*1 = omap requestOf (take n queue) /\
    (queue' = drop n queue \/
     exists entry, queue !! (n - 1)%nat = Some entry /\ (0 < n)%nat /\
       retryCount entry + 1 < MAX_RETRY_COUNT /\
       queue' = OfflineAwareBackend.bumpRetry entry :: drop n queue).
Proof.
  induction 1 as [w|w queue Hc|w entry rest m w1 log w' queue' Hc Hm Hcall _ IH
                  |w entry rest m w1 Hc Hm Hcall Hlt
                  |w entry rest m w1 log w' queue' Hc Hm Hcall Hge _ IH].
  - exists 0%nat. split; [done|by left].
  - exists 0%nat. split; [done|]. by left.
  - destruct IH as (n & Hlog & Hq). exists (S n). split.
    + simpl. unfold requestOf at 1. rewrite Hm. simpl. by f_equal.
    + destruct Hq as [->|(e & He & Hn & Hlt & ->)]; [by left|].
      right. exists e. repeat split; [|lia|done].
      destruct n; [lia|]. simpl in *. by rewrite Nat.sub_0_r in He.
  - exists 1%nat. split.
    + simpl. unfold requestOf. by rewrite Hm.
    + right. exists entry. repeat split; [lia|done].
  - destruct IH as (n & Hlog & Hq). exists (S n). split.
    + simpl. unfold requestOf at 1. rewrite Hm. simpl. by f_equal.
    + destruct Hq as [->|(e & He & Hn & Hlt & ->)]; [by left|].
      right. exists e. repeat split; [|lia|done].
      destruct n; [lia|]. simpl in *. by rewrite Nat.sub_0_r in He.
Qed.

(** C6 (outbox draining), as the code does it.  A drain cycle goes through
    the outbox from its head, in order and without skipping an entry: the
    calls it sends are those of a prefix of the outbox.  An entry whose call
    succeeds is removed.  An entry whose call fails has its [retryCount]
    incremented; while the count is below [MAX_RETRY_COUNT] (3) the entry
    stays at the head and the cycle stops; when the count reaches 3 the
    entry is discarded and the cycle goes on with the next entry.  The
    sidecar-first state (thread set, thread objects, vault, notifications)
    is not touched. *)
Theorem drainOutbox_fifo (s : OfflineAwareBackend.t R) :
  OfflineAwareBackend.draining s = false ->
  knownTypes (OfflineAwareBackend.outbox s) = true ->
  let s' := OfflineAwareBackend.drainOutbox s in
  OfflineAwareBackend.core s' = OfflineAwareBackend.core s /\
  OfflineAwareBackend.getThreads s' = OfflineAwareBackend.getThreads s /\
  exists log,
    OfflineAwareBackend.sent s' = OfflineAwareBackend.sent s ++ log /\
    Drained (OfflineAwareBackend.wrapped s) (OfflineAwareBackend.outbox s) log
      (OfflineAwareBackend.wrapped s') (OfflineAwareBackend.outbox s') /\
    exists n : nat,
      log.*1 = omap requestOf (take n (OfflineAwareBackend.outbox s)) /\
      (OfflineAwareBackend.outbox s' = drop n (OfflineAwareBackend.outbox s) \/
       exists entry,
         OfflineAwareBackend.outbox s !! (n - 1)%nat = Some entry /\ (0 < n)%nat /\
         retryCount entry + 1 < MAX_RETRY_COUNT /\
         OfflineAwareBackend.outbox s' =
           OfflineAwareBackend.bumpRetry entry :: drop n (OfflineAwareBackend.outbox s)).
Proof.
  intros Hdraining Hknown. unfold OfflineAwareBackend.drainOutbox.
  rewrite Hdraining. simpl orb.
  destruct (OfflineAwareBackend.outbox s) as [|entry rest] eqn:Hq.
  - simpl. repeat split. exists []. rewrite app_nil_r, Hq.
    split; [done|]. split; [constructor|]. exists 0%nat. split; [done|by left].
  - cbn [length Nat.eqb]. cbv iota.
    destruct (drainLoop_spec (entry :: rest) (OfflineAwareBackend.set_draining true s))
      as (Hcore & _ & _ & log & Hsent & Hdrained).
    { unfold_updates. by rewrite Hq. }
    { done. }
    unfold_updates. rewrite Hq.
    assert (Hcore' : OfflineAwareBackend.core
                       (OfflineAwareBackend.drainLoop (entry :: rest)
                          (OfflineAwareBackend.set_draining true s))
                     = OfflineAwareBackend.core s) by exact Hcore.
    split; [done|]. split.
    { unfold OfflineAwareBackend.getThreads. unfold_updates. by rewrite Hcore'. }
    exists log. split; [done|]. split; [done|].
    by apply Drained_fifo in Hdrained.
Qed.

End DrainProperties.

Section DrainWitnesses.
#[local] Existing Instance mockBackend.
#[local] Existing Instance sampleHost.

Lemma drainOutbox_fifo_witness :
  let s := sampleOffline (mkMock Connected false true) (sampleBackend Pending)
             [queuedMessage] in
  let s' := OfflineAwareBackend.drainOutbox s in
  OfflineAwareBackend.core s' = OfflineAwareBackend.core s /\
  OfflineAwareBackend.getThreads s' = [sampleThread Pending] /\
  OfflineAwareBackend.sent s' = [(AddMessage, payload queuedMessage, false)] /\
  OfflineAwareBackend.outbox s' = [OfflineAwareBackend.bumpRetry queuedMessage].
Proof.
  intros s s'.
  destruct (drainOutbox_fifo s) as (Hcore & Hthreads & log & Hsent & _ & _).
  - reflexivity.
  - vm_compute. reflexivity.
  - split; [exact Hcore|]. split; [exact Hthreads|].
    split; vm_compute; reflexivity.
Defined.

(** C6, the claim as stated, fails on the third failure of an entry: the
    call of [queuedCreate] fails, which takes its [retryCount] to 3; the
    entry is discarded and the same cycle goes on to send [queuedMessage]
    instead of stopping. *)
Lemma drainOutbox_goes_on_after_discard :
  let s := sampleOffline (mkMock Connected true false) (sampleBackend Pending)
             [queuedCreate; queuedMessage] in
  let s' := OfflineAwareBackend.drainOutbox s in
  (call CreateThread (payload queuedCreate) (OfflineAwareBackend.wrapped s)).2 = false /\
  OfflineAwareBackend.sent s' =
    [(CreateThread, payload queuedCreate, false);
     (AddMessage, payload queuedMessage, true)] /\
  OfflineAwareBackend.outbox s' = [] /\
  OfflineAwareBackend.sent s' <> [(CreateThread, payload queuedCreate, false)].
Proof.
  vm_compute. split; [reflexivity|]. split; [reflexivity|].
  split; [reflexivity|discriminate].
Qed.

(** The retry cap of tests/backend/offline.test.ts: an entry queued while
    offline is discarded by the third cycle against a backend that always
    fails, and the thread data stays. *)
Example drainOutbox_retry_cap :
  let s := sampleOffline (mkMock Connected false true) (sampleBackend Pending)
             [queuedMessage] in
  let s1 := OfflineAwareBackend.connectBackend s in
  let s2 := OfflineAwareBackend.connectBackend s1 in
  let s3 := OfflineAwareBackend.connectBackend s2 in
  retryCount <$> OfflineAwareBackend.outbox s1 = [1] /\
  retryCount <$> OfflineAwareBackend.outbox s2 = [2] /\
  OfflineAwareBackend.outbox s3 = [] /\
  OfflineAwareBackend.getThreads s3 = [sampleThread Pending].
Proof. vm_compute. repeat split; reflexivity. Qed.

End DrainWitnesses.

(** ** Incoming events *)

Section IncomingProperties.
Context {R : Type} {RB : AgentCommentsBackend R} {HO : Host}.

(** A thread whose id is already in the thread set is discarded. *)
Lemma handleIncomingThread_known_id (s : OfflineAwareBackend.t R) thread :
  existsb (fun t => bool_decide (id t = id thread)) (OfflineAwareBackend.getThreads s)
    = true ->
  OfflineAwareBackend.handleIncomingThread thread s = s.
Proof.
  intros Hknown. unfold OfflineAwareBackend.handleIncomingThread. by rewrite Hknown.
Qed.

(** A message whose id is already in its thread is discarded. *)
Lemma handleIncomingMessage_known_id (s : OfflineAwareBackend.t R) threadId message
    l thread :
  LocalBackend.findThread (OfflineAwareBackend.core s) threadId = Some (l, thread) ->
  existsb (fun m => bool_decide (msg_id m = msg_id message)) (messages thread) = true ->
  OfflineAwareBackend.handleIncomingMessage threadId message s = s.
Proof.
  intros Hthread Hknown. unfold OfflineAwareBackend.handleIncomingMessage.
  by rewrite Hthread, Hknown.
Qed.

Lemma handleIncomingMessage_unknown_thread (s : OfflineAwareBackend.t R) threadId message :
  LocalBackend.findThread (OfflineAwareBackend.core s) threadId = None ->
  OfflineAwareBackend.handleIncomingMessage threadId message s = s.
Proof.
  intros Hthread. unfold OfflineAwareBackend.handleIncomingMessage. by rewrite Hthread.
Qed.

End IncomingProperties.

Section IncomingEvaluation.
#[local] Existing Instance mockBackend.
#[local] Existing Instance sampleHost.

(** The deduplication scenario of tests/backend/offline.test.ts, with the
    re-anchoring task resumed before the thread comes again: one copy, one
    notification. *)
Example incoming_thread_twice_after_resume :
  let s0 := sampleOffline (mkMock Connected false false) (sampleBackend Pending) [] in
  let s1 := OfflineAwareBackend.reanchorAndAddThread_resume
              (OfflineAwareBackend.handleIncomingThread agentThread s0) in
  let s2 := OfflineAwareBackend.reanchorAndAddThread_resume
              (OfflineAwareBackend.handleIncomingThread agentThread s1) in
  OfflineAwareBackend.getThreads s2 = [sampleThread Pending; agentThread] /\
  LocalBackend.notified (OfflineAwareBackend.core s2)
    = [NewThreadNotification agentThread].
Proof. vm_compute. split; reflexivity. Qed.

(** C7 (incoming de-duplication).  The code at the failing input: with an
    active document, the same new thread is pushed twice before the
    re-anchoring task started by the first push has been resumed.  Both
    pushes pass the duplicate check, since the thread is only added when the
    task resumes; the thread is then stored twice and the callback fires
    twice. *)
Theorem incoming_thread_twice_before_resume :
  let s0 := sampleOffline (mkMock Connected false false) (sampleBackend Pending) [] in
  let s1 := OfflineAwareBackend.handleIncomingThread agentThread s0 in
  let s2 := OfflineAwareBackend.handleIncomingThread agentThread s1 in
  let s3 := OfflineAwareBackend.reanchorAndAddThread_resume
              (OfflineAwareBackend.reanchorAndAddThread_resume s2) in
  OfflineAwareBackend.getThreads s1 = [sampleThread Pending] /\
  OfflineAwareBackend.getThreads s3 = [sampleThread Pending; agentThread; agentThread] /\
  LocalBackend.notified (OfflineAwareBackend.core s3)
    = [NewThreadNotification agentThread; NewThreadNotification agentThread].
Proof. vm_compute. repeat split; reflexivity. Qed.

End IncomingEvaluation.

(** ** The life cycle of a suggestion

    A successful [acceptSuggestion] or [rejectSuggestion] leaves the
    suggestion in a state to which C2 applies: the next call on the same
    thread and message ids finds the decided suggestion. *)

Section SuggestionLifecycle.
Context {HO : Host}.

Lemma findIn_Some (heap : Store) ls threadId l thread :
  LocalBackend.findIn heap ls threadId = Some (l, thread) ->
  heap !! l = Some thread /\ id thread = threadId.
Proof.
  induction ls as [|a ls IH]; simpl; [done|].
  destruct (heap !! a) as [ta|] eqn:Ha; [|done].
  destruct (decide (id ta = threadId)); [|done].
  by intros [= <- <-].
Qed.

(** [find] by id sees the ids of the thread objects only. *)
Lemma findIn_same_ids (heap heap' : Store) ls threadId l thread :
  (forall l0 : loc, id <$> heap' !! l0 = id <$> heap !! l0) ->
  LocalBackend.findIn heap ls threadId = Some (l, thread) ->
  exists thread', heap' !! l = Some thread' /\
    LocalBackend.findIn heap' ls threadId = Some (l, thread').
Proof.
  intros Hids. induction ls as [|a ls IH]; simpl; [done|].
  pose proof (Hids a) as Ha.
  destruct (heap !! a) as [ta|] eqn:E, (heap' !! a) as [ta'|] eqn:E';
    rewrite ?E, ?E' in Ha; simpl in Ha; [|done|done|exact IH].
  injection Ha as Ha.
  destruct (decide (id ta = threadId)) as [Heq|Hne].
  - intros [= <- <-]. exists ta'. rewrite decide_True by congruence. done.
  - rewrite decide_False by congruence. done.
Qed.

Lemma findMessage_decided (ms : list ThreadMessage) messageId i m st :
  list_find (fun m => msg_id m = messageId) ms = Some (i, m) ->
  list_find (fun m => msg_id m = messageId) (alter (setSuggestionStatus st) i ms)
  = Some (i, setSuggestionStatus st m).
Proof.
  intros (Hi & Hid & Hfirst)%list_find_Some. apply list_find_Some.
  split; [by rewrite list_lookup_alter_eq, Hi|]. split; [done|].
  intros j y Hj Hlt. rewrite list_lookup_alter_ne in Hj by lia. by eapply Hfirst.
Qed.

Lemma sameButAnchor_refl (heap : Store) : sameButAnchor_holds heap heap.
Proof.
  intros l. destruct (heap !! l) as [t|]; [|done].
  exists (anchor t). by destruct t.
Qed.

Lemma shiftThread_sameButAnchor changeFrom changeTo delta (heap heap0 : Store) l :
  sameButAnchor_holds heap0 heap ->
  sameButAnchor_holds heap0 (shiftThread changeFrom changeTo delta heap l).
Proof.
  intros Hsame l0. specialize (Hsame l0). unfold shiftThread.
  destruct (heap !! l) as [t|] eqn:Hl; [|done].
  destruct (decide (l0 = l)) as [->|Hne].
  - rewrite list_lookup_insert_eq by (by eapply lookup_lt_Some).
    rewrite Hl in Hsame. destruct (heap0 !! l) as [t0|]; [|done].
    destruct Hsame as [a ->]. by eexists.
  - by rewrite list_lookup_insert_ne.
Qed.

Lemma shift_all_sameButAnchor changeFrom changeTo delta ls (heap heap0 : Store) :
  sameButAnchor_holds heap0 heap ->
  sameButAnchor_holds heap0 (fold_left (shiftThread changeFrom changeTo delta) ls heap).
Proof.
  revert heap. induction ls as [|a ls IH]; intros heap Hsame; simpl; [done|].
  by apply IH, shiftThread_sameButAnchor.
Qed.

Lemma applyOffsetShift_sameButAnchor (heap : Store) idx changeFrom changeTo insertLength :
  sameButAnchor_holds heap
    (applyOffsetShift heap idx changeFrom changeTo insertLength).1.
Proof.
  unfold applyOffsetShift. destruct (_ =? 0); simpl.
  - apply sameButAnchor_refl.
  - apply shift_all_sameButAnchor, sameButAnchor_refl.
Qed.

Lemma updateThread_found (b : LocalBackend.t) l f thread :
  LocalBackend.store b !! l = Some thread ->
  LocalBackend.updateThread l f b
  = LocalBackend.set_store (<[l := f thread]> (LocalBackend.store b)) b.
Proof. intros Hl. unfold LocalBackend.updateThread. by rewrite Hl. Qed.

(** An assignment to the thread at [l] followed by
    [thread.updatedAt = nowISO()]: what they leave at [l]. *)
Lemma update_and_touch (b : LocalBackend.t) l f thread :
  LocalBackend.store b !! l = Some thread ->
  let b' := LocalBackend.touch l (LocalBackend.updateThread l f b) in
  LocalBackend.activeFile b' = LocalBackend.activeFile b /\
  LocalBackend.threads b' = LocalBackend.threads b /\
  LocalBackend.vault b' = LocalBackend.vault b /\
  LocalBackend.store b' =
    <[l := setUpdatedAt (nowISO (LocalBackend.clockReads b)) (f thread)]>
      (LocalBackend.store b).
Proof.
  intros Hl. unfold LocalBackend.touch, LocalBackend.now.
  rewrite (updateThread_found b l _ thread Hl).
  erewrite updateThread_found.
  2:{ unfold_updates. apply list_lookup_insert_eq. by eapply lookup_lt_Some. }
  unfold_updates. repeat split. by rewrite list_insert_insert_eq.
Qed.

(** Step 5 of [acceptSuggestion] and the assignments of [rejectSuggestion]. *)
Lemma decide_and_touch (b : LocalBackend.t) l i st thread :
  LocalBackend.store b !! l = Some thread ->
  let b' := LocalBackend.touch l (LocalBackend.decideSuggestion l i st b) in
  LocalBackend.activeFile b' = LocalBackend.activeFile b /\
  LocalBackend.threads b' = LocalBackend.threads b /\
  LocalBackend.vault b' = LocalBackend.vault b /\
  LocalBackend.store b' =
    <[l := setUpdatedAt (nowISO (LocalBackend.clockReads b))
             (setMessages (alter (setSuggestionStatus st) i (messages thread)) thread)]>
      (LocalBackend.store b).
Proof.
  intros Hl. unfold LocalBackend.decideSuggestion.
  exact (update_and_touch b l _ thread Hl).
Qed.

Lemma persist_Ok (file : TFile) (b b' : LocalBackend.t) :
  LocalBackend.persist file b = (b', Ok tt) ->
  LocalBackend.activeFile b' = LocalBackend.activeFile b /\
  LocalBackend.threads b' = LocalBackend.threads b /\
  LocalBackend.store b' = LocalBackend.store b.
Proof.
  unfold LocalBackend.persist. destruct (saveImmediate _ _ _); [|done].
  intros [= <-]. by unfold_updates.
Qed.

(** The state after a decision has been recorded refuses another one. *)
Lemma decided_then_terminal (b b' : LocalBackend.t) threadId messageId
    file l thread thread' i m sg st :
  LocalBackend.findThread b threadId = Some (l, thread) ->
  LocalBackend.findMessage thread messageId = Some (i, m) ->
  suggestion m = Some sg ->
  st <> Pending ->
  LocalBackend.activeFile b' = Some file ->
  LocalBackend.threads b' = LocalBackend.threads b ->
  (forall l0 : loc,
     id <$> LocalBackend.store b' !! l0 = id <$> LocalBackend.store b !! l0) ->
  LocalBackend.store b' !! l = Some thread' ->
  messages thread' = alter (setSuggestionStatus st) i (messages thread) ->
  LocalBackend.acceptSuggestion threadId messageId b' = (b', Throw AlreadyDecided) /\
  LocalBackend.rejectSuggestion threadId messageId b' = (b', Throw AlreadyDecided).
Proof.
  intros Hthread Hmsg Hsg Hst Hfile Hthreads Hids Hl Hmessages.
  unfold LocalBackend.findThread in Hthread.
  destruct (findIn_same_ids _ (LocalBackend.store b') _ _ _ _ Hids Hthread)
    as (t'' & Hl' & Hfound).
  assert (t'' = thread') as -> by congruence.
  eapply (local_suggestion_already_decided b' threadId messageId file l thread' i
            (setSuggestionStatus st m)).
  - done.
  - unfold LocalBackend.findThread. by rewrite Hthreads.
  - unfold LocalBackend.findMessage. rewrite Hmessages.
    by apply findMessage_decided.
  - unfold setSuggestionStatus. simpl. by rewrite Hsg.
  - done.
Qed.

Lemma insert_same_ids (heap : Store) (l : loc) (thread thread' : CommentThread) :
  heap !! l = Some thread -> id thread' = id thread ->
  forall l0 : loc, id <$> <[l := thread']> heap !! l0 = id <$> heap !! l0.
Proof.
  intros Hl Hid l0. destruct (decide (l0 = l)) as [->|Hne].
  - rewrite list_lookup_insert_eq by (by eapply lookup_lt_Some).
    rewrite Hl. simpl. by rewrite Hid.
  - by rewrite list_lookup_insert_ne.
Qed.

(** X2. After a [rejectSuggestion] that has succeeded, [acceptSuggestion]
    and [rejectSuggestion] on the same thread and message ids both throw the
    already-decided error and leave the state as it is. *)
Lemma rejectSuggestion_then_terminal (b b' : LocalBackend.t) threadId messageId :
  LocalBackend.rejectSuggestion threadId messageId b = (b', Ok tt) ->
  LocalBackend.acceptSuggestion threadId messageId b' = (b', Throw AlreadyDecided) /\
  LocalBackend.rejectSuggestion threadId messageId b' = (b', Throw AlreadyDecided).
Proof.
  unfold LocalBackend.rejectSuggestion at 1.
  destruct (LocalBackend.activeFile b) as [file|] eqn:Hfile; [|done].
  destruct (LocalBackend.findThread b threadId) as [[l thread]|] eqn:Hthread; [|done].
  destruct (LocalBackend.findMessage thread messageId) as [[i m]|] eqn:Hmsg; [|done].
  destruct (suggestion m) as [sg|] eqn:Hsg; [|done].
  destruct (negb (LocalBackend.isPending sg)); [done|].
  intros Hpersist.
  pose proof (findIn_Some _ _ _ _ _ Hthread) as [Hl Hid].
  destruct (decide_and_touch b l i Rejected thread Hl) as (Hf1 & Ht1 & _ & Hs1).
  apply persist_Ok in Hpersist as (Hf2 & Ht2 & Hs2).
  eapply (decided_then_terminal b b' threadId messageId file l thread _ i m sg Rejected);
    try done.
  - congruence.
  - congruence.
  - intros l0. rewrite Hs2, Hs1. by apply (insert_same_ids _ _ thread).
  - rewrite Hs2, Hs1. apply list_lookup_insert_eq. by eapply lookup_lt_Some.
  - done.
Qed.

(** X3. After an [acceptSuggestion] that has succeeded, [acceptSuggestion]
    and [rejectSuggestion] on the same thread and message ids both throw the
    already-decided error and leave the state as it is: the replacement is
    not made a second time. *)
Lemma acceptSuggestion_then_terminal (b b' : LocalBackend.t) threadId messageId :
  LocalBackend.acceptSuggestion threadId messageId b = (b', Ok tt) ->
  LocalBackend.acceptSuggestion threadId messageId b' = (b', Throw AlreadyDecided) /\
  LocalBackend.rejectSuggestion threadId messageId b' = (b', Throw AlreadyDecided).
Proof.
  unfold LocalBackend.acceptSuggestion at 1.
  destruct (LocalBackend.activeFile b) as [file|] eqn:Hfile; [|done].
  destruct (LocalBackend.findThread b threadId) as [[l thread]|] eqn:Hthread; [|done].
  destruct (LocalBackend.findMessage thread messageId) as [[i m]|] eqn:Hmsg; [|done].
  destruct (suggestion m) as [sg|] eqn:Hsg; [|done].
  destruct (negb (LocalBackend.isPending sg)); [done|].
  destruct (negb (includes _ _)); [done|].
  pose proof (findIn_Some _ _ _ _ _ Hthread) as [Hl Hid].
  set (replaceStart := startOffset (anchor thread) + _).
  set (replaceEnd := replaceStart + _).
  set (b1 := LocalBackend.set_vault _ b).
  set (b2 := if negb (_ =? 0) then _ else b1).
  intros Hpersist.
  (* the store of [b2] differs from the store of [b] in anchors at most *)
  assert (Hsame : sameButAnchor_holds (LocalBackend.store b) (LocalBackend.store b2)
                  /\ LocalBackend.threads b2 = LocalBackend.threads b
                  /\ LocalBackend.activeFile b2 = LocalBackend.activeFile b).
  { subst b2. destruct (negb (_ =? 0)).
    - pose proof (applyOffsetShift_sameButAnchor (LocalBackend.store b1)
                    (LocalBackend.anchorIndex b1) replaceStart replaceEnd
                    (Z.of_nat (length (replacementText sg)))) as Hshift.
      destruct (applyOffsetShift _ _ _ _ _) as [heap idx]. by unfold_updates.
    - subst b1. unfold_updates. split; [apply sameButAnchor_refl|done]. }
  destruct Hsame as (Hsame & Ht0 & Hf0).
  pose proof (Hsame l) as Hsl. rewrite Hl in Hsl.
  destruct (LocalBackend.store b2 !! l) as [thread2|] eqn:Hl2; [|done].
  destruct Hsl as [a ->].
  destruct (decide_and_touch b2 l i Accepted _ Hl2) as (Hf1 & Ht1 & _ & Hs1).
  apply persist_Ok in Hpersist as (Hf2 & Ht2 & Hs2).
  eapply (decided_then_terminal b b' threadId messageId file l thread _ i m sg Accepted);
    try done.
  - congruence.
  - congruence.
  - intros l0. rewrite Hs2, Hs1.
    rewrite (insert_same_ids _ _ (setAnchor a thread)) by done.
    specialize (Hsame l0).
    destruct (LocalBackend.store b !! l0), (LocalBackend.store b2 !! l0); try done.
    destruct Hsame as [a0 ->]. done.
  - rewrite Hs2, Hs1. apply list_lookup_insert_eq. by eapply lookup_lt_Some.
  - done.
Qed.

End SuggestionLifecycle.

(** ** Incoming events delivered twice

    A second delivery that comes after the first has been merged is
    discarded: always for a message, whose merge is synchronous, and for a
    thread once the thread has been added. *)

Section IncomingTwice.
Context {R : Type} {RB : AgentCommentsBackend R} {HO : Host}.

Lemma getThreads_notify registered n (b : LocalBackend.t) :
  LocalBackend.getThreads (LocalBackend.notify registered n b)
  = LocalBackend.getThreads b.
Proof. by destruct registered. Qed.

Lemma saveUnobserved_store (c : LocalBackend.t) :
  LocalBackend.store (OfflineAwareBackend.saveUnobserved c) = LocalBackend.store c /\
  LocalBackend.threads (OfflineAwareBackend.saveUnobserved c) = LocalBackend.threads c.
Proof.
  unfold OfflineAwareBackend.saveUnobserved, LocalBackend.persist.
  destruct (LocalBackend.activeFile c); [|done].
  by destruct (saveImmediate _ _ _).
Qed.

Lemma getThreads_saveUnobserved (c : LocalBackend.t) :
  LocalBackend.getThreads (OfflineAwareBackend.saveUnobserved c)
  = LocalBackend.getThreads c.
Proof.
  unfold LocalBackend.getThreads.
  destruct (saveUnobserved_store c) as [-> ->]. done.
Qed.

Lemma addIncoming_elem_of thread (c : LocalBackend.t) :
  thread ∈ LocalBackend.getThreads (OfflineAwareBackend.addIncoming thread c).
Proof. apply pushThread_elem_of. Qed.

Lemma known_after_merge thread thread' (ts : list CommentThread) :
  thread' ∈ ts -> id thread' = id thread ->
  existsb (fun t => bool_decide (id t = id thread)) ts = true.
Proof.
  intros Hin Hid. apply existsb_exists. exists thread'.
  split; [by apply list_elem_of_In|]. by apply bool_decide_eq_true.
Qed.

(** X4. A message delivered twice is merged once: [handleIncomingMessage]
    on the state left by the same delivery changes nothing. *)
Lemma handleIncomingMessage_twice (s : OfflineAwareBackend.t R) threadId message :
  OfflineAwareBackend.handleIncomingMessage threadId message
    (OfflineAwareBackend.handleIncomingMessage threadId message s)
  = OfflineAwareBackend.handleIncomingMessage threadId message s.
Proof.
  destruct (LocalBackend.findThread (OfflineAwareBackend.core s) threadId)
    as [[l thread]|] eqn:Hthread.
  2:{ by rewrite !(handleIncomingMessage_unknown_thread s threadId message Hthread). }
  destruct (existsb (fun m => bool_decide (msg_id m = msg_id message)) (messages thread))
    eqn:Hknown.
  { by rewrite !(handleIncomingMessage_known_id s threadId message l thread
                   Hthread Hknown). }
  pose proof (findIn_Some _ _ _ _ _ Hthread) as [Hl Hid].
  unfold OfflineAwareBackend.handleIncomingMessage at 2 3. rewrite Hthread, Hknown.
  set (f := fun t => setMessages (messages t ++ [message]) t).
  destruct (update_and_touch (OfflineAwareBackend.core s) l f thread Hl)
    as (_ & Hthreads & _ & Hstore).
  set (c1 := LocalBackend.touch l _) in *.
  destruct (saveUnobserved_store c1) as [Hstore2 Hthreads2].
  set (c2 := OfflineAwareBackend.saveUnobserved c1) in *.
  set (thread1 := setUpdatedAt (nowISO (LocalBackend.clockReads (OfflineAwareBackend.core s)))
                    (f thread)) in *.
  eapply (handleIncomingMessage_known_id _ threadId message l thread1).
  - unfold LocalBackend.findThread in *.
    assert (Hs : LocalBackend.store
                   (OfflineAwareBackend.core
                      (OfflineAwareBackend.set_core
                         (LocalBackend.notify (LocalBackend.onNewMessageCallback c2)
                            (NewMessageNotification threadId message) c2) s))
                 = <[l := thread1]> (LocalBackend.store (OfflineAwareBackend.core s))).
    { unfold_updates. destruct (LocalBackend.onNewMessageCallback c2);
        unfold_updates; congruence. }
    assert (Ht : LocalBackend.threads
                   (OfflineAwareBackend.core
                      (OfflineAwareBackend.set_core
                         (LocalBackend.notify (LocalBackend.onNewMessageCallback c2)
                            (NewMessageNotification threadId message) c2) s))
                 = LocalBackend.threads (OfflineAwareBackend.core s)).
    { unfold_updates. destruct (LocalBackend.onNewMessageCallback c2);
        unfold_updates; congruence. }
    rewrite Hs, Ht.
    destruct (findIn_same_ids _
                (<[l := thread1]> (LocalBackend.store (OfflineAwareBackend.core s)))
                _ _ _ _ (insert_same_ids _ l thread thread1 Hl eq_refl) Hthread)
      as (t' & Hl' & Hfound).
    rewrite list_lookup_insert_eq in Hl' by (by eapply lookup_lt_Some).
    by injection Hl' as <-.
  - subst thread1 f. simpl. rewrite existsb_app. simpl.
    rewrite bool_decide_eq_true_2 by done. by rewrite orb_true_r.
Qed.

(** Without an active document a thread is merged synchronously, and a
    thread delivered twice is merged once. *)
Lemma handleIncomingThread_twice_no_document (s : OfflineAwareBackend.t R) thread :
  LocalBackend.activeFile (OfflineAwareBackend.core s) = None ->
  OfflineAwareBackend.handleIncomingThread thread
    (OfflineAwareBackend.handleIncomingThread thread s)
  = OfflineAwareBackend.handleIncomingThread thread s.
Proof.
  intros Hfile.
  destruct (existsb (fun t => bool_decide (id t = id thread))
              (OfflineAwareBackend.getThreads s)) eqn:Hknown.
  { by rewrite !(handleIncomingThread_known_id s thread Hknown). }
  unfold OfflineAwareBackend.handleIncomingThread at 2 3. rewrite Hknown, Hfile.
  apply handleIncomingThread_known_id.
  apply (known_after_merge thread thread); [|done].
  unfold OfflineAwareBackend.getThreads. unfold_updates.
  rewrite getThreads_notify. apply addIncoming_elem_of.
Qed.

(** X5. With an active document and no re-anchoring task suspended, a
    thread delivered again after the re-anchoring task of its first delivery
    has been resumed is discarded: the state stays as that task left it. *)
Lemma handleIncomingThread_twice_after_resume (s : OfflineAwareBackend.t R) thread file :
  LocalBackend.activeFile (OfflineAwareBackend.core s) = Some file ->
  OfflineAwareBackend.suspended s = [] ->
  let s1 := OfflineAwareBackend.reanchorAndAddThread_resume
              (OfflineAwareBackend.handleIncomingThread thread s) in
  OfflineAwareBackend.handleIncomingThread thread s1 = s1.
Proof.
  intros Hfile Hsusp s1. subst s1.
  destruct (existsb (fun t => bool_decide (id t = id thread))
              (OfflineAwareBackend.getThreads s)) eqn:Hknown.
  { rewrite (handleIncomingThread_known_id s thread Hknown).
    unfold OfflineAwareBackend.reanchorAndAddThread_resume. rewrite Hsusp.
    by apply handleIncomingThread_known_id. }
  unfold OfflineAwareBackend.handleIncomingThread at 2 3. rewrite Hknown, Hfile, Hsusp.
  unfold OfflineAwareBackend.reanchorAndAddThread_resume. unfold_updates.
  cbn [app].
  set (content := vaultRead _ file).
  set (thread' := match resolveAnchor (anchor thread) content with
                  | Some resolved =>
                    setAnchor (setOffsets (r_startOffset resolved) (r_endOffset resolved)
                                 (anchor thread)) thread
                  | None => thread
                  end).
  assert (Hid : id thread' = id thread).
  { subst thread'. by destruct (resolveAnchor _ _). }
  apply handleIncomingThread_known_id.
  apply (known_after_merge thread thread'); [|done].
  unfold OfflineAwareBackend.getThreads. unfold_updates.
  rewrite getThreads_notify, getThreads_saveUnobserved. apply addIncoming_elem_of.
Qed.

End IncomingTwice.

(** ** The replacement site of an accepted suggestion

    When [acceptSuggestion] succeeds on an anchor that lies in the document,
    the text replaced is the first occurrence of [originalText] inside the
    anchor range: the site starts and ends within the range, [originalText]
    stands there, and the rest of the document is kept. *)

Section ReplacementSite.
Context {HO : Host}.

Lemma length_sidecar_extension : length SIDECAR_EXTENSION = 20%nat.
Proof. reflexivity. Qed.

(** The sidecar of a document is another file than the document. *)
Lemma sidecarPath_fresh (p : jsstring) : slice p 0 (-3) ++ SIDECAR_EXTENSION <> p.
Proof.
  intros Heq. apply (f_equal length) in Heq.
  rewrite length_app, length_sidecar_extension in Heq.
  unfold slice, relIndex in Heq. simpl in Heq.
  rewrite length_take, length_drop in Heq. lia.
Qed.

Lemma vaultRead_after_save (vault : Vault) (file : TFile) newContent threads :
  vaultRead
    (writeFile (vaultModify vault (path file) newContent)
       (slice (path file) 0 (-3) ++ SIDECAR_EXTENSION) (path file) threads)
    file
  = newContent.
Proof.
  unfold vaultRead, writeFile, vaultModify, vaultCreate.
  pose proof (sidecarPath_fresh (path file)) as Hfresh.
  destruct (_ !! (slice (path file) 0 (-3) ++ SIDECAR_EXTENSION)) as [[?|]|];
    rewrite lookup_insert_ne by done; by rewrite lookup_insert_eq.
Qed.

(** X6. [acceptSuggestion] on a markdown document, for a pending suggestion
    whose [originalText] occurs inside the anchor range of its thread and an
    anchor range that lies in the document, succeeds; the text it replaces
    is an occurrence of [originalText] that starts and ends inside the
    anchor range, and the document before and after that occurrence is
    kept. *)
Lemma acceptSuggestion_replaces_within_anchor (b : LocalBackend.t)
    threadId messageId file l thread i m sg :
  let doc := vaultRead (LocalBackend.vault b) file in
  let s := startOffset (anchor thread) in
  let e := endOffset (anchor thread) in
  LocalBackend.activeFile b = Some file ->
  extension file = str "md" ->
  LocalBackend.findThread b threadId = Some (l, thread) ->
  LocalBackend.findMessage thread messageId = Some (i, m) ->
  suggestion m = Some sg ->
  sg_status sg = Pending ->
  0 <= s -> s <= e -> e <= Z.of_nat (length doc) ->
  isSubstring (originalText sg) (slice doc s e) ->
  exists (k : nat) b',
    LocalBackend.acceptSuggestion threadId messageId b = (b', Ok tt) /\
    s + Z.of_nat k + Z.of_nat (length (originalText sg)) <= e /\
    occursAt doc (originalText sg) (Z.to_nat s + k) /\
    vaultRead (LocalBackend.vault b') file
    = take (Z.to_nat s + k) doc ++ replacementText sg
        ++ drop (Z.to_nat s + k + length (originalText sg)) doc.
Proof.
  intros doc s e Hfile Hext Hthread Hmsg Hsg Hpending Hs Hse He Hsub.
  apply includes_spec in Hsub.
  pose proof (findIn_Some _ _ _ _ _ Hthread) as [Hl _].
  assert (Hslice : slice doc s e = take (Z.to_nat e - Z.to_nat s) (drop (Z.to_nat s) doc))
    by (by apply slice_in_range).
  destruct (indexOf (slice doc s e) (originalText sg) 0) as [k|] eqn:Hidx.
  2:{ unfold includes in Hsub. by rewrite Hidx in Hsub. }
  apply indexOf_bound in Hidx as Hk. destruct Hk as [Hocc Hbound].
  rewrite Hslice in Hocc, Hbound.
  rewrite length_take, length_drop in Hbound.
  apply occursAt_in_slice in Hocc; [|lia].
  unfold LocalBackend.acceptSuggestion.
  rewrite Hfile, Hthread, Hmsg, Hsg.
  unfold LocalBackend.isPending. rewrite Hpending. cbn [negb].
  fold doc s e. rewrite Hsub. cbn [negb].
  unfold LocalBackend.indexOfZ. rewrite Hidx.
  set (newContent := slice doc 0 _ ++ _ ++ sliceFrom doc _).
  assert (HnewContent : newContent
            = take (Z.to_nat s + k) doc ++ replacementText sg
                ++ drop (Z.to_nat s + k + length (originalText sg)) doc).
  { subst newContent. unfold sliceFrom. rewrite slice_in_range by lia.
    rewrite relIndex_in_range by lia. rewrite drop_0.
    repeat f_equal; lia. }
  set (b1 := LocalBackend.set_vault _ b).
  set (b2 := if negb (_ =? 0) then _ else b1).
  assert (Hb2 : LocalBackend.vault b2 = vaultModify (LocalBackend.vault b) (path file) newContent
                /\ LocalBackend.store b2 !! l <> None).
  { subst b2. destruct (negb (_ =? 0)).
    - match goal with
      | |- context [applyOffsetShift ?h ?ix ?a ?c ?d] =>
          pose proof (applyOffsetShift_sameButAnchor h ix a c d) as Hshift;
          destruct (applyOffsetShift h ix a c d) as [heap idx]
      end.
      subst b1. unfold_updates. split; [done|].
      specialize (Hshift l). simpl in Hshift. rewrite Hl in Hshift.
      by destruct (heap !! l).
    - subst b1. unfold_updates. split; [done|]. by rewrite Hl. }
  destruct Hb2 as [Hvault2 Hl2].
  destruct (LocalBackend.store b2 !! l) as [thread2|] eqn:Hl2'; [|done].
  destruct (decide_and_touch b2 l i Accepted thread2 Hl2') as (_ & _ & Hvault3 & _).
  set (b3 := LocalBackend.touch l _) in *.
  unfold LocalBackend.persist, saveImmediate.
  rewrite (getPath_markdown _ Hext).
  exists k. eexists. split; [reflexivity|]. split; [lia|]. split; [done|].
  unfold_updates. rewrite Hvault3, Hvault2, <- HnewContent.
  apply vaultRead_after_save.
Qed.

End ReplacementSite.

(** ** The types of the queued entries

    [knownTypes] holds of the empty outbox and is kept by every method that
    changes the outbox, so it holds of every outbox the wrapper can reach. *)

Section KnownTypes.
Context {R : Type} {RB : AgentCommentsBackend R} {HO : Host}.

Lemma knownTypes_app queue queue' :
  knownTypes (queue ++ queue') = knownTypes queue && knownTypes queue'.
Proof. unfold knownTypes. apply forallb_app. Qed.

Lemma knownTypes_drop queue n :
  knownTypes queue = true -> knownTypes (drop n queue) = true.
Proof.
  revert n. induction queue as [|e queue IH]; intros [|n] Hk; simpl; try done.
  apply IH. unfold knownTypes in *. simpl in Hk.
  by apply andb_true_iff in Hk as [_ ?].
Qed.

Lemma forwardOrQueue_knownTypes type m p m' (s : OfflineAwareBackend.t R) :
  OfflineAwareBackend.methodOf type = Some m' ->
  knownTypes (OfflineAwareBackend.outbox s) = true ->
  knownTypes (OfflineAwareBackend.outbox (OfflineAwareBackend.forwardOrQueue type m p s))
  = true.
Proof.
  intros Hm Hk.
  assert (Hq : forall s0 : OfflineAwareBackend.t R,
             knownTypes (OfflineAwareBackend.outbox s0) = true ->
             knownTypes (OfflineAwareBackend.outbox (OfflineAwareBackend.enqueue type p s0))
             = true).
  { intros s0 Hk0. unfold OfflineAwareBackend.enqueue, LocalBackend.now. unfold_updates.
    rewrite knownTypes_app, Hk0. unfold knownTypes. simpl. by rewrite Hm. }
  unfold OfflineAwareBackend.forwardOrQueue, OfflineAwareBackend.callWrapped.
  destruct (OfflineAwareBackend.isConnected s); [|by apply Hq].
  destruct (call m p (OfflineAwareBackend.wrapped s)) as [w [|]]; [done|].
  by apply Hq.
Qed.

Lemma sidecarFirst_knownTypes {A} (local : LocalBackend.M A) type m p m'
    (s : OfflineAwareBackend.t R) :
  OfflineAwareBackend.methodOf type = Some m' ->
  knownTypes (OfflineAwareBackend.outbox s) = true ->
  knownTypes (OfflineAwareBackend.outbox
                (OfflineAwareBackend.sidecarFirst local type m p s).1) = true.
Proof.
  intros Hm Hk. unfold OfflineAwareBackend.sidecarFirst.
  destruct (local (OfflineAwareBackend.core s)) as [c [a|e]]; simpl; [|done].
  by eapply forwardOrQueue_knownTypes.
Qed.

Lemma methods_keep_knownTypes (s : OfflineAwareBackend.t R) :
  knownTypes (OfflineAwareBackend.outbox s) = true ->
  (forall a fm,
     knownTypes (OfflineAwareBackend.outbox (OfflineAwareBackend.createThread a fm s).1)
     = true) /\
  (forall t m,
     knownTypes (OfflineAwareBackend.outbox (OfflineAwareBackend.addMessage t m s).1)
     = true) /\
  (forall t,
     knownTypes (OfflineAwareBackend.outbox (OfflineAwareBackend.resolveThread t s).1)
     = true) /\
  (forall t,
     knownTypes (OfflineAwareBackend.outbox (OfflineAwareBackend.reopenThread t s).1)
     = true) /\
  (forall t m,
     knownTypes (OfflineAwareBackend.outbox (OfflineAwareBackend.acceptSuggestion t m s).1)
     = true) /\
  (forall t m,
     knownTypes (OfflineAwareBackend.outbox (OfflineAwareBackend.rejectSuggestion t m s).1)
     = true).
Proof.
  intros Hk. repeat split; intros; by eapply sidecarFirst_knownTypes.
Qed.

Lemma drainLoop_knownTypes (queue : list OutboxEntry) (s : OfflineAwareBackend.t R) :
  OfflineAwareBackend.outbox s = queue ->
  knownTypes queue = true ->
  knownTypes (OfflineAwareBackend.outbox (OfflineAwareBackend.drainLoop queue s)) = true.
Proof.
  revert s. induction queue as [|entry rest IH]; intros s Hq Hk; simpl.
  - by rewrite Hq.
  - destruct (OfflineAwareBackend.isConnected s); [|by rewrite Hq].
    pose proof Hk as Hk'. apply knownTypes_cons in Hk' as [_ Hrest].
    destruct (OfflineAwareBackend.forwardToBackend entry s) as [s1 [|]].
    + by apply IH.
    + case_bool_decide; [by apply IH|]. unfold_updates.
      unfold knownTypes in *. simpl in *.
      apply andb_true_iff in Hk as [He _]. by rewrite He, Hrest.
Qed.

Lemma drainOutbox_knownTypes (s : OfflineAwareBackend.t R) :
  knownTypes (OfflineAwareBackend.outbox s) = true ->
  knownTypes (OfflineAwareBackend.outbox (OfflineAwareBackend.drainOutbox s)) = true.
Proof.
  intros Hk. unfold OfflineAwareBackend.drainOutbox.
  destruct (_ || _); [done|]. unfold_updates.
  by apply drainLoop_knownTypes.
Qed.

End KnownTypes.

(** ** What a resolved anchor denotes

    Every layer of [resolveAnchor] answers with a place at which the anchor
    text stands in the document. *)

Lemma exactMatch_sound anchor doc :
  exactMatch anchor doc = true ->
  0 <= startOffset anchor /\ startOffset anchor < endOffset anchor /\
  endOffset anchor <= Z.of_nat (length doc) /\
  slice doc (startOffset anchor) (endOffset anchor) = anchorText anchor /\
  endOffset anchor - startOffset anchor = Z.of_nat (length (anchorText anchor)).
Proof.
  unfold exactMatch. rewrite !andb_true_iff, bool_decide_eq_true.
  intros [[[Hs He] Hlt] Heq]. apply Z.leb_le in Hs, He. apply Z.ltb_lt in Hlt.
  repeat split; try done.
  rewrite <- Heq. symmetry. apply length_slice_in_range; lia.
Qed.

Lemma slice_occursAt doc needle (k : nat) :
  occursAt doc needle k -> (k + length needle <= length doc)%nat ->
  slice doc (Z.of_nat k) (Z.of_nat k + Z.of_nat (length needle)) = needle.
Proof.
  intros Hocc Hle. rewrite slice_in_range by lia.
  replace (Z.to_nat (Z.of_nat k + Z.of_nat (length needle)) - Z.to_nat (Z.of_nat k))%nat
    with (length needle) by lia.
  rewrite Nat2Z.id. exact Hocc.
Qed.

Lemma occursAt_of_slice doc needle (s e : Z) :
  0 <= s -> s <= e -> e <= Z.of_nat (length doc) ->
  slice doc s e = needle -> occursAt doc needle (Z.to_nat s).
Proof.
  intros Hs Hse He Heq. unfold occursAt.
  pose proof (length_slice_in_range doc s e Hs Hse He) as Hlen.
  rewrite Heq in Hlen. rewrite <- Heq at 2.
  rewrite slice_in_range by done. f_equal. lia.
Qed.

Lemma findClosestMatch_Some needle doc p k :
  findClosestMatch needle doc p = Some k ->
  needle <> [] /\ occursAt doc needle k /\ (k + length needle <= length doc)%nat.
Proof.
  intros Hfind. assert (Hne : needle <> []).
  { intros ->. by rewrite findClosestMatch_empty in Hfind. }
  pose proof (findClosestMatch_spec needle doc p Hne) as Hspec.
  rewrite Hfind in Hspec. destruct Hspec as (_ & Hocc & _).
  split; [done|]. split; [done|].
  by apply occursAt_bound in Hocc as [? _].
Qed.

Lemma length_slice_of_nat (doc : jsstring) (a b : nat) :
  (a <= length doc)%nat ->
  (a + length (slice doc (Z.of_nat a) (Z.of_nat b)) <= length doc)%nat.
Proof.
  intros Ha. unfold slice. rewrite !relIndex_of_nat, length_take, length_drop. lia.
Qed.

Lemma resolveViaHeading_Some needle doc heading k :
  resolveViaHeading needle doc heading = Some k ->
  occursAt doc needle k /\ (k + length needle <= length doc)%nat.
Proof.
  unfold resolveViaHeading.
  destruct (indexOf doc heading 0) as [headingIdx|] eqn:Hh; [|done].
  apply indexOf_bound in Hh as [_ Hhb].
  destruct (indexOf (slice doc _ _) needle 0) as [localIdx|] eqn:Hidx; [|done].
  intros [= <-]. apply indexOf_bound in Hidx as [Hocc Hb].
  match type of Hb with
  | (_ <= length (slice doc (Z.of_nat ?a) (Z.of_nat ?b)))%nat =>
    pose proof (length_slice_of_nat doc a b ltac:(lia)) as Hlen
  end.
  destruct (decide (needle = [])) as [->|Hne].
  - split; [unfold occursAt; by rewrite take_0|]. simpl in *. lia.
  - apply occursAt_slice in Hocc; [|done]. split; [done|].
    by apply occursAt_bound in Hocc as [? _].
Qed.

(** The place a resolved anchor denotes, whatever layer found it. *)
Lemma resolveAnchor_Some_occurs anchor doc r :
  resolveAnchor anchor doc = Some r ->
  exists k : nat,
    r = mkResolved (Z.of_nat k) (Z.of_nat k + Z.of_nat (length (anchorText anchor)))
          (method r) /\
    occursAt doc (anchorText anchor) k /\
    (k + length (anchorText anchor) <= length doc)%nat.
Proof.
  unfold resolveAnchor. destruct (length doc =? 0)%nat; [done|].
  destruct (exactMatch anchor doc) eqn:Hexact.
  - intros [= <-]. apply exactMatch_sound in Hexact as (Hs & Hlt & He & Heq & Hlen).
    exists (Z.to_nat (startOffset anchor)). simpl. split; [f_equal; lia|].
    split; [|lia].
    apply (occursAt_of_slice doc _ (startOffset anchor) (endOffset anchor)); [done|lia|done|done].
  - destruct (findClosestMatch _ _ _) as [k|] eqn:Hfind.
    + intros [= <-]. apply findClosestMatch_Some in Hfind as (_ & Hocc & Hle).
      by exists k.
    + destruct (truthyHeading _) as [heading|]; [|done].
      destruct (resolveViaHeading _ _ _) as [h|] eqn:Hvia; [|done].
      intros [= <-]. apply resolveViaHeading_Some in Hvia as [Hocc Hle].
      by exists h.
Qed.



(** On integer offsets: a thread with a non-empty anchor text is orphaned
    exactly when its anchor text occurs nowhere in the document. *)
Lemma resolveAnchor_orphaned_iff_integers (anchor : TextAnchor) (doc : jsstring) :
  anchorText anchor <> [] ->
  (resolveAnchor anchor doc = None <-> ~ isSubstring (anchorText anchor) doc).
Proof.
  intros Hne. split.
  - intros Hnone [k Hocc].
    destruct (exactMatch anchor doc) eqn:Hexact.
    + unfold resolveAnchor in Hnone. rewrite Hexact in Hnone.
      destruct (length doc =? 0)%nat eqn:Hlen; [|done].
      apply Nat.eqb_eq in Hlen. apply occursAt_bound in Hocc as [_ ?]; [lia|done].
    + destruct (resolveAnchor_text_search anchor doc Hne Hexact) as (r & Hr & _).
      { by exists k. }
      by rewrite Hr in Hnone.
  - intros Hnot. destruct (resolveAnchor anchor doc) as [r|] eqn:Hres; [|done].
    apply resolveAnchor_Some_occurs in Hres as (k & _ & Hocc & _).
    exfalso. apply Hnot. by exists k.
Qed.


(** ** Re-anchoring a thread list *)

(** Resolving again at the offsets just resolved gives the same offsets. *)
Lemma resolveAnchor_stable anchor doc r :
  resolveAnchor anchor doc = Some r ->
  exists m,
    resolveAnchor (setOffsets (r_startOffset r) (r_endOffset r) anchor) doc
    = Some (mkResolved (r_startOffset r) (r_endOffset r) m).
Proof.
  intros Hres. destruct (decide (anchorText anchor = [])) as [Hempty|Hne].
  - assert (Hdoc : doc <> []).
    { intros ->. by unfold resolveAnchor in Hres. }
    exists (method r).
    rewrite resolveAnchor_empty_anchorText by done.
    rewrite resolveAnchor_empty_anchorText in Hres by done.
    cbn [sectionHeading setOffsets]. rewrite Hres. by destruct r.
  - apply resolveAnchor_Some_occurs in Hres as (k & -> & Hocc & Hle).
    cbn [r_startOffset r_endOffset]. exists Exact.
    assert (0 < length (anchorText anchor))%nat
      by (destruct (anchorText anchor); [done|simpl; lia]).
    unfold resolveAnchor.
    destruct (length doc =? 0)%nat eqn:Hlen; [apply Nat.eqb_eq in Hlen; lia|].
    assert (exactMatch
              (setOffsets (Z.of_nat k)
                 (Z.of_nat k + Z.of_nat (length (anchorText anchor))) anchor) doc
            = true) as ->; [|done].
    unfold exactMatch. cbn [startOffset endOffset anchorText setOffsets].
    rewrite !andb_true_iff, bool_decide_eq_true.
    repeat split; [apply Z.leb_le; lia|apply Z.leb_le; lia|apply Z.ltb_lt; lia|].
    by apply slice_occursAt.
Qed.

Lemma reanchored_idemp content thread :
  reanchored content (reanchored content thread) = reanchored content thread.
Proof.
  unfold reanchored at 2 3.
  destruct (resolveAnchor (anchor thread) content) as [r|] eqn:Hres.
  - destruct (resolveAnchor_stable _ _ _ Hres) as [m Hm].
    unfold reanchored. cbn [anchor setAnchor]. by rewrite Hm.
  - unfold reanchored. by rewrite Hres.
Qed.

Lemma reanchored_resolves content thread :
  match resolveAnchor (anchor (reanchored content thread)) content with
  | Some _ => true
  | None => false
  end
  = match resolveAnchor (anchor thread) content with
    | Some _ => true
    | None => false
    end.
Proof.
  unfold reanchored.
  destruct (resolveAnchor (anchor thread) content) as [r|] eqn:Hres.
  - destruct (resolveAnchor_stable _ _ _ Hres) as [m Hm].
    cbn [anchor setAnchor]. by rewrite Hm.
  - by rewrite Hres.
Qed.

(** The loop of [updateAnchors], from any point at which every thread
    object is either untouched or already re-anchored. *)
Lemma updateAnchors_fold content (heap0 : Store) (threads : list loc) :
  forall (heap : Store) (updated orphaned : list loc),
    length heap = length heap0 ->
    (forall l : loc,
       heap !! l = heap0 !! l \/ heap !! l = reanchored content <$> heap0 !! l) ->
    let '(heap', updated', orphaned') :=
      fold_left (updateAnchors_step content) threads (heap, updated, orphaned) in
    length heap' = length heap0 /\
    (forall l : loc,
       heap' !! l = heap0 !! l \/ heap' !! l = reanchored content <$> heap0 !! l) /\
    (forall l : loc, l ∈ threads -> heap' !! l = reanchored content <$> heap0 !! l) /\
    (forall l : loc, l ∉ threads -> heap' !! l = heap !! l) /\
    updated' = updated ++ filter (fun l => resolvesIn content heap0 l = true) threads /\
    orphaned' = orphaned ++ filter (fun l => orphanedIn content heap0 l = true) threads.
Proof.
  induction threads as [|l threads IH]; intros heap updated orphaned Hlen Hinv.
  - simpl. rewrite !app_nil_r. repeat split; try done. intros l Hl. by apply elem_of_nil in Hl.
  - cbn [fold_left]. unfold updateAnchors_step at 2. rewrite !filter_cons.
    destruct (heap !! l) as [thread|] eqn:Hl.
    + assert (exists thread0, heap0 !! l = Some thread0 /\
                reanchored content thread = reanchored content thread0 /\
                match resolveAnchor (anchor thread) content with
                | Some _ => true | None => false end
                = match resolveAnchor (anchor thread0) content with
                  | Some _ => true | None => false end) as (thread0 & Hl0 & Hre & Hsame).
      { destruct (Hinv l) as [H0|H0]; rewrite Hl in H0.
        - exists thread. by rewrite <- H0.
        - destruct (heap0 !! l) as [thread0|]; [|done]. injection H0 as ->.
          exists thread0. split; [done|]. split; [apply reanchored_idemp|].
          apply reanchored_resolves. }
      assert (Hr : resolvesIn content heap0 l
                   = match resolveAnchor (anchor thread) content with
                     | Some _ => true | None => false end).
      { unfold resolvesIn. rewrite Hl0, Hsame. done. }
      assert (Ho : orphanedIn content heap0 l
                   = match resolveAnchor (anchor thread) content with
                     | Some _ => false | None => true end).
      { unfold orphanedIn. rewrite Hl0.
        destruct (resolveAnchor (anchor thread) content);
          destruct (resolveAnchor (anchor thread0) content); done. }
      rewrite Hr, Ho.
      destruct (resolveAnchor (anchor thread) content) as [r|] eqn:Hres.
      * assert (Hnew : setAnchor (setOffsets (r_startOffset r) (r_endOffset r)
                                    (anchor thread)) thread
                       = reanchored content thread0).
        { rewrite <- Hre. unfold reanchored. by rewrite Hres. }
        rewrite Hnew.
        specialize (IH (<[l := reanchored content thread0]> heap)
                      (updated ++ [l]) orphaned).
        destruct (fold_left _ threads _) as [[heap' updated'] orphaned'].
        destruct IH as (Hlen' & Hinv' & Hin & Hout & Hup & Hor).
        { by rewrite length_insert. }
        { intros l'. destruct (decide (l' = l)) as [->|Hneq].
          - right. rewrite list_lookup_insert_eq by (apply lookup_lt_Some in Hl; lia).
            by rewrite Hl0.
          - rewrite list_lookup_insert_ne by done. apply Hinv. }
        rewrite decide_True by done. rewrite decide_False by done.
        split; [done|]. split; [done|]. split; [|split; [|split]].
        -- intros l' Hl'. destruct (decide (l' ∈ threads)) as [?|Hnin]; [by apply Hin|].
           apply elem_of_cons in Hl' as [->|?]; [|done].
           rewrite Hout by done.
           rewrite list_lookup_insert_eq by (apply lookup_lt_Some in Hl; lia).
           by rewrite Hl0.
        -- intros l' Hl'. apply not_elem_of_cons in Hl' as [Hneq Hnin].
           rewrite Hout by done. by rewrite list_lookup_insert_ne.
        -- rewrite Hup. by rewrite <- app_assoc.
        -- done.
      * specialize (IH heap updated (orphaned ++ [l]) Hlen Hinv).
        destruct (fold_left _ threads _) as [[heap' updated'] orphaned'].
        destruct IH as (Hlen' & Hinv' & Hin & Hout & Hup & Hor).
        rewrite decide_False by done. rewrite decide_True by done.
        split; [done|]. split; [done|]. split; [|split; [|split]].
        -- intros l' Hl'. destruct (decide (l' ∈ threads)) as [?|Hnin]; [by apply Hin|].
           apply elem_of_cons in Hl' as [->|?]; [|done].
           rewrite Hout by done. rewrite Hl, Hl0. simpl. f_equal.
           rewrite <- Hre. unfold reanchored. by rewrite Hres.
        -- intros l' Hl'. apply not_elem_of_cons in Hl' as [Hneq Hnin]. by apply Hout.
        -- done.
        -- rewrite Hor. by rewrite <- app_assoc.
    + assert (Hl0 : heap0 !! l = None).
      { destruct (Hinv l) as [H0|H0]; rewrite Hl in H0; [done|].
        by destruct (heap0 !! l). }
      assert (Hr : resolvesIn content heap0 l = false)
        by (unfold resolvesIn; by rewrite Hl0).
      assert (Ho : orphanedIn content heap0 l = false)
        by (unfold orphanedIn; by rewrite Hl0).
      rewrite Hr, Ho.
      specialize (IH heap updated orphaned Hlen Hinv).
      destruct (fold_left _ threads _) as [[heap' updated'] orphaned'].
      destruct IH as (Hlen' & Hinv' & Hin & Hout & Hup & Hor).
      rewrite !decide_False by done.
      split; [done|]. split; [done|]. split; [|split; [|split]]; try done.
      * intros l' Hl'. destruct (decide (l' ∈ threads)) as [?|Hnin]; [by apply Hin|].
        apply elem_of_cons in Hl' as [->|?]; [|done].
        rewrite Hout by done. by rewrite Hl, Hl0.
      * intros l' Hl'. apply not_elem_of_cons in Hl' as [Hneq Hnin]. by apply Hout.
Qed.


Lemma filter_ext_elem_of {A} (P Q : A -> Prop)
    `{!forall x, Decision (P x)} `{!forall x, Decision (Q x)} (l : list A) :
  (forall x, x ∈ l -> (P x <-> Q x)) -> filter P l = filter Q l.
Proof.
  induction l as [|x l IH]; intros Hext; [done|].
  rewrite !filter_cons.
  destruct (decide (P x)) as [HP|HP], (decide (Q x)) as [HQ|HQ].
  - f_equal. apply IH. intros y Hy. apply Hext. by right.
  - exfalso. apply HQ, Hext; [by left|done].
  - exfalso. apply HP, Hext; [by left|done].
  - apply IH. intros y Hy. apply Hext. by right.
Qed.

(** X10. [updateAnchors] is idempotent: run again on the same content, it
    changes no thread object and returns the same [updated] and [orphaned]
    arrays. *)
Theorem updateAnchors_idempotent (heap : Store) (threads : list loc)
    (oldContent oldContent' newContent : jsstring) :
  let result := updateAnchors heap threads oldContent newContent in
  updateAnchors result.1.1 threads oldContent' newContent = result.
Proof.
  intros result. subst result. unfold updateAnchors.
  pose proof (updateAnchors_fold newContent heap threads heap [] [] eq_refl
                (fun l => or_introl eq_refl)) as Hfold.
  destruct (fold_left _ threads (heap, [], [])) as [[heap1 updated1] orphaned1].
  destruct Hfold as (Hlen1 & _ & Hin1 & Hout1 & Hup1 & Hor1).
  cbn [fst snd].
  pose proof (updateAnchors_fold newContent heap1 threads heap1 [] [] eq_refl
                (fun l => or_introl eq_refl)) as Hfold.
  destruct (fold_left _ threads (heap1, [], [])) as [[heap2 updated2] orphaned2].
  destruct Hfold as (Hlen2 & _ & Hin2 & Hout2 & Hup2 & Hor2).
  assert (Hsame : forall l : loc, l ∈ threads ->
            resolvesIn newContent heap1 l = resolvesIn newContent heap l /\
            orphanedIn newContent heap1 l = orphanedIn newContent heap l).
  { intros l Hl. unfold resolvesIn, orphanedIn. rewrite (Hin1 l Hl).
    destruct (heap !! l) as [thread|]; [|done]. simpl.
    pose proof (reanchored_resolves newContent thread) as Hre.
    destruct (resolveAnchor (anchor (reanchored newContent thread)) newContent);
      destruct (resolveAnchor (anchor thread) newContent); done. }
  f_equal; [f_equal|].
  - apply list_eq. intros l. destruct (decide (l ∈ threads)) as [Hl|Hl].
    + transitivity (reanchored newContent <$> heap1 !! l); [exact (Hin2 l Hl)|].
      pose proof (Hin1 l Hl) as Hl1. unfold loc in *. rewrite Hl1.
      destruct (heap !! l) as [thread|]; [|done].
      simpl. by rewrite reanchored_idemp.
    + exact (Hout2 l Hl).
  - rewrite Hup2, Hup1. simpl. apply filter_ext_elem_of.
    intros l Hl. by rewrite (proj1 (Hsame l Hl)).
  - rewrite Hor2, Hor1. simpl. apply filter_ext_elem_of.
    intros l Hl. by rewrite (proj2 (Hsame l Hl)).
Qed.

(** ** Section headings *)

Lemma splitLines_takeLine s :
  exists rest, splitLines s = takeLine s :: rest.
Proof.
  induction s as [|c s [rest IH]]; simpl; [by exists []|].
  destruct (isLineTerminator c); [by eexists|].
  rewrite IH. by eexists.
Qed.

Lemma isHeadingLine_nil : isHeadingLine [] = false.
Proof. done. Qed.

Lemma headingLineAt_takeLine s :
  headingLineAt s = if isHeadingLine (takeLine s) then Some (takeLine s) else None.
Proof. done. Qed.

(** The loop of [extractSectionHeading] keeps the last heading line. *)
Lemma lastHeadingLine_spec s :
  forall lineStart lastMatch,
    lastHeadingLine s lineStart lastMatch =
      match last (filter (fun line => isHeadingLine line = true)
                    (if lineStart then splitLines s else tail (splitLines s))) with
      | Some heading => Some heading
      | None => lastMatch
      end.
Proof.
  induction s as [|c s IH]; intros lineStart lastMatch.
  - simpl. by destruct lineStart.
  - cbn [lastHeadingLine]. rewrite IH, headingLineAt_takeLine.
    cbn [splitLines takeLine].
    destruct (splitLines_takeLine s) as [rest Hs].
    destruct (isLineTerminator c) eqn:Hc.
    + rewrite isHeadingLine_nil. destruct lineStart; cbn [tail].
      * rewrite filter_cons, decide_False by (rewrite isHeadingLine_nil; done). done.
      * done.
    + rewrite Hs. cbn [tail]. destruct lineStart; [|done].
      rewrite filter_cons.
      destruct (isHeadingLine (c :: takeLine s)) eqn:Hh.
      * rewrite decide_True by done. rewrite last_cons.
        by destruct (last (filter _ rest)).
      * rewrite decide_False by done. done.
Qed.

(** X11. [extractSectionHeading] returns the last heading line of the text
    before the offset: of the lines of [documentContent.slice(0, offset)],
    the last one made of one to six [#], a space and a title; and undefined
    when that text has no such line. *)
Theorem extractSectionHeading_last_heading (doc : jsstring) (offset : Z) :
  extractSectionHeading doc offset =
    last (filter (fun line => isHeadingLine line = true)
            (splitLines (slice doc 0 offset))).
Proof.
  unfold extractSectionHeading. rewrite lastHeadingLine_spec.
  by destruct (last _).
Qed.

Lemma takeLine_no_terminator s c :
  c ∈ takeLine s -> isLineTerminator c = false.
Proof.
  induction s as [|d s IH]; simpl; [by intros ?%elem_of_nil|].
  destruct (isLineTerminator d) eqn:Hd; [by intros ?%elem_of_nil|].
  intros [->|?]%elem_of_cons; [done|by apply IH].
Qed.

Lemma takeLine_prefix s : take (length (takeLine s)) s = takeLine s.
Proof.
  induction s as [|d s IH]; simpl; [done|].
  destruct (isLineTerminator d); [done|]. simpl. by rewrite IH.
Qed.

(** A line of a string stands in the string, and holds no LineTerminator. *)
Lemma splitLines_elem_of s line :
  line ∈ splitLines s ->
  (forall c, c ∈ line -> isLineTerminator c = false) /\
  exists k : nat, occursAt s line k /\ (k + length line <= length s)%nat.
Proof.
  induction s as [|d s IH]; cbn [splitLines].
  - intros ->%list_elem_of_singleton. split; [by intros c ?%elem_of_nil|].
    exists 0%nat. by split.
  - destruct (splitLines_takeLine s) as [rest Hs].
    destruct (isLineTerminator d) eqn:Hd.
    + intros [->|Hin]%elem_of_cons.
      * split; [by intros c ?%elem_of_nil|]. exists 0%nat. split; [done|simpl; lia].
      * destruct (IH Hin) as (Hno & k & Hocc & Hle). split; [done|].
        exists (S k). split; [exact Hocc|simpl; lia].
    + rewrite Hs. intros [->|Hin]%elem_of_cons.
      * split.
        -- intros c [->|Hc]%elem_of_cons; [done|]. by eapply takeLine_no_terminator.
        -- exists 0%nat. unfold occursAt. cbn [drop length take]. split.
           ++ f_equal. apply takeLine_prefix.
           ++ pose proof (takeLine_prefix s) as Hp.
              apply (f_equal length) in Hp. rewrite length_take in Hp. simpl. lia.
      * assert (Hin' : line ∈ splitLines s) by (rewrite Hs; by right).
        destruct (IH Hin') as (Hno & k & Hocc & Hle). split; [done|].
        exists (S k). split; [exact Hocc|simpl; lia].
Qed.

Lemma indexOf_complete hay needle (k : nat) :
  occursAt hay needle k -> (k <= length hay)%nat ->
  exists i, indexOf hay needle 0 = Some i /\ (i <= k)%nat.
Proof.
  intros Hocc Hk. destruct (indexOf hay needle 0) as [i|] eqn:Hidx.
  - exists i. split; [done|].
    apply indexOf_Some in Hidx as (_ & _ & Hfirst); [|lia].
    destruct (decide (i <= k)%nat); [done|].
    exfalso. apply (Hfirst k); [lia|done].
  - exfalso. eapply indexOf_None in Hidx; [by apply Hidx|lia|lia].
Qed.

Lemma isHeadingLine_shape line :
  isHeadingLine line = true ->
  (1 <= countHashes line <= 6)%nat /\ line !! countHashes line = Some SPACE /\
  (countHashes line + 1 < length line)%nat.
Proof.
  unfold isHeadingLine, matchesHeadingAt. rewrite !andb_true_iff.
  intros [[[H1 H6] Hsp] Hlen].
  apply Nat.leb_le in H1, H6. apply Nat.ltb_lt in Hlen.
  split; [lia|]. split; [|lia].
  destruct (line !! countHashes line) as [c|]; [|done].
  apply N.eqb_eq in Hsp. by subst.
Qed.

(** X12. A heading returned by [extractSectionHeading] is a string the heading
    fallback can use: it is one to six [#] followed by a space and a title,
    it holds no line break, its level is the number of its [#], and it
    occurs in the document before the offset, so that
    [documentContent.indexOf] finds it. *)
Theorem extractSectionHeading_sound (doc : jsstring) (offset : Z) (heading : jsstring) :
  extractSectionHeading doc offset = Some heading ->
  truthyHeading (Some heading) = Some heading /\
  (1 <= countHashes heading <= 6)%nat /\
  headingLevel heading = countHashes heading /\
  heading !! countHashes heading = Some SPACE /\
  (countHashes heading + 1 < length heading)%nat /\
  (forall c, c ∈ heading -> isLineTerminator c = false) /\
  exists k : nat,
    indexOf doc heading 0 = Some k /\
    (k + length heading <= relIndex (length doc) offset)%nat.
Proof.
  unfold extractSectionHeading. rewrite lastHeadingLine_spec.
  destruct (last _) as [h|] eqn:Hlast; [|done]. intros [= ->].
  apply last_Some in Hlast as [lines Hlines].
  assert (Hin : heading ∈ filter (fun line => isHeadingLine line = true)
                            (splitLines (slice doc 0 offset))).
  { rewrite Hlines. apply elem_of_app. right. by left. }
  apply list_elem_of_filter in Hin as [Hheading Hin].
  apply isHeadingLine_shape in Hheading as (Hhashes & Hspace & Hlen).
  apply splitLines_elem_of in Hin as (Hno & k & Hocc & Hle).
  split; [destruct heading; [simpl in Hlen; lia|done]|].
  split; [done|]. split; [unfold headingLevel; destruct (countHashes heading); [lia|done]|].
  split; [done|]. split; [done|]. split; [done|].
  assert (Hslice : slice doc 0 offset = take (relIndex (length doc) offset) doc).
  { unfold slice. rewrite (relIndex_in_range _ 0) by lia.
    change (Z.to_nat 0) with 0%nat. by rewrite Nat.sub_0_r. }
  rewrite Hslice in Hocc, Hle. rewrite length_take in Hle.
  assert (Hdoc : occursAt doc heading k).
  { apply (occursAt_in_slice doc heading 0 (relIndex (length doc) offset) k);
      [exact Hocc|lia]. }
  destruct (indexOf_complete doc heading k Hdoc ltac:(lia)) as (i & Hi & Hik).
  exists i. split; [done|lia].
Qed.

Lemma extractSectionHeading_sound_witness :
  let doc := str "# Title" ++ [10%N; 10%N] ++ str "Some text" ++ [10%N; 10%N]
             ++ str "## Section" ++ [10%N; 10%N] ++ str "More text here." in
  extractSectionHeading doc 32 = Some (str "## Section") /\
  headingLevel (str "## Section") = 2%nat /\
  exists k : nat, indexOf doc (str "## Section") 0 = Some k /\ (k + 10 <= 32)%nat.
Proof.
  intros doc.
  pose proof (extractSectionHeading_sound doc 32 (str "## Section") eq_refl)
    as (_ & _ & Hlevel & _ & _ & _ & Hfound).
  split; [reflexivity|]. split; [exact Hlevel|exact Hfound].
Defined.

(** The resolver of headings on the documents of tests/storage/anchor.test.ts,
    and on an offset that falls inside a heading line: the line is cut at the
    offset. *)
Example test_extractSectionHeading :
  let doc := str "# Title" ++ [10%N; 10%N] ++ str "Some text" ++ [10%N; 10%N]
             ++ str "## Section" ++ [10%N; 10%N] ++ str "More text here." in
  extractSectionHeading doc 32 = Some (str "## Section") /\
  extractSectionHeading doc 9 = Some (str "# Title") /\
  extractSectionHeading (str "No headings in this document.") 10 = None /\
  extractSectionHeading doc 25 = Some (str "## Se").
Proof. vm_compute. repeat split; reflexivity. Qed.

(** ** Range queries on a built index *)

Lemma mapGet_elem_of {V} (m : list (jsstring * V)) k v :
  NoDup m.*1 -> (mapGet m k = Some v <-> (k, v) ∈ m).
Proof.
  induction m as [|[k' v'] m IH]; simpl; intros Hnd.
  - split; [done|by intros ?%elem_of_nil].
  - apply NoDup_cons in Hnd as [Hk' Hnd]. destruct (decide (k' = k)) as [->|Hneq].
    + split.
      * intros [= ->]. by left.
      * intros [[= ->]|Hin]%elem_of_cons; [done|].
        exfalso. apply Hk'. apply list_elem_of_fmap. by exists (k, v).
    + rewrite IH by done. split.
      * by right.
      * intros [[= ? ?]|Hin]%elem_of_cons; [congruence|done].
Qed.

Lemma mapSet_key_in {V} (m : list (jsstring * V)) k v : k ∈ (mapSet m k v).*1.
Proof.
  induction m as [|[k' v'] m IH]; simpl; [by left|].
  destruct (decide (k' = k)); simpl; [by left|by right].
Qed.

Lemma mapSet_keys_mono {V} (m : list (jsstring * V)) k v k' :
  k' ∈ m.*1 -> k' ∈ (mapSet m k v).*1.
Proof.
  induction m as [|[k0 v0] m IH]; simpl; [by intros ?%elem_of_nil|].
  destruct (decide (k0 = k)) as [->|Hneq]; simpl.
  - intros [->|?]%elem_of_cons; [by left|by right].
  - intros [->|?]%elem_of_cons; [by left|right; by apply IH].
Qed.

Lemma fold_build_tree (heap : Store) (threads : list loc) idx x :
  x ∈ tree (fold_left (build_step heap) threads idx) <->
  x ∈ tree idx \/
  exists (l : loc) t,
    l ∈ threads /\ heap !! l = Some t /\
    startOffset (anchor t) < endOffset (anchor t) /\
    x = (startOffset (anchor t), endOffset (anchor t), id t).
Proof.
  revert idx. induction threads as [|l threads IH]; intros idx; cbn [fold_left].
  - split; [by left|]. intros [?|(l & t & ?%elem_of_nil & _)]; done.
  - rewrite IH. unfold build_step.
    destruct (heap !! l) as [t|] eqn:Hl.
    + cbn [tree]. destruct (Z.ltb_spec (startOffset (anchor t)) (endOffset (anchor t))).
      * rewrite elem_of_app, list_elem_of_singleton. split.
        -- intros [[?| ->]|(l' & t' & Hin & ?)]; [by left| |].
           ++ right. exists l, t. split; [by left|done].
           ++ right. exists l', t'. split; [by right|done].
        -- intros [?|(l' & t' & [->|Hin]%elem_of_cons & Hl' & Hlt & ->)].
           ++ by left; left.
           ++ left; right. congruence.
           ++ right. by exists l', t'.
      * split.
        -- intros [?|(l' & t' & Hin & ?)]; [by left|].
           right. exists l', t'. split; [by right|done].
        -- intros [?|(l' & t' & [->|Hin]%elem_of_cons & Hl' & Hlt & ->)].
           ++ by left.
           ++ exfalso. rewrite Hl in Hl'. injection Hl' as ->. lia.
           ++ right. by exists l', t'.
    + split.
      * intros [?|(l' & t' & Hin & ?)]; [by left|].
        right. exists l', t'. split; [by right|done].
      * intros [?|(l' & t' & [->|Hin]%elem_of_cons & Hl' & Hlt & ->)].
        -- by left.
        -- congruence.
        -- right. by exists l', t'.
Qed.

Lemma fold_build_threadMap_in (heap : Store) (threads : list loc) idx k (l : loc) :
  (k, l) ∈ threadMap (fold_left (build_step heap) threads idx) ->
  (k, l) ∈ threadMap idx \/ l ∈ threads.
Proof.
  revert idx. induction threads as [|l0 threads IH]; intros idx; cbn [fold_left];
    [by left|].
  intros [Hin|Hin]%IH; [|right; by right].
  unfold build_step in Hin. destruct (heap !! l0) as [t|]; [|by left].
  cbn [threadMap] in Hin. apply mapSet_elem_of in Hin as [[= -> ->]|Hin];
    [right; by left|by left].
Qed.

Lemma fold_build_threadMap_keys (heap : Store) (threads : list loc) idx k :
  (k ∈ (threadMap idx).*1 \/
   exists (l : loc) t, l ∈ threads /\ heap !! l = Some t /\ id t = k) ->
  k ∈ (threadMap (fold_left (build_step heap) threads idx)).*1.
Proof.
  revert idx. induction threads as [|l0 threads IH]; intros idx; cbn [fold_left].
  - intros [?|(l & t & ?%elem_of_nil & _)]; done.
  - intros Hk. apply IH. unfold build_step.
    destruct (heap !! l0) as [t0|] eqn:Hl0.
    + cbn [threadMap].
      destruct Hk as [Hk|(l & t & [->|Hin]%elem_of_cons & Hl & Hid)].
      * left. by apply mapSet_keys_mono.
      * left. rewrite Hl0 in Hl. injection Hl as ->. rewrite <- Hid.
        apply mapSet_key_in.
      * right. by exists l, t.
    + destruct Hk as [Hk|(l & t & [->|Hin]%elem_of_cons & Hl & Hid)].
      * by left.
      * congruence.
      * right. by exists l, t.
Qed.

(** The thread map of an index built from threads with distinct ids sends
    the id of each thread to this very thread object. *)
Lemma build_mapGet (heap : Store) (threads : list loc) (l : loc) t :
  distinctIds heap threads ->
  l ∈ threads -> heap !! l = Some t ->
  mapGet (threadMap (build heap threads)) (id t) = Some l.
Proof.
  intros Hdistinct Hl Ht.
  pose proof (build_inv heap threads) as [Hnd Hinv].
  assert (Hk : id t ∈ (threadMap (build heap threads)).*1).
  { apply fold_build_threadMap_keys. right. by exists l, t. }
  apply list_elem_of_fmap in Hk as ([k l'] & Hk & Hin). simpl in Hk. subst k.
  apply mapGet_elem_of; [done|].
  destruct (Hinv _ _ Hin) as (t' & Ht' & Hid).
  pose proof Hin as Hmap.
  apply fold_build_threadMap_in in Hin as [Hin|Hin]; [by apply elem_of_nil in Hin|].
  by rewrite (Hdistinct l l' t t' Hl Hin Ht Ht' (eq_sym Hid)).
Qed.

(** X13. On an index just built from threads with distinct ids, [query(offset)]
    returns exactly the threads whose anchor range is not empty
    ([startOffset < endOffset]) and contains the offset, both ends of the
    range included. *)
Theorem query_after_build (heap : Store) (threads : list loc) (offset : Z) (l : loc) :
  distinctIds heap threads ->
  (l ∈ query (build heap threads) offset <->
   l ∈ threads /\
   exists t, heap !! l = Some t /\
     startOffset (anchor t) < endOffset (anchor t) /\
     startOffset (anchor t) <= offset <= endOffset (anchor t)).
Proof.
  intros Hdistinct. unfold query, search.
  rewrite list_elem_of_omap. split.
  - intros (k & Hk & Hget).
    apply list_elem_of_fmap in Hk as ([[low high] k'] & -> & Hitem).
    apply list_elem_of_filter in Hitem as [Hmeet Hitem]. cbn [fst snd] in *.
    apply fold_build_tree in Hitem as [Hitem|(l' & t & Hl' & Ht & Hlt & [= -> -> ->])];
      [by apply elem_of_nil in Hitem|].
    rewrite (build_mapGet heap threads l' t Hdistinct Hl' Ht) in Hget.
    injection Hget as ->. split; [done|]. exists t. split; [done|]. split; [done|].
    unfold intersects in Hmeet. apply negb_true_iff, orb_false_iff in Hmeet as [H1 H2].
    apply Z.ltb_ge in H1, H2. lia.
  - intros (Hl & t & Ht & Hlt & Hin). exists (id t). split.
    + apply list_elem_of_fmap.
      exists (startOffset (anchor t), endOffset (anchor t), id t). split; [done|].
      apply list_elem_of_filter. split.
      * cbn [fst snd]. unfold intersects. apply negb_true_iff, orb_false_iff.
        split; apply Z.ltb_ge; lia.
      * apply fold_build_tree. right. by exists l, t.
    + by apply build_mapGet.
Qed.

Lemma query_after_build_witness :
  let t1 := mkCommentThread (str "t1") (str "test.md")
              (mkTextAnchor (str "hello") 0 5 None) Open [] [] [] in
  let t2 := mkCommentThread (str "t2") (str "test.md")
              (mkTextAnchor (str "world") 10 15 None) Open [] [] [] in
  query (build [t1; t2] [0; 1]%nat) 2 = [0%nat] /\
  query (build [t1; t2] [0; 1]%nat) 7 = [] /\
  (1%nat ∈ query (build [t1; t2] [0; 1]%nat) 15 <->
   1%nat ∈ [0; 1]%nat /\
   exists t, [t1; t2] !! 1%nat = Some t /\
     startOffset (anchor t) < endOffset (anchor t) /\
     startOffset (anchor t) <= 15 <= endOffset (anchor t)).
Proof.
  intros t1 t2. split; [reflexivity|]. split; [reflexivity|].
  apply (query_after_build [t1; t2] [0; 1]%nat 15 1%nat).
  intros l l' t t' Hl Hl' Ht Ht' Hid.
  apply elem_of_cons in Hl as [->|Hl]; [|apply list_elem_of_singleton in Hl as ->];
    (apply elem_of_cons in Hl' as [->|Hl']; [|apply list_elem_of_singleton in Hl' as ->]);
    try done; simpl in Ht, Ht'; injection Ht as <-; injection Ht' as <-; discriminate Hid.
Defined.

(** ** What a shift of the index changes *)




(** ** Sidecar files in the vault *)

Section SidecarFiles.
Context {HO : Host}.

(** X15. For a markdown document [saveImmediate] succeeds, leaves the
    serialised threads in the sidecar file, and touches no other file of the
    vault; in particular the document itself reads as before. *)
Theorem saveImmediate_writes_sidecar_only (vault : Vault) (file : TFile)
    (threads : list CommentThread) :
  extension file = str "md" ->
  let sidecarPath := slice (path file) 0 (-3) ++ SIDECAR_EXTENSION in
  exists vault',
    saveImmediate vault file threads = Ok vault' /\
    vault' !! sidecarPath
    = Some (FileEntry (JSON_stringify (mkSidecarFile SCHEMA_VERSION (path file) threads))) /\
    (forall p, p <> sidecarPath -> vault' !! p = vault !! p) /\
    vaultRead vault' file = vaultRead vault file.
Proof.
  intros Hext sidecarPath. unfold saveImmediate.
  rewrite (getPath_markdown _ Hext). fold sidecarPath.
  eexists. split; [reflexivity|]. split; [apply writeFile_lookup|].
  assert (Hothers : forall p, p <> sidecarPath ->
            writeFile vault sidecarPath (path file) threads !! p = vault !! p).
  { intros p Hp. unfold writeFile, vaultModify, vaultCreate.
    destruct (vault !! sidecarPath) as [[]|]; by rewrite lookup_insert_ne. }
  split; [done|]. unfold vaultRead. rewrite Hothers; [done|].
  intros Heq. by apply (sidecarPath_fresh (path file)).
Qed.

(** X16. After [saveImmediate] the sidecar [exists]; after [delete] it does
    not, [load] returns no thread, and deleting once more changes nothing.
    Neither touches the timers. *)
Theorem sidecar_exists_until_deleted (st : SidecarStorage.t) (file : TFile)
    (threads : list CommentThread) :
  extension file = str "md" ->
  let st1 := (SidecarStorage.saveImmediate file threads st).1 in
  let st2 := (SidecarStorage.delete_ file st1).1 in
  SidecarStorage.exists_ file st1 = Ok true /\
  SidecarStorage.delete_ file st1 = (st2, Ok tt) /\
  SidecarStorage.exists_ file st2 = Ok false /\
  load (SidecarStorage.vault st2) file = Ok [] /\
  SidecarStorage.delete_ file st2 = (st2, Ok tt) /\
  SidecarStorage.saveTimers st2 = SidecarStorage.saveTimers st1.
Proof.
  intros Hext st1 st2. subst st2 st1.
  unfold SidecarStorage.saveImmediate, SidecarStorage.delete_, SidecarStorage.exists_, load.
  rewrite !(getPath_markdown _ Hext). cbn [fst SidecarStorage.vault].
  rewrite writeFile_lookup.
  cbn [fst SidecarStorage.vault SidecarStorage.saveTimers SidecarStorage.promises
       SidecarStorage.resolved].
  unfold load_try. rewrite !lookup_delete_eq.
  split; [f_equal; apply bool_decide_eq_true_2; by eexists|].
  split; [done|].
  split; [f_equal; apply bool_decide_eq_false_2; by intros [? ?]|].
  by repeat split.
Qed.

Lemma timerFires_pending (arrays : arrayRef -> list CommentThread) sidecarPath
    (st : SidecarStorage.t) pending :
  SidecarStorage.saveTimers st !! sidecarPath = Some pending ->
  SidecarStorage.timerFires arrays sidecarPath st
  = SidecarStorage.mk
      (writeFile (SidecarStorage.vault st) sidecarPath
         (SidecarStorage.documentPath pending)
         (arrays (SidecarStorage.threadsRef pending)))
      (base.delete sidecarPath (SidecarStorage.saveTimers st))
      (SidecarStorage.promises st)
      (SidecarStorage.resolved st ++ [SidecarStorage.promise pending]).
Proof. intros Hp. unfold SidecarStorage.timerFires. by rewrite Hp. Qed.

Lemma timerFires_cleared (arrays : arrayRef -> list CommentThread) sidecarPath
    (st : SidecarStorage.t) :
  SidecarStorage.saveTimers st !! sidecarPath = None ->
  SidecarStorage.timerFires arrays sidecarPath st = st.
Proof. intros Hp. unfold SidecarStorage.timerFires. by rewrite Hp. Qed.

(** X17. Two [save] calls in a row for one document lead to one write: the
    second call replaces the timer of the first, nothing is written before
    the timer fires, and what is then written is the thread array of the
    second call as it is at that time.  Only the promise of the second call
    is resolved, and the timer does not fire again. *)
Theorem save_debounced (st : SidecarStorage.t) (file : TFile) (first second : arrayRef)
    (arrays : arrayRef -> list CommentThread) :
  extension file = str "md" ->
  let sidecarPath := slice (path file) 0 (-3) ++ SIDECAR_EXTENSION in
  let r1 := SidecarStorage.save file first st in
  let r2 := SidecarStorage.save file second r1.1 in
  let st3 := SidecarStorage.timerFires arrays sidecarPath r2.1 in
  r1.2 = Ok (SidecarStorage.promises st) /\
  r2.2 = Ok (S (SidecarStorage.promises st)) /\
  SidecarStorage.vault r2.1 = SidecarStorage.vault st /\
  SidecarStorage.vault st3
  = writeFile (SidecarStorage.vault st) sidecarPath (path file) (arrays second) /\
  SidecarStorage.resolved st3
  = SidecarStorage.resolved st ++ [S (SidecarStorage.promises st)] /\
  SidecarStorage.saveTimers st3 !! sidecarPath = None /\
  forall arrays', SidecarStorage.timerFires arrays' sidecarPath st3 = st3.
Proof.
  intros Hext sidecarPath r1 r2 st3. subst st3 r2 r1.
  unfold SidecarStorage.save. rewrite !(getPath_markdown _ Hext). fold sidecarPath.
  cbn [fst snd SidecarStorage.vault SidecarStorage.saveTimers SidecarStorage.promises
       SidecarStorage.resolved].
  set (pending := SidecarStorage.mkPendingSave (path file) second _).
  set (st2 := SidecarStorage.mk _ _ _ _).
  rewrite (timerFires_pending arrays sidecarPath st2 pending)
    by (subst st2; cbn [SidecarStorage.saveTimers]; apply lookup_insert_eq).
  subst st2 pending.
  cbn [SidecarStorage.vault SidecarStorage.saveTimers SidecarStorage.promises
       SidecarStorage.resolved SidecarStorage.documentPath SidecarStorage.threadsRef
       SidecarStorage.promise].
  split; [done|]. split; [done|]. split; [done|]. split; [done|]. split; [done|].
  split; [apply lookup_delete_eq|].
  intros arrays'. apply timerFires_cleared. cbn [SidecarStorage.saveTimers].
  apply lookup_delete_eq.
Qed.

(** X18. A pending [save] is cancelled by [saveImmediate] for the same
    document and by [destroy]: its timer never fires, its threads are never
    written and its promise is never resolved.  After [saveImmediate] the
    sidecar holds the threads written at once. *)
Theorem pending_save_cancelled (st : SidecarStorage.t) (file : TFile) (pending : arrayRef)
    (threads : list CommentThread) (arrays : arrayRef -> list CommentThread) :
  extension file = str "md" ->
  let sidecarPath := slice (path file) 0 (-3) ++ SIDECAR_EXTENSION in
  let st1 := (SidecarStorage.save file pending st).1 in
  let st2 := (SidecarStorage.saveImmediate file threads st1).1 in
  SidecarStorage.timerFires arrays sidecarPath st2 = st2 /\
  SidecarStorage.vault st2 !! sidecarPath
  = Some (FileEntry (JSON_stringify (mkSidecarFile SCHEMA_VERSION (path file) threads))) /\
  SidecarStorage.resolved st2 = SidecarStorage.resolved st /\
  (forall p, SidecarStorage.timerFires arrays p (SidecarStorage.destroy st1)
             = SidecarStorage.destroy st1) /\
  SidecarStorage.vault (SidecarStorage.destroy st1) = SidecarStorage.vault st /\
  SidecarStorage.resolved (SidecarStorage.destroy st1) = SidecarStorage.resolved st.
Proof.
  intros Hext sidecarPath st1 st2. subst st2 st1.
  unfold SidecarStorage.save, SidecarStorage.saveImmediate.
  rewrite !(getPath_markdown _ Hext). fold sidecarPath.
  cbn [fst snd SidecarStorage.vault SidecarStorage.saveTimers SidecarStorage.promises
       SidecarStorage.resolved].
  split; [|split; [apply writeFile_lookup|split; [done|split; [|done]]]].
  - apply timerFires_cleared. cbn [SidecarStorage.saveTimers]. apply lookup_delete_eq.
  - intros p. apply timerFires_cleared. unfold SidecarStorage.destroy.
    cbn [SidecarStorage.saveTimers]. apply lookup_empty.
Qed.

End SidecarFiles.

Section SidecarFilesWitnesses.
#[local] Existing Instance sampleHost.

Lemma saveImmediate_writes_sidecar_only_witness :
  let vault : Vault := {[ str "test.md" := FileEntry sampleDocument ]} in
  exists vault',
    saveImmediate vault testFile [sampleThread Pending] = Ok vault' /\
    vault' !! str "test.agent-comments.json" = Some (FileEntry (str "test.md;t1")) /\
    vaultRead vault' testFile = sampleDocument.
Proof.
  intros vault.
  destruct (saveImmediate_writes_sidecar_only vault testFile [sampleThread Pending]
              ltac:(reflexivity)) as (vault' & Hsave & Hsidecar & _ & Hdoc).
  exists vault'. split; [exact Hsave|]. split; [exact Hsidecar|exact Hdoc].
Defined.

Lemma sidecar_exists_until_deleted_witness :
  let st := SidecarStorage.mk ∅ ∅ 0 [] in
  let st1 := (SidecarStorage.saveImmediate testFile [sampleThread Pending] st).1 in
  let st2 := (SidecarStorage.delete_ testFile st1).1 in
  SidecarStorage.exists_ testFile st1 = Ok true /\
  SidecarStorage.exists_ testFile st2 = Ok false /\
  load (SidecarStorage.vault st2) testFile = Ok [].
Proof.
  intros st st1 st2.
  destruct (sidecar_exists_until_deleted st testFile [sampleThread Pending]
              ltac:(reflexivity)) as (H1 & _ & H2 & H3 & _).
  split; [exact H1|]. split; [exact H2|exact H3].
Defined.

Lemma save_debounced_witness :
  let st := SidecarStorage.mk ∅ ∅ 0 [] in
  let arrays := fun ref : arrayRef =>
                  if (ref =? 0)%nat then [] else [sampleThread Pending] in
  let r1 := SidecarStorage.save testFile 0%nat st in
  let r2 := SidecarStorage.save testFile 1%nat r1.1 in
  let st3 := SidecarStorage.timerFires arrays (str "test.agent-comments.json") r2.1 in
  SidecarStorage.vault r2.1 = ∅ /\
  SidecarStorage.vault st3
  = writeFile ∅ (str "test.agent-comments.json") (str "test.md") [sampleThread Pending] /\
  SidecarStorage.resolved st3 = [1%nat].
Proof.
  intros st arrays r1 r2 st3.
  destruct (save_debounced st testFile 0%nat 1%nat arrays ltac:(reflexivity))
    as (_ & _ & Hnothing & Hwritten & Hresolved & _).
  split; [exact Hnothing|]. split; [exact Hwritten|exact Hresolved].
Defined.

Lemma pending_save_cancelled_witness :
  let st := SidecarStorage.mk ∅ ∅ 0 [] in
  let arrays := fun _ : arrayRef => [sampleThread Pending] in
  let st1 := (SidecarStorage.save testFile 0%nat st).1 in
  let st2 := (SidecarStorage.saveImmediate testFile [] st1).1 in
  SidecarStorage.timerFires arrays (str "test.agent-comments.json") st2 = st2 /\
  SidecarStorage.vault st2 !! str "test.agent-comments.json"
  = Some (FileEntry (str "test.md")) /\
  SidecarStorage.resolved st2 = [].
Proof.
  intros st arrays st1 st2.
  destruct (pending_save_cancelled st testFile 0%nat [] arrays ltac:(reflexivity))
    as (Hfire & Hfile & Hresolved & _).
  split; [exact Hfire|]. split; [exact Hfile|exact Hresolved].
Defined.

End SidecarFilesWitnesses.

(** ** Validation of the sidecars the plugin writes *)

Lemma validateAll_valid (validate : JSON -> ValidationResult) (items : list JSON) :
  valid (validateAll validate items) = forallb (fun x => valid (validate x)) items.
Proof.
  induction items as [|x items IH]; [done|]. simpl.
  by destruct (validate x).
Qed.

Lemma validateMessage_encoded (m : ThreadMessage) :
  valid (validateMessage (messageToJSON m)) = negb (bool_decide (msg_id m = [])).
Proof.
  unfold validateMessage, messageToJSON.
  destruct m as [mid au aty co ts [sg|] [refs|]]; cbn [msg_id suggestion knowledgeRefs
    author authorType content timestamp app];
    (destruct mid as [|c mid]; [by vm_compute|]);
    destruct aty; try (destruct sg as [ot rt []]); by vm_compute.
Qed.

Lemma validateThread_encoded (t : CommentThread) :
  valid (validateThread (threadToJSON t))
  = negb (bool_decide (id t = [])) &&
    forallb (fun m => negb (bool_decide (msg_id m = []))) (messages t).
Proof.
  assert (Hmsgs : valid (validateAll validateMessage (messageToJSON <$> messages t))
                  = forallb (fun m => negb (bool_decide (msg_id m = []))) (messages t)).
  { rewrite validateAll_valid. induction (messages t) as [|m ms IH]; [done|].
    rewrite fmap_cons. cbn [forallb]. by rewrite validateMessage_encoded, IH. }
  rewrite <- Hmsgs. unfold validateThread, threadToJSON.
  destruct t as [tid did a st ms ca ua]; cbn [id anchor status messages].
  destruct tid as [|c tid]; [by vm_compute|].
  destruct a as [txt s e [h|]]; destruct st; done.
Qed.

(** The validator on the JSON form of a sidecar of the current version. *)
Lemma validateThreads_encoded (threads : list CommentThread) :
  valid (validateAll validateThread (threadToJSON <$> threads)) = idsNonEmpty threads.
Proof.
  rewrite validateAll_valid. unfold idsNonEmpty.
  induction threads as [|t ts IH]; [done|].
  rewrite fmap_cons. cbn [forallb]. by rewrite validateThread_encoded, IH.
Qed.

(** X19. The validator accepts the JSON form of a sidecar file the plugin
    writes exactly when the version is the current one and every thread id
    and message id is a non-empty string: one thread or message with an
    empty id makes the whole file invalid. *)
Theorem validateSidecarFile_encoded (sf : SidecarFile) :
  valid (validateSidecarFile (sidecarToJSON sf))
  = (version sf =? CURRENT_SCHEMA_VERSION) && idsNonEmpty (sf_threads sf).
Proof.
  unfold validateSidecarFile, sidecarToJSON.
  change (negb (isObject (JObject _))) with false. cbv iota.
  change (getProp (JObject ?props) (str "version")) with (Some (JNumber (version sf))).
  change (hasProp (JObject _) (str "version")) with true.
  cbn [negb isNumber orb].
  destruct (version sf =? CURRENT_SCHEMA_VERSION); cbn [negb andb]; [|done].
  change (getProp (JObject _) (str "threads"))
    with (Some (JArray (threadToJSON <$> sf_threads sf))).
  cbv iota. apply validateThreads_encoded.
Qed.

Section RoundTrip.
Context {HO : Host}.

(** X20. What [saveImmediate] writes, [load] reads back: when the JSON codec
    of the host turns the sidecar file written into its JSON form, [load]
    after [saveImmediate] returns the threads saved, unless one of them, or
    one of their messages, has an empty id: then the file fails validation
    and [load] returns no thread at all. *)
Theorem saveImmediate_then_load (vault : Vault) (file : TFile)
    (threads : list CommentThread) :
  let sidecar := mkSidecarFile SCHEMA_VERSION (path file) threads in
  extension file = str "md" ->
  JSON_parse (JSON_stringify sidecar) = Some (sidecarToJSON sidecar) ->
  asThread <$> (threadToJSON <$> threads) = threads ->
  exists vault',
    saveImmediate vault file threads = Ok vault' /\
    load vault' file = Ok (if idsNonEmpty threads then threads else []).
Proof.
  intros sidecar Hext Hcodec Hview. unfold saveImmediate, load.
  rewrite (getPath_markdown _ Hext).
  eexists. split; [reflexivity|]. unfold load_try.
  rewrite writeFile_lookup. fold sidecar. rewrite Hcodec.
  assert (Hvalid : valid (validateSidecarFile (sidecarToJSON sidecar))
                   = idsNonEmpty threads).
  { unfold validateSidecarFile, sidecarToJSON.
    change (getProp (JObject _) (str "threads"))
      with (Some (JArray (threadToJSON <$> threads))).
    apply validateThreads_encoded. }
  rewrite Hvalid.
  destruct (idsNonEmpty threads); [|done].
  cbn [negb]. unfold threadsOf, sidecarToJSON.
  change (getProp (JObject _) (str "threads"))
    with (Some (JArray (threadToJSON <$> sf_threads sidecar))).
  cbv iota. subst sidecar. cbn [sf_threads]. by rewrite Hview.
Qed.

End RoundTrip.

Lemma saveImmediate_then_load_witness :
  let threads := [sampleThread Pending] in
  let host := sidecarHost (mkSidecarFile SCHEMA_VERSION (str "test.md") threads) in
  idsNonEmpty threads = true /\
  exists vault',
    @saveImmediate host ∅ testFile threads = Ok vault' /\
    @load host vault' testFile = Ok threads.
Proof.
  intros threads host. split; [reflexivity|].
  apply (@saveImmediate_then_load host ∅ testFile threads);
    [reflexivity|by vm_compute|by vm_compute].
Defined.

(** ** Server messages *)

Lemma lookupProp_extra_field props1 props2 key value k :
  key <> k ->
  lookupProp (props1 ++ (key, value) :: props2) k = lookupProp (props1 ++ props2) k.
Proof.
  intros Hneq. induction props1 as [|[k' v'] props1 IH]; simpl.
  - by rewrite decide_False.
  - by rewrite IH.
Qed.

(** X21. Server messages may carry extra fields: a property whose name is
    none of [type], [requestId] and [payload], added anywhere to a message,
    changes the verdict of neither [validateServerMessage] nor
    [validateServerPayload]. *)
Theorem server_message_extra_field (props1 props2 : list (jsstring * JSON))
    (key : jsstring) (value : JSON) :
  key ∉ [str "type"; str "requestId"; str "payload"] ->
  validateServerMessage (JObject (props1 ++ (key, value) :: props2))
  = validateServerMessage (JObject (props1 ++ props2)) /\
  validateServerPayload (JObject (props1 ++ (key, value) :: props2))
  = validateServerPayload (JObject (props1 ++ props2)).
Proof.
  intros Hkey.
  assert (Hprop : forall k, k ∈ [str "type"; str "requestId"; str "payload"] ->
            getProp (JObject (props1 ++ (key, value) :: props2)) k
            = getProp (JObject (props1 ++ props2)) k).
  { intros k Hk. apply lookupProp_extra_field. intros ->. by apply Hkey. }
  assert (Htype := Hprop (str "type") ltac:(by left)).
  assert (Hrequest := Hprop (str "requestId") ltac:(by right; left)).
  assert (Hpayload := Hprop (str "payload") ltac:(by right; right; left)).
  unfold validateServerMessage, validateServerPayload, hasProp.
  by rewrite Htype, Hrequest, Hpayload.
Qed.

Lemma server_message_extra_field_witness :
  let message := [(str "type", JString (str "newThread"));
                  (str "payload", JObject [(str "thread", JObject [])])] in
  validateServerMessage (JObject (message ++ [(str "traceId", JNumber 7)])) = true /\
  validateServerPayload (JObject (message ++ [(str "traceId", JNumber 7)])) = true.
Proof.
  intros message.
  destruct (server_message_extra_field message [] (str "traceId") (JNumber 7))
    as [Hmessage Hpayload].
  { intros Hin. repeat (apply elem_of_cons in Hin as [Hin|Hin]; [discriminate Hin|]).
    by apply elem_of_nil in Hin. }
  split; [rewrite Hmessage|rewrite Hpayload]; reflexivity.
Defined.

(** The validators on messages of the protocol tests of the repository. *)
Example test_validateServerMessage :
  validateServerMessage
    (JObject [(str "type", JString (str "threadCreated"));
              (str "requestId", JString (str "req-1"));
              (str "payload", JObject [])]) = true /\
  validateServerMessage
    (JObject [(str "type", JString (str "unknownType")); (str "payload", JObject [])])
  = false /\
  validateServerMessage (JObject [(str "type", JString (str "newThread"))]) = false /\
  validateServerMessage
    (JObject [(str "type", JString (str "newThread")); (str "requestId", JNumber 123);
              (str "payload", JObject [])]) = false /\
  validateServerMessage JNull = false /\
  validateServerPayload
    (JObject [(str "type", JString (str "error"));
              (str "payload", JObject [(str "code", JString (str "E1"))])]) = false.
Proof. vm_compute. repeat split; reflexivity. Qed.

(** ** Identifiers *)

Lemma byte_cases (P : Z -> bool) :
  forallb P (seqZ 0 256) = true -> forall b, 0 <= b < 256 -> P b = true.
Proof.
  intros Hall b Hb. rewrite forallb_forall in Hall. apply Hall.
  apply list_elem_of_In, elem_of_seqZ. lia.
Qed.

Lemma padStart2_byte b :
  0 <= b < 256 ->
  padStart2 (toString16 b) = [hexDigit (b / 16); hexDigit (b mod 16)].
Proof.
  intros Hb. unfold toString16. destruct (Z.ltb_spec b 16).
  - rewrite Z.div_small, Z.mod_small by lia. done.
  - done.
Qed.

Lemma hexDigit_byte b :
  0 <= b < 256 ->
  isHexDigit (hexDigit (b / 16)) && isHexDigit (hexDigit (b mod 16)) = true.
Proof.
  apply (byte_cases (fun b => isHexDigit (hexDigit (b / 16))
                              && isHexDigit (hexDigit (b mod 16)))).
  by vm_compute.
Qed.

Lemma version_byte b :
  0 <= b < 256 ->
  let b' := Z.lor (Z.land b 15) 64 in
  (0 <=? b') && (b' <? 256) && (hexDigit (b' / 16) =? 52)%N
  && isHexDigit (hexDigit (b' mod 16)) = true.
Proof.
  apply (byte_cases (fun b => let b' := Z.lor (Z.land b 15) 64 in
                              (0 <=? b') && (b' <? 256) && (hexDigit (b' / 16) =? 52)%N
                              && isHexDigit (hexDigit (b' mod 16)))).
  by vm_compute.
Qed.

Lemma variant_byte b :
  0 <= b < 256 ->
  let b' := Z.lor (Z.land b 63) 128 in
  let c := hexDigit (b' / 16) in
  (0 <=? b') && (b' <? 256) && ((c =? 56) || (c =? 57) || (c =? 97) || (c =? 98))%N
  && isHexDigit (hexDigit (b' mod 16)) = true.
Proof.
  apply (byte_cases (fun b => let b' := Z.lor (Z.land b 63) 128 in
                              let c := hexDigit (b' / 16) in
                              (0 <=? b') && (b' <? 256)
                              && ((c =? 56) || (c =? 57) || (c =? 97) || (c =? 98))%N
                              && isHexDigit (hexDigit (b' mod 16)))).
  by vm_compute.
Qed.

(** X22. On sixteen random bytes [fallbackUUID] returns a well-formed
    version 4 UUID: 36 characters, [-] at positions 8, 13, 18 and 23, the
    version digit [4] at position 14, one of [8 9 a b] at position 19, and
    lower-case hexadecimal digits elsewhere. *)
Theorem fallbackUUID_is_v4 (random : list Z) :
  length random = 16%nat ->
  Forall (fun b => 0 <= b < 256) random ->
  isUUIDv4 (fallbackUUID random) = true.
Proof.
  intros Hlen Hbytes.
  do 16 (destruct random as [|? random]; [done|]). destruct random; [|done]. clear Hlen.
  repeat match goal with
         | H : Forall _ (_ :: _) |- _ => apply Forall_cons in H as [? H]
         end.
  unfold fallbackUUID.
  cbn [lookup list_lookup insert list_insert fmap list_fmap concat].
  pose proof (version_byte _ H5) as Hversion. pose proof (variant_byte _ H7) as Hvariant.
  cbv zeta in Hversion, Hvariant.
  set (b6 := Z.lor (Z.land z5 15) 64) in *. set (b8 := Z.lor (Z.land z7 63) 128) in *.
  apply andb_true_iff in Hversion as [[[Hb6 Hb6']%andb_true_iff Hfour]%andb_true_iff Hlow6].
  apply andb_true_iff in Hvariant as [[[Hb8 Hb8']%andb_true_iff Hy]%andb_true_iff Hlow8].
  apply Z.leb_le in Hb6, Hb8. apply Z.ltb_lt in Hb6', Hb8'.
  rewrite !padStart2_byte by lia.
  repeat match goal with
         | Hb : 0 <= ?b < 256 |- _ =>
           apply hexDigit_byte in Hb; apply andb_true_iff in Hb as [? ?]
         end.
  repeat match goal with
         | |- context [hexDigit ?x] =>
           let h := fresh "h" in set (h := hexDigit x) in *; clearbody h
         end.
  apply N.eqb_eq in Hfour. subst.
  repeat match goal with
         | |- context [slice ?digits ?a ?b] =>
           let t := eval vm_compute in (slice digits a b) in
           change (slice digits a b) with t
         end.
  unfold isUUIDv4. cbn -[isHexDigit N.eqb orb].
  repeat match goal with
         | |- context [bool_decide (?i ∈ ?positions)] =>
           let t := eval vm_compute in (bool_decide (i ∈ positions)) in
           change (bool_decide (i ∈ positions)) with t
         end.
  cbv iota.
  repeat match goal with
         | Hdigit : isHexDigit _ = true |- _ => rewrite ?Hdigit; clear Hdigit
         end.
  rewrite Hy. reflexivity.
Qed.

Lemma fallbackUUID_is_v4_witness :
  fallbackUUID [0; 17; 34; 51; 68; 85; 102; 119; 136; 153; 170; 187; 204; 221; 238; 255]
  = str "00112233-4455-4677-8899-aabbccddeeff" /\
  isUUIDv4 (str "00112233-4455-4677-8899-aabbccddeeff") = true.
Proof.
  split; [reflexivity|].
  apply (fallbackUUID_is_v4
           [0; 17; 34; 51; 68; 85; 102; 119; 136; 153; 170; 187; 204; 221; 238; 255]).
  - reflexivity.
  - repeat (apply Forall_cons; split; [lia|]). apply Forall_nil. done.
Defined.

(** ** Forwarding, queuing and retrying *)

Section Forwarding.
Context {R : Type} {RB : AgentCommentsBackend R} {HO : Host}.

(** X23. No operation is lost and none is sent twice: each of the six
    mutating methods of the wrapper, when its sidecar write succeeds, either
    issues its call to the wrapped backend once, successfully, and leaves
    the outbox as it was, or appends the operation to the outbox as one new
    entry with [retryCount] 0 (after one failed call, or without a call when
    the backend is not connected).  A method that throws sends and queues
    nothing. *)
Theorem operations_forwarded_or_queued (s : OfflineAwareBackend.t R) :
  (forall a fm,
     remoteOutcome (str "createThread") CreateThread (CreateThreadPayload a fm) s
       (OfflineAwareBackend.createThread a fm s)) /\
  (forall t m,
     remoteOutcome (str "addMessage") AddMessage (AddMessagePayload t m) s
       (OfflineAwareBackend.addMessage t m s)) /\
  (forall t,
     remoteOutcome (str "resolveThread") ResolveThread (ThreadIdPayload t) s
       (OfflineAwareBackend.resolveThread t s)) /\
  (forall t,
     remoteOutcome (str "reopenThread") ReopenThread (ThreadIdPayload t) s
       (OfflineAwareBackend.reopenThread t s)) /\
  (forall t m,
     remoteOutcome (str "acceptSuggestion") AcceptSuggestion (SuggestionPayload t m) s
       (OfflineAwareBackend.acceptSuggestion t m s)) /\
  (forall t m,
     remoteOutcome (str "rejectSuggestion") RejectSuggestion (SuggestionPayload t m) s
       (OfflineAwareBackend.rejectSuggestion t m s)).
Proof.
  assert (Hgen : forall A (local : LocalBackend.M A) type m p,
            remoteOutcome type m p s (OfflineAwareBackend.sidecarFirst local type m p s)).
  { intros A local type m p. unfold remoteOutcome, OfflineAwareBackend.sidecarFirst.
    destruct (local (OfflineAwareBackend.core s)) as [c [a|e]]; cbn [fst snd]; [|done].
    unfold forwardedOrQueued, OfflineAwareBackend.forwardOrQueue,
      OfflineAwareBackend.callWrapped, OfflineAwareBackend.enqueue, LocalBackend.now.
    change (OfflineAwareBackend.isConnected (OfflineAwareBackend.set_core c s))
      with (OfflineAwareBackend.isConnected s).
    destruct (OfflineAwareBackend.isConnected s) eqn:Hconn.
    - unfold_updates.
      destruct (call m p (OfflineAwareBackend.wrapped s)) as [w [|]]; unfold_updates.
      + left. done.
      + right. eexists. split; [done|]. right. done.
    - unfold_updates. right. eexists. split; [done|]. left. done. }
  repeat split; intros; apply Hgen.
Qed.

Lemma retriesBelowCap_app queue queue' :
  retriesBelowCap (queue ++ queue') = retriesBelowCap queue && retriesBelowCap queue'.
Proof. apply forallb_app. Qed.

Lemma drainLoop_retriesBelowCap (queue : list OutboxEntry) (s : OfflineAwareBackend.t R) :
  OfflineAwareBackend.outbox s = queue ->
  retriesBelowCap queue = true ->
  retriesBelowCap (OfflineAwareBackend.outbox (OfflineAwareBackend.drainLoop queue s))
  = true.
Proof.
  revert s. induction queue as [|entry rest IH]; intros s Hq Hcap; simpl.
  - by rewrite Hq.
  - destruct (OfflineAwareBackend.isConnected s); [|by rewrite Hq].
    cbn [retriesBelowCap forallb] in Hcap.
    apply andb_true_iff in Hcap as [Hentry Hrest].
    destruct (OfflineAwareBackend.forwardToBackend entry s) as [s1 [|]].
    + by apply IH.
    + case_bool_decide as Hbump; [by apply IH|]. unfold_updates.
      cbn [retriesBelowCap forallb OfflineAwareBackend.bumpRetry retryCount] in *.
      apply andb_true_iff in Hentry as [Hlow _]. apply Z.leb_le in Hlow.
      apply andb_true_iff. split; [|done].
      apply andb_true_iff. split; [apply Z.leb_le; lia|apply Z.ltb_lt; lia].
Qed.

(** X24. An outbox entry is never kept once it has failed [MAX_RETRY_COUNT]
    times: if every queued entry has a [retryCount] from 0 to 2, this is again
    so after each mutating method, after a drain cycle and after [connect]. *)
Theorem retries_stay_below_cap (s : OfflineAwareBackend.t R) :
  retriesBelowCap (OfflineAwareBackend.outbox s) = true ->
  (forall a fm,
     retriesBelowCap (OfflineAwareBackend.outbox (OfflineAwareBackend.createThread a fm s).1)
     = true) /\
  (forall t m,
     retriesBelowCap (OfflineAwareBackend.outbox (OfflineAwareBackend.addMessage t m s).1)
     = true) /\
  (forall t,
     retriesBelowCap (OfflineAwareBackend.outbox (OfflineAwareBackend.resolveThread t s).1)
     = true) /\
  (forall t,
     retriesBelowCap (OfflineAwareBackend.outbox (OfflineAwareBackend.reopenThread t s).1)
     = true) /\
  (forall t m,
     retriesBelowCap
       (OfflineAwareBackend.outbox (OfflineAwareBackend.acceptSuggestion t m s).1) = true) /\
  (forall t m,
     retriesBelowCap
       (OfflineAwareBackend.outbox (OfflineAwareBackend.rejectSuggestion t m s).1) = true) /\
  retriesBelowCap (OfflineAwareBackend.outbox (OfflineAwareBackend.drainOutbox s)) = true /\
  retriesBelowCap (OfflineAwareBackend.outbox (OfflineAwareBackend.connectBackend s)) = true.
Proof.
  intros Hcap.
  assert (Hgen : forall A (local : LocalBackend.M A) type m p,
            retriesBelowCap
              (OfflineAwareBackend.outbox
                 (OfflineAwareBackend.sidecarFirst local type m p s).1) = true).
  { intros A local type m p. unfold OfflineAwareBackend.sidecarFirst.
    destruct (local (OfflineAwareBackend.core s)) as [c [a|e]]; cbn [fst]; [|done].
    unfold OfflineAwareBackend.forwardOrQueue, OfflineAwareBackend.callWrapped,
      OfflineAwareBackend.enqueue, LocalBackend.now.
    destruct (OfflineAwareBackend.isConnected _).
    - unfold_updates.
      destruct (call m p (OfflineAwareBackend.wrapped s)) as [w [|]]; unfold_updates;
        [done|]. by rewrite retriesBelowCap_app, Hcap.
    - unfold_updates. by rewrite retriesBelowCap_app, Hcap. }
  assert (Hdrain : forall s0 : OfflineAwareBackend.t R,
            retriesBelowCap (OfflineAwareBackend.outbox s0) = true ->
            retriesBelowCap (OfflineAwareBackend.outbox (OfflineAwareBackend.drainOutbox s0))
            = true).
  { intros s0 Hcap0. unfold OfflineAwareBackend.drainOutbox.
    destruct (_ || _); [done|]. unfold_updates.
    by apply drainLoop_retriesBelowCap. }
  repeat split; intros; try apply Hgen.
  - by apply Hdrain.
  - unfold OfflineAwareBackend.connectBackend.
    destruct (connect (OfflineAwareBackend.wrapped s)) as [w [|]]; [|done].
    by apply Hdrain.
Qed.

(** X25. When the wrapped backend stays connected and accepts every call, a
    drain cycle delivers the whole outbox: the requests of all entries are
    sent, in queue order, each once and successfully, and the outbox is left
    empty.  [reliable] is any set of states of the wrapped backend that it
    does not leave and in which it is connected and accepts calls. *)
Theorem drainOutbox_delivers_all (reliable : R -> Prop) (s : OfflineAwareBackend.t R) :
  (forall w m p,
     reliable w ->
     connectionStatus w = Connected /\ (call m p w).2 = true /\ reliable (call m p w).1) ->
  reliable (OfflineAwareBackend.wrapped s) ->
  OfflineAwareBackend.draining s = false ->
  let s' := OfflineAwareBackend.drainOutbox s in
  OfflineAwareBackend.outbox s' = [] /\
  OfflineAwareBackend.sent s' =
    OfflineAwareBackend.sent s ++
    ((fun request => (request, true)) <$> omap requestOf (OfflineAwareBackend.outbox s)) /\
  OfflineAwareBackend.core s' = OfflineAwareBackend.core s.
Proof.
  intros Hreliable Hstart Hdraining s'. subst s'.
  assert (Hloop : forall queue (s0 : OfflineAwareBackend.t R),
            reliable (OfflineAwareBackend.wrapped s0) ->
            OfflineAwareBackend.outbox s0 = queue ->
            let s1 := OfflineAwareBackend.drainLoop queue s0 in
            OfflineAwareBackend.outbox s1 = [] /\
            OfflineAwareBackend.sent s1 =
              OfflineAwareBackend.sent s0 ++
              ((fun request => (request, true)) <$> omap requestOf queue) /\
            OfflineAwareBackend.core s1 = OfflineAwareBackend.core s0 /\
            OfflineAwareBackend.draining s1 = OfflineAwareBackend.draining s0).
  { induction queue as [|entry rest IH]; intros s0 Hw Hq; cbn [OfflineAwareBackend.drainLoop].
    - cbv zeta. rewrite Hq. by rewrite app_nil_r.
    - assert (Hconn : OfflineAwareBackend.isConnected s0 = true).
      { unfold OfflineAwareBackend.isConnected.
        destruct (Hreliable (OfflineAwareBackend.wrapped s0) CreateThread
                    (payload entry) Hw) as [-> _]. done. }
      rewrite Hconn. unfold OfflineAwareBackend.forwardToBackend, requestOf.
      cbn [omap list_omap]. fold requestOf.
      destruct (OfflineAwareBackend.methodOf (entry_type entry)) as [m|].
      + unfold OfflineAwareBackend.callWrapped.
        destruct (Hreliable (OfflineAwareBackend.wrapped s0) m (payload entry) Hw)
          as (_ & Hok & Hnext).
        destruct (call m (payload entry) (OfflineAwareBackend.wrapped s0)) as [w ok].
        cbn [fst snd] in Hok, Hnext. subst ok.
        edestruct (IH (OfflineAwareBackend.set_outbox rest
                         (OfflineAwareBackend.set_sent
                            (OfflineAwareBackend.sent s0 ++ [(m, payload entry, true)])
                            (OfflineAwareBackend.set_wrapped w s0))))
          as (Hout & Hsent & Hcore & Hdr); [done|done|].
        cbv zeta. split; [done|]. split; [|by split].
        rewrite Hsent. unfold_updates. by rewrite <- app_assoc.
      + edestruct (IH (OfflineAwareBackend.set_outbox rest s0))
          as (Hout & Hsent & Hcore & Hdr); [done|done|].
        cbv zeta. by split. }
  unfold OfflineAwareBackend.drainOutbox. rewrite Hdraining. cbn [orb].
  destruct (OfflineAwareBackend.outbox s) as [|entry rest] eqn:Hq.
  - cbn [length Nat.eqb]. rewrite Hq. cbn [omap list_omap fmap list_fmap].
    by rewrite app_nil_r.
  - cbn [length Nat.eqb].
    edestruct (Hloop (entry :: rest) (OfflineAwareBackend.set_draining true s))
      as (Hout & Hsent & Hcore & _); [done|by unfold_updates|].
    cbv zeta in Hout, Hsent, Hcore.
    change (OfflineAwareBackend.outbox (OfflineAwareBackend.set_draining true s))
      with (OfflineAwareBackend.outbox s).
    rewrite Hq. unfold_updates. by split.
Qed.

End Forwarding.

Section ForwardingWitnesses.
#[local] Existing Instance mockBackend.
#[local] Existing Instance sampleHost.

Lemma retries_stay_below_cap_witness :
  let s := sampleOffline (mkMock Connected false true) (sampleBackend Pending)
             [queuedCreate; queuedMessage] in
  retriesBelowCap (OfflineAwareBackend.outbox s) = true /\
  retriesBelowCap (OfflineAwareBackend.outbox (OfflineAwareBackend.drainOutbox s)) = true /\
  retryCount <$> OfflineAwareBackend.outbox (OfflineAwareBackend.drainOutbox s) = [1].
Proof.
  intros s. split; [reflexivity|].
  destruct (retries_stay_below_cap s eq_refl) as (_ & _ & _ & _ & _ & _ & Hdrain & _).
  split; [exact Hdrain|reflexivity].
Defined.

Lemma drainOutbox_delivers_all_witness :
  let s := sampleOffline (mkMock Connected false false) (sampleBackend Pending)
             [queuedCreate; queuedMessage] in
  let s' := OfflineAwareBackend.drainOutbox s in
  OfflineAwareBackend.outbox s' = [] /\
  OfflineAwareBackend.sent s' =
    [(CreateThread, payload queuedCreate, true); (AddMessage, payload queuedMessage, true)].
Proof.
  intros s s'.
  destruct (drainOutbox_delivers_all (fun w => w = mkMock Connected false false) s)
    as (Hout & Hsent & _).
  - intros w m p ->. by destruct m.
  - reflexivity.
  - reflexivity.
  - split; [exact Hout|exact Hsent].
Defined.

End ForwardingWitnesses.

(** ** Local writes to one thread *)

Section ThreadWrites.
Context {HO : Host}.

(** An assignment to the thread at [l], [thread.updatedAt = nowISO()] and
    the save that follows, on a markdown document: the state they leave. *)
Lemma update_touch_persist (b : LocalBackend.t) (file : TFile) (l : loc)
    (f : CommentThread -> CommentThread) (thread : CommentThread) :
  LocalBackend.store b !! l = Some thread ->
  extension file = str "md" ->
  exists b',
    LocalBackend.persist file (LocalBackend.touch l (LocalBackend.updateThread l f b))
    = (b', Ok tt) /\
    LocalBackend.store b' =
      <[l := setUpdatedAt (nowISO (LocalBackend.clockReads b)) (f thread)]>
        (LocalBackend.store b) /\
    LocalBackend.threads b' = LocalBackend.threads b /\
    LocalBackend.activeFile b' = LocalBackend.activeFile b /\
    LocalBackend.anchorIndex b' = LocalBackend.anchorIndex b /\
    LocalBackend.clockReads b' = S (LocalBackend.clockReads b) /\
    LocalBackend.idsDrawn b' = LocalBackend.idsDrawn b /\
    LocalBackend.notified b' = LocalBackend.notified b /\
    LocalBackend.onNewThreadCallback b' = LocalBackend.onNewThreadCallback b /\
    LocalBackend.onNewMessageCallback b' = LocalBackend.onNewMessageCallback b /\
    LocalBackend.onSuggestionCallback b' = LocalBackend.onSuggestionCallback b /\
    LocalBackend.vault b' =
      writeFile (LocalBackend.vault b) (slice (path file) 0 (-3) ++ SIDECAR_EXTENSION)
        (path file) (LocalBackend.getThreads b').
Proof.
  intros Hl Hext. unfold LocalBackend.touch, LocalBackend.now.
  rewrite (updateThread_found b l _ thread Hl).
  erewrite updateThread_found.
  2:{ unfold_updates. apply list_lookup_insert_eq. by eapply lookup_lt_Some. }
  unfold LocalBackend.persist, saveImmediate. rewrite (getPath_markdown _ Hext).
  eexists. split; [reflexivity|]. unfold LocalBackend.getThreads. unfold_updates.
  rewrite list_insert_insert_eq. by repeat split.
Qed.

(** The thread found under an id is found again, at the same place, after
    an assignment that keeps its id. *)
Lemma findThread_after_update (b b' : LocalBackend.t) threadId (l : loc) thread thread' :
  LocalBackend.findThread b threadId = Some (l, thread) ->
  LocalBackend.threads b' = LocalBackend.threads b ->
  LocalBackend.store b' = <[l := thread']> (LocalBackend.store b) ->
  id thread' = id thread ->
  LocalBackend.findThread b' threadId = Some (l, thread').
Proof.
  intros Hfind Hthreads Hstore Hid. unfold LocalBackend.findThread in *.
  pose proof (findIn_Some _ _ _ _ _ Hfind) as [Hl _].
  rewrite Hthreads, Hstore.
  destruct (findIn_same_ids _ (<[l := thread']> (LocalBackend.store b)) _ _ _ _
              (insert_same_ids _ l thread thread' Hl Hid) Hfind) as (t' & Hl' & Hfound).
  rewrite list_lookup_insert_eq in Hl' by (by eapply lookup_lt_Some).
  by injection Hl' as <-.
Qed.

(** X26. [addMessage] on a thread of a markdown document returns the message
    and appends it at the end of the messages of that thread, whose
    [updatedAt] it sets to the current time; no other thread object and no
    other field changes, the new thread list is written to the sidecar, and
    the [onNewMessage] callback, when one is registered, is invoked once. *)
Theorem addMessage_appends (b : LocalBackend.t) (threadId : jsstring)
    (message : ThreadMessage) (file : TFile) (l : loc) (thread : CommentThread) :
  LocalBackend.activeFile b = Some file ->
  extension file = str "md" ->
  LocalBackend.findThread b threadId = Some (l, thread) ->
  exists b',
    LocalBackend.addMessage threadId message b = (b', Ok message) /\
    LocalBackend.store b' =
      <[l := setUpdatedAt (nowISO (LocalBackend.clockReads b))
               (setMessages (messages thread ++ [message]) thread)]>
        (LocalBackend.store b) /\
    LocalBackend.threads b' = LocalBackend.threads b /\
    LocalBackend.vault b' !! (slice (path file) 0 (-3) ++ SIDECAR_EXTENSION)
    = Some (FileEntry (JSON_stringify
              (mkSidecarFile SCHEMA_VERSION (path file) (LocalBackend.getThreads b')))) /\
    LocalBackend.notified b' =
      LocalBackend.notified b ++
      (if LocalBackend.onNewMessageCallback b
       then [NewMessageNotification threadId message] else []).
Proof.
  intros Hfile Hext Hfind.
  pose proof (findIn_Some _ _ _ _ _ Hfind) as [Hl _].
  unfold LocalBackend.addMessage. rewrite Hfile, Hfind.
  destruct (update_touch_persist b file l
              (fun t => setMessages (messages t ++ [message]) t) thread Hl Hext)
    as (b1 & -> & Hstore & Hthreads & _ & _ & _ & _ & Hnotified & _ & Hcallback & _ & Hvault).
  eexists. split; [reflexivity|].
  unfold LocalBackend.getThreads. rewrite Hcallback.
  destruct (LocalBackend.onNewMessageCallback b); unfold LocalBackend.notify;
    unfold_updates; rewrite Hvault, Hnotified, ?app_nil_r;
    (split; [done|]); (split; [done|]); (split; [apply writeFile_lookup|done]).
Qed.

(** X27. [resolveThread] sets the status of the thread to resolved and
    [reopenThread] sets it back to open; each sets [updatedAt] to the time
    of the call and writes the sidecar.  After the two calls the thread
    differs from what it was in its status, now open, and [updatedAt] only,
    and no other thread object has changed. *)
Theorem resolve_then_reopen (b : LocalBackend.t) (threadId : jsstring)
    (file : TFile) (l : loc) (thread : CommentThread) :
  LocalBackend.activeFile b = Some file ->
  extension file = str "md" ->
  LocalBackend.findThread b threadId = Some (l, thread) ->
  exists b1 b2,
    LocalBackend.resolveThread threadId b = (b1, Ok tt) /\
    LocalBackend.store b1 =
      <[l := setUpdatedAt (nowISO (LocalBackend.clockReads b)) (setStatus Resolved thread)]>
        (LocalBackend.store b) /\
    LocalBackend.reopenThread threadId b1 = (b2, Ok tt) /\
    LocalBackend.store b2 =
      <[l := setUpdatedAt (nowISO (S (LocalBackend.clockReads b))) (setStatus Open thread)]>
        (LocalBackend.store b) /\
    LocalBackend.threads b2 = LocalBackend.threads b /\
    LocalBackend.vault b2 !! (slice (path file) 0 (-3) ++ SIDECAR_EXTENSION)
    = Some (FileEntry (JSON_stringify
              (mkSidecarFile SCHEMA_VERSION (path file) (LocalBackend.getThreads b2)))).
Proof.
  intros Hfile Hext Hfind.
  pose proof (findIn_Some _ _ _ _ _ Hfind) as [Hl _].
  destruct (update_touch_persist b file l (setStatus Resolved) thread Hl Hext)
    as (b1 & Hpersist1 & Hstore1 & Hthreads1 & Hfile1 & _ & Hclock1 & _).
  set (thread1 := setUpdatedAt _ (setStatus Resolved thread)) in *.
  assert (Hfind1 : LocalBackend.findThread b1 threadId = Some (l, thread1))
    by (by eapply findThread_after_update).
  assert (Hl1 : LocalBackend.store b1 !! l = Some thread1).
  { rewrite Hstore1. apply list_lookup_insert_eq. by eapply lookup_lt_Some. }
  destruct (update_touch_persist b1 file l (setStatus Open) thread1 Hl1 Hext)
    as (b2 & Hpersist2 & Hstore2 & Hthreads2 & _ & _ & _ & _ & _ & _ & _ & _ & Hvault2).
  exists b1, b2.
  split; [|split; [done|split; [|split; [|split; [congruence|]]]]].
  - unfold LocalBackend.resolveThread, LocalBackend.setThreadStatus.
    by rewrite Hfile, Hfind.
  - unfold LocalBackend.reopenThread, LocalBackend.setThreadStatus.
    by rewrite Hfile1, Hfile, Hfind1.
  - rewrite Hstore2, Hstore1, Hclock1, list_insert_insert_eq. done.
  - rewrite Hvault2. apply writeFile_lookup.
Qed.

End ThreadWrites.

Section ThreadWritesWitnesses.
#[local] Existing Instance sampleHost.

Lemma addMessage_appends_witness :
  let reply := mkThreadMessage (str "m2") (str "human") Human (str "Done")
                 (str "2026-02-27T11:00:00Z") None None in
  exists b',
    LocalBackend.addMessage (str "t1") reply (sampleBackend Pending) = (b', Ok reply) /\
    messages <$> LocalBackend.getThreads b' = [[sampleMessage Pending; reply]] /\
    LocalBackend.notified b' = [NewMessageNotification (str "t1") reply].
Proof.
  intros reply.
  destruct (addMessage_appends (sampleBackend Pending) (str "t1") reply testFile 0%nat
              (sampleThread Pending) eq_refl eq_refl eq_refl)
    as (b' & Hadd & Hstore & Hthreads & _ & Hnotified).
  exists b'. split; [exact Hadd|]. split; [|exact Hnotified].
  unfold LocalBackend.getThreads. rewrite Hstore, Hthreads. reflexivity.
Defined.

Lemma resolve_then_reopen_witness :
  exists b1 b2,
    LocalBackend.resolveThread (str "t1") (sampleBackend Pending) = (b1, Ok tt) /\
    status <$> LocalBackend.getThreads b1 = [Resolved] /\
    LocalBackend.reopenThread (str "t1") b1 = (b2, Ok tt) /\
    status <$> LocalBackend.getThreads b2 = [Open].
Proof.
  destruct (resolve_then_reopen (sampleBackend Pending) (str "t1") testFile 0%nat
              (sampleThread Pending) eq_refl eq_refl eq_refl)
    as (b1 & b2 & Hresolve & Hstore1 & Hreopen & Hstore2 & Hthreads2 & _).
  exists b1, b2. split; [exact Hresolve|]. split; [|split; [exact Hreopen|]].
  - unfold LocalBackend.getThreads. rewrite Hstore1.
    rewrite (proj1 (proj2 (persist_Ok testFile _ _ Hresolve))).
    reflexivity.
  - unfold LocalBackend.getThreads. rewrite Hstore2, Hthreads2. reflexivity.
Defined.

End ThreadWritesWitnesses.

(** ** Suggestions pushed by the service *)

Section IncomingSuggestions.
Context {R : Type} {RB : AgentCommentsBackend R} {HO : Host}.






End IncomingSuggestions.

(** ** The properties above on the documents of the tests *)

Section EvaluationOnSamples.
#[local] Existing Instance mockBackend.
#[local] Existing Instance sampleHost.

Lemma acceptSuggestion_replaces_within_anchor_witness :
  let doc := vaultRead (LocalBackend.vault reviewBackend) testFile in
  exists (k : nat) b',
    LocalBackend.acceptSuggestion (str "t1") (str "m1") reviewBackend = (b', Ok tt) /\
    0 + Z.of_nat k + Z.of_nat (length (str "foo")) <= 7 /\
    occursAt doc (str "foo") (Z.to_nat 0 + k) /\
    vaultRead (LocalBackend.vault b') testFile
    = take (Z.to_nat 0 + k) doc ++ str "quux"
        ++ drop (Z.to_nat 0 + k + length (str "foo")) doc.
Proof.
  apply (acceptSuggestion_replaces_within_anchor reviewBackend (str "t1") (str "m1")
           testFile 0%nat reviewThread 0%nat (sampleMessage Pending)
           (sampleSuggestion Pending)); try reflexivity.
  - discriminate.
  - discriminate.
  - by exists 0%nat.
Defined.

Lemma acceptSuggestion_then_terminal_witness :
  let b' := (LocalBackend.acceptSuggestion (str "t1") (str "m1") reviewBackend).1 in
  LocalBackend.acceptSuggestion (str "t1") (str "m1") b' = (b', Throw AlreadyDecided) /\
  LocalBackend.rejectSuggestion (str "t1") (str "m1") b' = (b', Throw AlreadyDecided).
Proof.
  intros b'. apply (acceptSuggestion_then_terminal reviewBackend b').
  vm_compute. reflexivity.
Defined.

Lemma rejectSuggestion_then_terminal_witness :
  let b' := (LocalBackend.rejectSuggestion (str "t1") (str "m1")
               (sampleBackend Pending)).1 in
  LocalBackend.acceptSuggestion (str "t1") (str "m1") b' = (b', Throw AlreadyDecided) /\
  LocalBackend.rejectSuggestion (str "t1") (str "m1") b' = (b', Throw AlreadyDecided).
Proof.
  intros b'. apply (rejectSuggestion_then_terminal (sampleBackend Pending) b').
  vm_compute. reflexivity.
Defined.

Lemma handleIncomingThread_twice_after_resume_witness :
  let s := sampleOffline (mkMock Connected false false) (sampleBackend Pending) [] in
  let s1 := OfflineAwareBackend.reanchorAndAddThread_resume
              (OfflineAwareBackend.handleIncomingThread agentThread s) in
  OfflineAwareBackend.handleIncomingThread agentThread s1 = s1.
Proof.
  intros s.
  apply (handleIncomingThread_twice_after_resume s agentThread testFile); reflexivity.
Defined.


End EvaluationOnSamples.

(* ================================================================== *)
(** * Anchors as the code receives them: properties *)
(* ================================================================== *)

(** ** Arithmetic of doubles on integers *)

Lemma roundToDouble_exact z : exactInteger z -> roundToDouble z = Integer z.
Proof.
  unfold exactInteger, roundToDouble. intros Hz.
  by rewrite (proj2 (Z.leb_le _ _) Hz).
Qed.

Lemma num_add_exact a b :
  exactInteger (a + b) -> num_add (Integer a) (Integer b) = Integer (a + b).
Proof. intros Hz. unfold num_add. by apply roundToDouble_exact. Qed.

Lemma num_sub_exact a b :
  exactInteger (a - b) -> num_sub (Integer a) (Integer b) = Integer (a - b).
Proof.
  intros Hz. unfold num_sub, num_neg, num_add.
  rewrite Z.add_opp_r. by apply roundToDouble_exact.
Qed.

Lemma num_lt_Integer a b : num_lt (Integer a) (Integer b) = (a <? b).
Proof. reflexivity. Qed.

Lemma num_le_Integer a b : num_le (Integer a) (Integer b) = (a <=? b).
Proof.
  unfold num_le, num_lt, num_eq.
  destruct (Z.ltb_spec a b), (Z.eqb_spec a b), (Z.leb_spec a b); simpl; try done; lia.
Qed.

Lemma num_ge_Integer a b : num_ge (Integer a) (Integer b) = (b <=? a).
Proof. unfold num_ge. apply num_le_Integer. Qed.

Lemma num_lt_bestDistanceOf d bestDistance :
  num_lt (Integer d) (bestDistanceOf bestDistance) = lessThan d bestDistance.
Proof. by destruct bestDistance. Qed.

(** ** The resolver on an integer [startOffset]

    When the recorded [startOffset] is an integer and the distances to it
    are computed exactly, the resolver does on any anchor what it does on
    the anchor with integer offsets. *)

Lemma JS_findClosestMatch_loop fuel needle hay s from bo bd :
  needle <> [] ->
  exactInteger (Z.abs s + Z.of_nat (length hay)) ->
  JS.findClosestMatch_loop fuel needle hay (Integer s) from bo (bestDistanceOf bd)
  = findClosestMatch_loop fuel needle hay s from bo bd.
Proof.
  intros Hne Hexact. revert from bo bd.
  induction fuel as [|fuel IH]; intros from bo bd;
    cbn [JS.findClosestMatch_loop findClosestMatch_loop]; [done|].
  destruct (Z.leb_spec (Z.of_nat from)
              (Z.of_nat (length hay) - Z.of_nat (length needle))) as [Hle|Hgt];
    [|done].
  destruct (indexOf hay needle from) as [idx|] eqn:Hidx; [|done].
  apply indexOf_Some in Hidx as (_ & Hocc & _); [|lia].
  apply (occursAt_bound _ _ _ Hne) in Hocc as [_ Hlt].
  rewrite num_sub_exact by (unfold exactInteger in *; lia).
  cbn [Math_abs]. rewrite num_lt_bestDistanceOf.
  destruct (lessThan _ bd).
  - apply (IH _ _ (Some _)).
  - apply IH.
Qed.

Lemma JS_findClosestMatch_integer needle hay s :
  exactInteger (Z.abs s + Z.of_nat (length hay)) ->
  JS.findClosestMatch needle hay (Integer s) = findClosestMatch needle hay s.
Proof.
  intros Hexact. unfold JS.findClosestMatch, findClosestMatch.
  destruct needle as [|c needle]; [done|]. simpl Nat.eqb. cbv iota.
  by apply (JS_findClosestMatch_loop _ _ _ _ _ _ None).
Qed.

Lemma JS_exactMatch_integerView (a : JS.TextAnchor) (doc : jsstring) (s : Z) :
  JS.startOffset a = Integer s ->
  JS.exactMatch a doc = exactMatch (integerView s a) doc.
Proof.
  intros Hs. unfold JS.exactMatch, exactMatch, integerView, sliceNumber, slice.
  rewrite Hs. cbn [startOffset endOffset anchorText].
  rewrite num_ge_Integer.
  destruct (JS.endOffset a) as [e| | |].
  - by rewrite num_le_Integer, num_lt_Integer.
  - by rewrite Z.ltb_irrefl, !andb_false_r.
  - by rewrite Z.ltb_irrefl, !andb_false_r.
  - by rewrite Z.ltb_irrefl, !andb_false_r.
Qed.

Lemma JS_resolveAnchor_integerView (a : JS.TextAnchor) (doc : jsstring) (s : Z) :
  JS.startOffset a = Integer s ->
  exactInteger (Z.abs s + Z.of_nat (length doc)) ->
  JS.resolveAnchor a doc = resolvedOfIntegers <$> resolveAnchor (integerView s a) doc.
Proof.
  intros Hs Hexact. unfold JS.resolveAnchor, resolveAnchor.
  destruct (length doc =? 0)%nat; [done|].
  rewrite (JS_exactMatch_integerView a doc s Hs).
  destruct (exactMatch (integerView s a) doc) eqn:Hmatch.
  - apply exactMatch_sound in Hmatch as (_ & Hlt & _).
    unfold integerView in *. cbn [startOffset endOffset] in *.
    rewrite Hs. destruct (JS.endOffset a); try lia. done.
  - rewrite Hs, JS_findClosestMatch_integer by done.
    cbn [anchorText startOffset sectionHeading integerView].
    destruct (findClosestMatch (JS.anchorText a) doc s) as [k|] eqn:Hfind.
    + apply findClosestMatch_Some in Hfind as (_ & _ & Hk).
      rewrite num_add_exact by (unfold exactInteger in *; lia). done.
    + destruct (truthyHeading (JS.sectionHeading a)) as [heading|]; [|done].
      destruct (resolveViaHeading (JS.anchorText a) doc heading) as [k|] eqn:Hvia;
        [|done].
      apply resolveViaHeading_Some in Hvia as [_ Hk].
      rewrite num_add_exact by (unfold exactInteger in *; lia). done.
Qed.

(** ** The text-search layer *)

(** C4 (text-search closest match), as amended.  For an anchor whose
    recorded [startOffset] is an integer [s] with [|s|] plus the length of
    the document at most 2^53, so that every distance is computed exactly,
    and whatever its [endOffset]: when the anchor text is not empty, the
    exact-offset layer fails and the anchor text occurs in the document,
    [resolveAnchor] answers a [TextSearch] result whose start is an
    occurrence of the anchor text at least as close to [s] as every other
    occurrence, and whose end is that start plus the length of the anchor
    text. *)
Theorem resolveAnchor_text_search_closest (anchor : JS.TextAnchor) (doc : jsstring)
    (s : Z) :
  JS.anchorText anchor <> [] ->
  JS.startOffset anchor = Integer s ->
  exactInteger (Z.abs s + Z.of_nat (length doc)) ->
  JS.exactMatch anchor doc = false ->
  (exists k, occursAt doc (JS.anchorText anchor) k) ->
  exists r : nat,
    JS.resolveAnchor anchor doc =
      Some (JS.mkResolved (Integer (Z.of_nat r))
              (Integer (Z.of_nat r + Z.of_nat (length (JS.anchorText anchor))))
              TextSearch) /\
    occursAt doc (JS.anchorText anchor) r /\
    forall k, occursAt doc (JS.anchorText anchor) k ->
      Z.abs (Z.of_nat r - s) <= Z.abs (Z.of_nat k - s).
Proof.
  intros Hne Hs Hexact Hmatch Hocc.
  rewrite (JS_exactMatch_integerView anchor doc s Hs) in Hmatch.
  destruct (resolveAnchor_text_search (integerView s anchor) doc Hne Hmatch Hocc)
    as (r & Hres & _ & Hr & Hmin).
  exists r. split; [|split; [done|]].
  - by rewrite (JS_resolveAnchor_integerView anchor doc s Hs Hexact), Hres.
  - intros k Hk.
    pose proof (occursAt_bound _ _ _ Hne Hk) as [_ Hlt].
    destruct (Hmin k ltac:(lia) Hk) as [?|[? _]]; simpl in *; lia.
Qed.

Lemma resolveAnchor_text_search_closest_witness :
  exists r : nat,
    JS.resolveAnchor (JS.mkTextAnchor (str "ab") (Integer 4) NaN None) (str "ab ab ab") =
      Some (JS.mkResolved (Integer (Z.of_nat r)) (Integer (Z.of_nat r + 2)) TextSearch) /\
    occursAt (str "ab ab ab") (str "ab") r /\
    forall k, occursAt (str "ab ab ab") (str "ab") k ->
      Z.abs (Z.of_nat r - 4) <= Z.abs (Z.of_nat k - 4).
Proof.
  apply (resolveAnchor_text_search_closest
           (JS.mkTextAnchor (str "ab") (Integer 4) NaN None) (str "ab ab ab") 4).
  - discriminate.
  - reflexivity.
  - vm_compute. discriminate.
  - reflexivity.
  - exists 0%nat. reflexivity.
Defined.

(** C4, the claim as it was stated, at an anchor whose [startOffset] has
    overflowed to [Infinity] (the JSON number [1e999]; the validators check
    no offset): the exact layer fails and the anchor text occurs twice, but
    every distance is [Infinity], none is below the initial [bestDistance],
    and [resolveAnchor] answers null. *)
Lemma resolveAnchor_infinite_startOffset_not_found :
  JS.anchorText overflownAnchor <> [] /\
  JS.exactMatch overflownAnchor (str "ab ab") = false /\
  occursAt (str "ab ab") (JS.anchorText overflownAnchor) 0 /\
  occursAt (str "ab ab") (JS.anchorText overflownAnchor) 3 /\
  JS.resolveAnchor overflownAnchor (str "ab ab") = None.
Proof. repeat split; try reflexivity. discriminate. Qed.

(** C10 (tie-break of the text-search layer), as amended.  Under the
    conditions of C4 as amended, the start of the answer is the smallest of
    the occurrences at minimal distance from the recorded [startOffset]:
    every occurrence at the same distance lies at or to the right of it. *)
Theorem resolveAnchor_text_search_leftmost (anchor : JS.TextAnchor) (doc : jsstring)
    (s : Z) :
  JS.anchorText anchor <> [] ->
  JS.startOffset anchor = Integer s ->
  exactInteger (Z.abs s + Z.of_nat (length doc)) ->
  JS.exactMatch anchor doc = false ->
  (exists k, occursAt doc (JS.anchorText anchor) k) ->
  exists r : nat,
    JS.resolveAnchor anchor doc =
      Some (JS.mkResolved (Integer (Z.of_nat r))
              (Integer (Z.of_nat r + Z.of_nat (length (JS.anchorText anchor))))
              TextSearch) /\
    occursAt doc (JS.anchorText anchor) r /\
    (forall k, occursAt doc (JS.anchorText anchor) k ->
       Z.abs (Z.of_nat r - s) <= Z.abs (Z.of_nat k - s)) /\
    (forall k, occursAt doc (JS.anchorText anchor) k ->
       Z.abs (Z.of_nat k - s) = Z.abs (Z.of_nat r - s) -> (r <= k)%nat).
Proof.
  intros Hne Hs Hexact Hmatch Hocc.
  rewrite (JS_exactMatch_integerView anchor doc s Hs) in Hmatch.
  destruct (resolveAnchor_text_search (integerView s anchor) doc Hne Hmatch Hocc)
    as (r & Hres & _ & Hr & Hmin).
  exists r. split; [|split; [done|split]].
  - by rewrite (JS_resolveAnchor_integerView anchor doc s Hs Hexact), Hres.
  - intros k Hk.
    pose proof (occursAt_bound _ _ _ Hne Hk) as [_ Hlt].
    destruct (Hmin k ltac:(lia) Hk) as [?|[? _]]; simpl in *; lia.
  - intros k Hk Heq.
    pose proof (occursAt_bound _ _ _ Hne Hk) as [_ Hlt].
    destruct (Hmin k ltac:(lia) Hk) as [?|[_ ?]]; simpl in *; lia.
Qed.

Lemma resolveAnchor_text_search_leftmost_witness :
  exists r : nat,
    JS.resolveAnchor (JS.mkTextAnchor (str "ab") (Integer 2) (Integer 4) None)
      (str "ab  ab") =
      Some (JS.mkResolved (Integer (Z.of_nat r)) (Integer (Z.of_nat r + 2)) TextSearch) /\
    occursAt (str "ab  ab") (str "ab") r /\
    (forall k, occursAt (str "ab  ab") (str "ab") k ->
       Z.abs (Z.of_nat r - 2) <= Z.abs (Z.of_nat k - 2)) /\
    (forall k, occursAt (str "ab  ab") (str "ab") k ->
       Z.abs (Z.of_nat k - 2) = Z.abs (Z.of_nat r - 2) -> (r <= k)%nat).
Proof.
  apply (resolveAnchor_text_search_leftmost
           (JS.mkTextAnchor (str "ab") (Integer 2) (Integer 4) None) (str "ab  ab") 2).
  - discriminate.
  - reflexivity.
  - vm_compute. discriminate.
  - reflexivity.
  - exists 4%nat. reflexivity.
Defined.

(** C10, the claim as it was stated, at an anchor whose [startOffset] is
    [-Infinity] (the JSON number [-1e999]): the anchor text occurs at 0 and
    at 4, both at distance [Infinity] from the recorded offset, which is
    the minimal distance; the exact layer fails; [resolveAnchor] answers
    null and not the left occurrence. *)
Lemma resolveAnchor_tie_at_infinite_distance :
  let anchor := JS.mkTextAnchor (str "ab") NegInfinity (Integer 2) None in
  let doc := str "ab  ab" in
  JS.exactMatch anchor doc = false /\
  occursAt doc (JS.anchorText anchor) 0 /\
  occursAt doc (JS.anchorText anchor) 4 /\
  Math_abs (num_sub (Integer 0) (JS.startOffset anchor)) = Infinity /\
  Math_abs (num_sub (Integer 4) (JS.startOffset anchor)) = Infinity /\
  JS.resolveAnchor anchor doc = None.
Proof. repeat split; reflexivity. Qed.

(** Beyond 2^53 distances are rounded: from the recorded offset 2^60 the
    occurrences at 1 and at 4 are both at the distance 2^60 as the code
    computes it, and the answer is the left one, which is the farther. *)
Example text_search_rounded_distance :
  JS.resolveAnchor (JS.mkTextAnchor (str "ab") (Integer (2 ^ 60)) (Integer 2) None)
    (str "xab ab")
  = Some (JS.mkResolved (Integer 1) (Integer 3) TextSearch) /\
  Z.abs (4 - 2 ^ 60) < Z.abs (1 - 2 ^ 60).
Proof. split; [vm_compute; reflexivity|lia]. Qed.

(** ** Orphans and the heading layer *)

(** X8. For an anchor with a non-empty anchor text whose recorded
    [startOffset] is an integer [s] with [|s|] plus the length of the
    document at most 2^53, whatever its [endOffset] and its recorded section
    heading: [resolveAnchor] answers null exactly when the anchor text
    occurs nowhere in the document. *)
Theorem resolveAnchor_orphaned_iff (anchor : JS.TextAnchor) (doc : jsstring) (s : Z) :
  JS.anchorText anchor <> [] ->
  JS.startOffset anchor = Integer s ->
  exactInteger (Z.abs s + Z.of_nat (length doc)) ->
  (JS.resolveAnchor anchor doc = None <-> ~ isSubstring (JS.anchorText anchor) doc).
Proof.
  intros Hne Hs Hexact.
  rewrite (JS_resolveAnchor_integerView anchor doc s Hs Hexact).
  rewrite fmap_None. by apply (resolveAnchor_orphaned_iff_integers (integerView s anchor)).
Qed.

Lemma resolveAnchor_orphaned_iff_witness :
  JS.resolveAnchor
    (JS.mkTextAnchor (str "test ") (Integer 17) Infinity (Some (str "# Title")))
    (str "# Title" ++ [10%N] ++ str "Hello, this is a document.") = None <->
  ~ isSubstring (str "test ")
      (str "# Title" ++ [10%N] ++ str "Hello, this is a document.").
Proof.
  apply (resolveAnchor_orphaned_iff
           (JS.mkTextAnchor (str "test ") (Integer 17) Infinity (Some (str "# Title")))
           _ 17).
  - discriminate.
  - reflexivity.
  - vm_compute. discriminate.
Defined.

(** X1. The heading layer adds nothing to the text search when the recorded
    [startOffset] is an integer [s] with [|s|] plus the length of the
    document at most 2^53: an occurrence inside the section is an occurrence
    in the document, which layer 2 has found.  A [HeadingFallback] answer
    for such an anchor is therefore an answer for an empty anchor text. *)
Theorem heading_fallback_only_for_empty_anchorText (anchor : JS.TextAnchor)
    (doc : jsstring) (s : Z) (r : JS.ResolvedAnchor) :
  JS.startOffset anchor = Integer s ->
  exactInteger (Z.abs s + Z.of_nat (length doc)) ->
  JS.resolveAnchor anchor doc = Some r ->
  JS.method r = HeadingFallback ->
  JS.anchorText anchor = [].
Proof.
  intros Hs Hexact Hres Hmethod.
  rewrite (JS_resolveAnchor_integerView anchor doc s Hs Hexact) in Hres.
  apply fmap_Some in Hres as (r0 & Hres & ->).
  by apply (heading_fallback_only_for_empty_anchorText_integers
              (integerView s anchor) doc r0).
Qed.

Lemma heading_fallback_only_for_empty_anchorText_witness :
  let anchor := JS.mkTextAnchor [] (Integer 0) (Integer 0) (Some (str "# Title")) in
  let doc := str "# Title" ++ [10%N] ++ str "body" in
  JS.resolveAnchor anchor doc = Some (JS.mkResolved (Integer 0) (Integer 0) HeadingFallback) /\
  JS.anchorText anchor = [].
Proof.
  intros anchor doc.
  assert (Hr : JS.resolveAnchor anchor doc
               = Some (JS.mkResolved (Integer 0) (Integer 0) HeadingFallback))
    by (vm_compute; reflexivity).
  split; [exact Hr|].
  apply (heading_fallback_only_for_empty_anchorText anchor doc 0
           (JS.mkResolved (Integer 0) (Integer 0) HeadingFallback) eq_refl);
    [|exact Hr|reflexivity].
  vm_compute. discriminate.
Defined.

(** With a [startOffset] that is missing, the text search finds nothing and
    the heading layer answers for an anchor text that is not empty. *)
Example heading_fallback_for_missing_startOffset :
  JS.resolveAnchor (JS.mkTextAnchor (str "body") NaN NaN (Some (str "# Title")))
    (str "# Title" ++ [10%N] ++ str "body")
  = Some (JS.mkResolved (Integer 8) (Integer 12) HeadingFallback).
Proof. vm_compute. reflexivity. Qed.

(** ** The index on thread objects that refer to their anchors *)

Lemma mapSet_heapIndexInv heap m k l thread :
  heapIndexInv heap m -> JS.threadObjects heap !! l = Some thread -> JS.id thread = k ->
  heapIndexInv heap (mapSet m k l).
Proof.
  intros [Hnd Hel] Hl Hid. split.
  - clear Hel. induction m as [|[k0 l0] m IH]; simpl.
    + apply NoDup_singleton.
    + apply NoDup_cons in Hnd as [Hk0 Hnd].
      destruct (decide (k0 = k)) as [->|Hne]; simpl.
      * by apply NoDup_cons.
      * apply NoDup_cons. split; [|by apply IH].
        intros Hin. apply mapSet_keys in Hin as [?|?]; [congruence|done].
  - intros k' l' Hin. apply mapSet_elem_of in Hin as [[= -> ->]|Hin]; eauto.
Qed.

Lemma heapIndexInv_NoDup_values heap m : heapIndexInv heap m -> NoDup m.*2.
Proof.
  induction m as [|[k l] m IH]; intros [Hnd Hel]; simpl; [apply NoDup_nil_2|].
  apply NoDup_cons in Hnd as [Hk Hnd]. apply NoDup_cons. split.
  - intros Hin. apply list_elem_of_fmap in Hin as ([k' l'] & Heq & Hin).
    simpl in Heq. subst l'.
    destruct (Hel k l ltac:(left)) as (t1 & Ht1 & Hid1).
    destruct (Hel k' l ltac:(by right)) as (t2 & Ht2 & Hid2).
    assert (k' = k) as -> by congruence.
    apply Hk. apply list_elem_of_fmap. by exists (k, l).
  - apply IH. split; [done|]. intros k' l' Hin. apply Hel. by right.
Qed.

Lemma JS_build_step_inv heap idx l :
  heapIndexInv heap (JS.threadMap idx) ->
  heapIndexInv heap (JS.threadMap (JS.build_step heap idx l)).
Proof.
  intros Hinv. unfold JS.build_step.
  destruct (JS.threadObjects heap !! l) as [thread|] eqn:Hl; [|done].
  destruct (JS.anchorObjects heap !! JS.anchor thread); [|done]. simpl.
  by eapply mapSet_heapIndexInv.
Qed.

(** No thread object is held twice by an index. *)
Lemma JS_build_NoDup heap threads : NoDup (JS.indexed (JS.build heap threads)).
Proof.
  apply (heapIndexInv_NoDup_values heap). unfold JS.build.
  assert (Hinit : heapIndexInv heap (JS.threadMap JS.emptyIndex)).
  { split; [apply NoDup_nil_2|]. intros k l Hin. by apply elem_of_nil in Hin. }
  revert Hinit. generalize JS.emptyIndex.
  induction threads as [|l threads IH]; intros idx Hinv; simpl; [done|].
  apply IH. by apply JS_build_step_inv.
Qed.

(** The loop of [applyOffsetShift] assigns to anchor objects only. *)
Lemma JS_shiftThread_threadObjects changeFrom changeTo delta heap l :
  JS.threadObjects (JS.shiftThread changeFrom changeTo delta heap l)
  = JS.threadObjects heap.
Proof.
  unfold JS.shiftThread. destruct (JS.threadObjects heap !! l) as [thread|]; [|done].
  by destruct (JS.anchorObjects heap !! JS.anchor thread).
Qed.

Lemma JS_shift_all_threadObjects changeFrom changeTo delta ls heap :
  JS.threadObjects (fold_left (JS.shiftThread changeFrom changeTo delta) ls heap)
  = JS.threadObjects heap.
Proof.
  revert heap. induction ls as [|x ls IH]; intros heap; simpl; [done|].
  by rewrite IH, JS_shiftThread_threadObjects.
Qed.

(** An iteration on a thread that holds another anchor object. *)
Lemma JS_shiftThread_other_anchor changeFrom changeTo delta heap l (r : aloc) :
  (forall thread, JS.threadObjects heap !! l = Some thread -> JS.anchor thread <> r) ->
  JS.anchorObjects (JS.shiftThread changeFrom changeTo delta heap l) !! r
  = JS.anchorObjects heap !! r.
Proof.
  intros Hother. unfold JS.shiftThread.
  destruct (JS.threadObjects heap !! l) as [thread|]; [|done].
  destruct (JS.anchorObjects heap !! JS.anchor thread); [|done]. simpl.
  apply list_lookup_insert_ne. by apply Hother.
Qed.

Lemma JS_shift_all_other_anchors changeFrom changeTo delta ls heap (r : aloc) :
  (forall l thread, l ∈ ls -> JS.threadObjects heap !! l = Some thread ->
                    JS.anchor thread <> r) ->
  JS.anchorObjects (fold_left (JS.shiftThread changeFrom changeTo delta) ls heap) !! r
  = JS.anchorObjects heap !! r.
Proof.
  revert heap. induction ls as [|x ls IH]; intros heap Hother; simpl; [done|].
  rewrite IH.
  - apply JS_shiftThread_other_anchor. intros thread. apply Hother. by left.
  - intros l thread Hl. rewrite JS_shiftThread_threadObjects.
    apply Hother. by right.
Qed.

(** The anchor object of an indexed thread that no other indexed thread
    holds is assigned to once. *)
Lemma JS_shift_all_own_anchor changeFrom changeTo delta ls heap l thread a :
  NoDup ls -> l ∈ ls ->
  JS.threadObjects heap !! l = Some thread ->
  JS.anchorObjects heap !! JS.anchor thread = Some a ->
  (forall l' thread', l' ∈ ls -> JS.threadObjects heap !! l' = Some thread' ->
                      JS.anchor thread' = JS.anchor thread -> l' = l) ->
  JS.anchorObjects (fold_left (JS.shiftThread changeFrom changeTo delta) ls heap)
    !! JS.anchor thread
  = Some (JS.shiftAnchor changeFrom changeTo delta a).
Proof.
  revert heap. induction ls as [|x ls IH]; intros heap Hnd Hin Hl Ha Hown; simpl.
  - by apply elem_of_nil in Hin.
  - apply NoDup_cons in Hnd as [Hx Hnd].
    destruct (decide (x = l)) as [->|Hne].
    + rewrite JS_shift_all_other_anchors.
      * unfold JS.shiftThread. rewrite Hl, Ha. simpl.
        apply list_lookup_insert_eq. by eapply lookup_lt_Some.
      * intros l' thread' Hl'. rewrite JS_shiftThread_threadObjects.
        intros Hthread' Hsame.
        assert (l' = l) as -> by (apply (Hown l' thread'); [by right|done|done]).
        done.
    + apply elem_of_cons in Hin as [->|Hin]; [done|].
      apply IH; [done|done| | |].
      * by rewrite JS_shiftThread_threadObjects.
      * rewrite JS_shiftThread_other_anchor; [done|].
        intros threadx Hthreadx Hsame. apply Hne.
        apply (Hown x threadx); [by left|done|done].
      * intros l' thread' Hl'. rewrite JS_shiftThread_threadObjects.
        intros Hthread' Hsame. apply (Hown l' thread'); [by right|done|done].
Qed.

Lemma JS_build_step_tree_mono heap idx l x :
  x ∈ JS.tree idx -> x ∈ JS.tree (JS.build_step heap idx l).
Proof.
  intros Hx. unfold JS.build_step.
  destruct (JS.threadObjects heap !! l) as [thread|]; [|done].
  destruct (JS.anchorObjects heap !! JS.anchor thread) as [a|]; [|done]. simpl.
  destruct (num_lt _ _); [|done]. apply elem_of_app. by left.
Qed.

Lemma JS_build_tree_elem_of heap threads l thread a :
  l ∈ threads ->
  JS.threadObjects heap !! l = Some thread ->
  JS.anchorObjects heap !! JS.anchor thread = Some a ->
  num_lt (JS.startOffset a) (JS.endOffset a) = true ->
  (JS.startOffset a, JS.endOffset a, JS.id thread) ∈ JS.tree (JS.build heap threads).
Proof.
  intros Hin Hl Ha Hlt. unfold JS.build. generalize JS.emptyIndex.
  induction threads as [|x threads IH]; intros idx; simpl.
  - by apply elem_of_nil in Hin.
  - apply elem_of_cons in Hin as [<-|Hin]; [|by apply IH].
    assert (Hmono : forall ls idx0 y,
               y ∈ JS.tree idx0 -> y ∈ JS.tree (fold_left (JS.build_step heap) ls idx0)).
    { induction ls as [|z ls IHls]; intros idx0 y Hy; simpl; [done|].
      by apply IHls, JS_build_step_tree_mono. }
    apply Hmono. unfold JS.build_step. rewrite Hl, Ha. simpl. rewrite Hlt.
    apply elem_of_app. right. by apply list_elem_of_singleton.
Qed.

(** The first branch of the loop body, on integers. *)
Lemma JS_shiftAnchor_after changeFrom changeTo delta a s e :
  JS.startOffset a = Integer s -> JS.endOffset a = Integer e ->
  s >= changeTo ->
  exactInteger (s + delta) -> exactInteger (e + delta) ->
  JS.shiftAnchor (Integer changeFrom) (Integer changeTo) (Integer delta) a
  = JS.setOffsets (Integer (s + delta)) (Integer (e + delta)) a.
Proof.
  intros Hs He Hge Hes Hee. unfold JS.shiftAnchor.
  rewrite Hs, He, num_ge_Integer.
  rewrite (proj2 (Z.leb_le changeTo s)) by lia.
  by rewrite !num_add_exact.
Qed.

(** C3 (shift correctness), as amended.  An anchor index is the result of
    [build]; its thread map holds one thread object per thread id.  For a
    thread object of the thread map whose anchor object is held by no other
    thread object of the map and has integer offsets [s] and [e] with
    [s >= changeTo], after [applyOffsetShift] on integers the offsets of the
    anchor object are [s + delta] and [e + delta], with
    [delta = insertLength - (changeTo - changeFrom)], provided the
    differences and the sums are at most 2^53 in absolute value, so that
    they are computed exactly.  Its text and heading and the thread object
    are unchanged, and when [delta] is not 0 and [s < e] the rebuilt
    interval tree holds the shifted interval under the thread id. *)
Theorem applyOffsetShift_shifts_anchor_after_change
    (heap0 : JS.Heap) (threads : list loc) (heap : JS.Heap)
    (changeFrom changeTo insertLength s e : Z) (l : loc)
    (thread : JS.CommentThread) (a : JS.TextAnchor) :
  let delta := insertLength - (changeTo - changeFrom) in
  let idx := JS.build heap0 threads in
  let result := JS.applyOffsetShift heap idx
                  (Integer changeFrom) (Integer changeTo) (Integer insertLength) in
  l ∈ JS.indexed idx ->
  JS.threadObjects heap !! l = Some thread ->
  JS.anchorObjects heap !! JS.anchor thread = Some a ->
  (forall l' thread',
     l' ∈ JS.indexed idx -> JS.threadObjects heap !! l' = Some thread' ->
     JS.anchor thread' = JS.anchor thread -> l' = l) ->
  JS.startOffset a = Integer s ->
  JS.endOffset a = Integer e ->
  s >= changeTo ->
  exactInteger (changeTo - changeFrom) -> exactInteger delta ->
  exactInteger (s + delta) -> exactInteger (e + delta) ->
  exists a',
    JS.anchorObjects result.1 !! JS.anchor thread = Some a' /\
    JS.startOffset a' = Integer (s + delta) /\
    JS.endOffset a' = Integer (e + delta) /\
    JS.anchorText a' = JS.anchorText a /\
    JS.sectionHeading a' = JS.sectionHeading a /\
    JS.threadObjects result.1 !! l = Some thread /\
    (delta <> 0 -> s < e ->
     (Integer (s + delta), Integer (e + delta), JS.id thread) ∈ JS.tree result.2).
Proof.
  intros delta idx result Hin Hl Ha Hown Hs He Hge Hdiff Hdelta Hes Hee.
  subst result. unfold JS.applyOffsetShift.
  rewrite (num_sub_exact changeTo changeFrom) by done.
  rewrite (num_sub_exact insertLength (changeTo - changeFrom)) by done.
  fold delta. cbn [num_eq].
  destruct (Z.eqb_spec delta 0) as [Hz|Hnz].
  - exists a. cbn [fst snd]. rewrite Hz, !Z.add_0_r.
    repeat split; try done.
  - cbn [fst snd].
    pose proof (JS_shift_all_own_anchor (Integer changeFrom) (Integer changeTo)
                  (Integer delta) (JS.indexed idx) heap l thread a
                  (JS_build_NoDup heap0 threads) Hin Hl Ha Hown) as Hshifted.
    rewrite (JS_shiftAnchor_after changeFrom changeTo delta a s e) in Hshifted by done.
    eexists. split; [exact Hshifted|].
    cbn [JS.setOffsets JS.startOffset JS.endOffset JS.anchorText JS.sectionHeading].
    rewrite JS_shift_all_threadObjects.
    repeat split; try done.
    intros _ Hlt.
    apply (JS_build_tree_elem_of _ _ l thread _ Hin) in Hshifted.
    + exact Hshifted.
    + by rewrite JS_shift_all_threadObjects.
    + cbn [JS.setOffsets JS.startOffset JS.endOffset]. rewrite num_lt_Integer.
      apply Z.ltb_lt. lia.
Qed.

Lemma applyOffsetShift_shifts_anchor_after_change_witness :
  let idx := JS.build ownHeap [0; 1]%nat in
  let result := JS.applyOffsetShift ownHeap idx (Integer 10) (Integer 10) (Integer 5) in
  exists a',
    JS.anchorObjects result.1 !! 0%nat = Some a' /\
    JS.startOffset a' = Integer 25 /\
    JS.endOffset a' = Integer 31 /\
    (Integer 25, Integer 31, str "t1") ∈ JS.tree result.2.
Proof.
  intros idx result.
  destruct (applyOffsetShift_shifts_anchor_after_change ownHeap [0; 1]%nat ownHeap
              10 10 5 20 26 0%nat (threadOn "t1" 0%nat) targetAnchor)
    as (a' & Ha' & Hs & He & _ & _ & _ & Htree); try reflexivity.
  - left.
  - intros l' thread' Hl' Hthread' Hsame.
    apply elem_of_cons in Hl' as [->|Hl']; [done|].
    apply list_elem_of_singleton in Hl' as ->.
    injection Hthread' as <-. discriminate Hsame.
  - discriminate.
  - vm_compute. discriminate.
  - vm_compute. discriminate.
  - vm_compute. discriminate.
  - vm_compute. discriminate.
  - exists a'. split; [exact Ha'|]. split; [exact Hs|]. split; [exact He|].
    apply Htree; [discriminate|reflexivity].
Defined.

(** C3, the claim as it was stated, at two indexes whose change lies before
    the interval 20..26, with [delta] 5.  In the first, two threads hold one
    anchor object ([createThread] stores the anchor object it is handed):
    the tree holds the interval under both ids, the loop visits both thread
    objects and shifts the one anchor object twice, and the interval becomes
    30..36 and not 25..31.  In the second, two thread objects have one id
    (nothing checks the ids of a sidecar): the tree holds the interval of
    both, the thread map holds the second only, and the anchor of the first
    is left at 20..26 and dropped from the rebuilt tree. *)
Lemma applyOffsetShift_shared_anchor_and_repeated_id :
  let shared := JS.build sharedHeap [0; 1]%nat in
  let result := JS.applyOffsetShift sharedHeap shared
                  (Integer 10) (Integer 10) (Integer 5) in
  let twins := JS.build twinHeap [0; 1]%nat in
  let result' := JS.applyOffsetShift twinHeap twins
                   (Integer 10) (Integer 10) (Integer 5) in
  (JS.tree shared
   = [(Integer 20, Integer 26, str "t1"); (Integer 20, Integer 26, str "t2")] /\
   JS.anchorObjects result.1
   = [JS.mkTextAnchor (str "target") (Integer 30) (Integer 36) None] /\
   JS.tree result.2
   = [(Integer 30, Integer 36, str "t1"); (Integer 30, Integer 36, str "t2")]) /\
  (JS.tree twins
   = [(Integer 20, Integer 26, str "t1"); (Integer 20, Integer 26, str "t1")] /\
   JS.indexed twins = [1%nat] /\
   JS.anchorObjects result'.1
   = [JS.mkTextAnchor (str "target") (Integer 20) (Integer 26) None;
      JS.mkTextAnchor (str "target") (Integer 25) (Integer 31) None] /\
   JS.tree result'.2 = [(Integer 25, Integer 31, str "t1")]).
Proof. vm_compute. repeat split; reflexivity. Qed.

(** Beyond 2^53 the sum is rounded: an anchor at 2^53 stays where it is
    when one character is inserted before it. *)
Example applyOffsetShift_rounded_sum :
  let far := JS.mkTextAnchor (str "x") (Integer (2 ^ 53)) (Integer (2 ^ 53 + 2)) None in
  let heap := JS.mkHeap [threadOn "t1" 0%nat] [far] in
  let result := JS.applyOffsetShift heap (JS.build heap [0%nat])
                  (Integer 0) (Integer 0) (Integer 1) in
  JS.startOffset <$> JS.anchorObjects result.1 = [Integer (2 ^ 53)].
Proof. vm_compute. reflexivity. Qed.

(** On integers whose sums are exact the loop body does on an anchor object
    what [shiftAnchor] does on the anchor of a thread that owns it. *)
Lemma JS_shiftAnchor_integers changeFrom changeTo delta (a : TextAnchor) :
  exactInteger (startOffset a + delta) -> exactInteger (endOffset a + delta) ->
  JS.shiftAnchor (Integer changeFrom) (Integer changeTo) (Integer delta)
    (anchorOfIntegers a)
  = anchorOfIntegers (shiftAnchor changeFrom changeTo delta a).
Proof.
  intros Hs He.
  unfold JS.shiftAnchor, shiftAnchor, anchorOfIntegers, num_gt, JS.setOffsets, setOffsets.
  cbn [JS.anchorText JS.startOffset JS.endOffset JS.sectionHeading].
  rewrite !num_ge_Integer, num_le_Integer, num_lt_Integer, !Z.geb_leb, Z.gtb_ltb.
  rewrite !num_add_exact by done.
  destruct (changeTo <=? startOffset a); [done|].
  destruct ((changeFrom <=? startOffset a) && (endOffset a <=? changeTo)); [done|].
  destruct (changeFrom <? endOffset a); [|done].
  cbn [anchorText startOffset endOffset sectionHeading].
  unfold Math_max. rewrite num_lt_Integer.
  destruct (Z.ltb_spec (startOffset a) (endOffset a + delta));
    do 2 f_equal; lia.
Qed.

(** ** Exact anchors around a replacement

    Steps 3 and 4 of [acceptSuggestion]: the text between [replaceStart] and
    [replaceEnd] is replaced in the document and the index is shifted.  An
    anchor object of its own that matched the document exactly and lies
    before or after the replaced text matches the new document exactly. *)







(** ** Decided suggestions without an active document *)

Section DecidedWithoutDocument.
#[local] Existing Instance mockBackend.
#[local] Existing Instance sampleHost.

(** C2, the claim as it was stated, at a thread pushed by the service before
    any document is active: [handleIncomingThread] adds the thread to the
    thread set; its suggestion is accepted already, and [acceptSuggestion]
    and [rejectSuggestion] both stop at the test of the active document,
    with that error and not the already-decided one. *)
Lemma decided_suggestion_without_active_document :
  let s0 := sampleOffline (mkMock Connected false false) emptyBackend [] in
  let s := OfflineAwareBackend.handleIncomingThread (sampleThread Accepted) s0 in
  LocalBackend.activeFile (OfflineAwareBackend.core s) = None /\
  OfflineAwareBackend.getThreads s = [sampleThread Accepted] /\
  sg_status <$> suggestion (sampleMessage Accepted) = Some Accepted /\
  OfflineAwareBackend.acceptSuggestion (str "t1") (str "m1") s
  = (s, Throw NoActiveDocument) /\
  OfflineAwareBackend.rejectSuggestion (str "t1") (str "m1") s
  = (s, Throw NoActiveDocument).
Proof. vm_compute. repeat split; reflexivity. Qed.

End DecidedWithoutDocument.

